(** * Template reassignment core of KMA (reassign.c, ef.c) and consensus
    printer (printconsensus.c): a shallow embedding

    The C functions of [reassign.c], [ef.c] and [printconsensus.c] are
    transcribed as Rocq functions over [Z].  Conventions used throughout:

    - [int] values are modelled on [Z]; signed overflow is undefined in C and
      the statements below stay inside the range where none occurs.
    - [long unsigned] words are values in [[0, 2^64)]; the left shift, the
      only word operation of the code that can overflow, is reduced modulo
      [2^64] ([shl64]).
    - A length-prefixed [int] buffer (slot 0 holds the count) whose entries
      are only appended and swept is represented by the list of its entries;
      where the code does pointer arithmetic on such a buffer (the heap), the
      buffer is a flat list of cells addressed from a base offset.  The
      static buffer [bestTemplates] is kept as such a flat list, with the
      cells that a call leaves behind the count.
    - Loops whose trip count is bounded by the code itself are structural
      recursions on that bound; loops that the code does not bound take
      an explicit fuel and return [None] when it runs out.
    - Text written to a [FILE] is the list of the lines written, each a list
      of bytes without its newline; a [FILE] pointer that may be null is a
      [bool].
    - Headers that the files include but that are not at hand
      (compdna.h, stdnuc.h, assembly.h, hashmapkma.h, qseqs.h) are modelled
      from the design document or taken as parameters; each such definition
      says so.

    The embedding comes first, one module per component; the reference
    definitions used by the statements and the test vectors follow; the
    properties come last. *)

From Stdlib Require Import ZArith List Lia Bool Sorted.
Import ListNotations.
Local Open Scope Z_scope.

(** ** PackedDNA (compdna.h) *)

Module PackedDNA.

(** Modelled from the spec: [CompDNA] (compdna.h is not part of the
    sources).  [seq] holds the two-bit bases, 32 per word, first base in the
    two most significant bits; [N] lists the positions of the ambiguous
    bases in ascending order (the C array keeps their number in [N[0]] and
    the positions in [N[1..]]; here [N] is the list of positions and the
    count is its length). *)
Record CompDNA : Type := mkCompDNA {
  seqlen : Z;
  seq : list Z;
  N : list Z
}.

Definition shl64 (w n : Z) : Z := Z.shiftl w n mod 2 ^ 64.

(** [Comp[i]] for a word array; cells outside the list read as zero (the
    encoder allocates one spare zeroed word after the last used one). *)
Definition word (Comp : list Z) (i : Z) : Z :=
  if i <? 0 then 0 else nth (Z.to_nat i) Comp 0.

(** Modelled from the spec: the macro [getKmer_macro] of compdna.h, which is
    not part of the sources.  It returns the k-mer starting at base [pos] as
    a 64-bit integer with the low-order bits significant after shifting by
    [shifter]; when the k-mer spans a word boundary two consecutive words
    are combined.  Lemma [getKmer_bit] below reads the result off the bit
    stream. *)
Definition getKmer (Comp : list Z) (pos shifter : Z) : Z :=
  let iPos := Z.shiftl (Z.land pos 31) 1 in
  let cPos := Z.shiftr pos 5 in
  if iPos <=? shifter
  then Z.shiftr (shl64 (word Comp cPos) iPos) shifter
  else Z.shiftr (Z.lor (shl64 (word Comp cPos) iPos)
                       (Z.shiftr (word Comp (cPos + 1)) (64 - iPos))) shifter.

(** Modelled from the spec: the macro [getNuc] of stdnuc.h, the two-bit base
    at position [pos]. *)
Definition getNuc (Comp : list Z) (pos : Z) : Z :=
  Z.shiftr (shl64 (word Comp (Z.shiftr pos 5)) (Z.shiftl (Z.land pos 31) 1)) 62.

(** Modelled from the spec: the macro [updateKmer_macro] of compdna.h, the
    rolling recurrence [kmer = ((kmer << 2) | base) & mask]. *)
Definition updateKmer (kmer : Z) (Comp : list Z) (pos mask : Z) : Z :=
  Z.land (Z.lor (shl64 kmer 2) (getNuc Comp pos)) mask.

(** Modelled from the spec: [NORM(id) = |id|] (the macro is declared in a
    header that is not part of the sources). *)
Definition NORM (id : Z) : Z := Z.abs id.

End PackedDNA.

Import PackedDNA.

(** ** ExactMatcher (reassign.c, lines 497-609) *)

Module Matcher.

(** The loop of [reassign_getoffset]:
    [while(qmer != kmer && ++offset < qseq->seqlen) getKmer_macro(qmer, ...)].
    [n] bounds the number of increments of [offset]. *)
Fixpoint getoffset_loop (n : nat) (qseq : CompDNA) (kmer qmer offset : Z) : Z * Z :=
  if qmer =? kmer then (qmer, offset)
  else
    let offset := offset + 1 in
    if offset <? seqlen qseq then
      match n with
      | O => (qmer, offset)
      | S n' => getoffset_loop n' qseq kmer (getKmer (seq qseq) offset 0) offset
      end
    else (qmer, offset).

Definition reassign_getoffset (qseq : CompDNA) (kmer offset : Z) : Z :=
  let offset := offset - 1 in
  let qmer := (kmer + 1) mod 2 ^ 64 in
  let '(qmer, offset) :=
    getoffset_loop (Z.to_nat (seqlen qseq - offset)) qseq kmer qmer offset in
  if qmer =? kmer then offset else -1.

(** The loop [while(--complen)] of [reassign_cmpseqs]; [ti] is the index of
    [target] in the candidate's word array.  The result is [inl r] when the
    loop returns [r], and [inr (ti, offset)] when it falls through. *)
Fixpoint cmpseqs_loop (n : nat) (qseq target : list Z) (ti offset : Z)
  : Z + (Z * Z) :=
  match n with
  | O => inr (ti, offset)
  | S n' =>
      let kmer := getKmer qseq offset 0 in
      if negb (word target ti =? kmer)
      then inl (if word target ti <? kmer then -1 else 1)
      else cmpseqs_loop n' qseq target (ti + 1) (offset + 32)
  end.

Definition reassign_cmpseqs (qseq target : list Z) (len offset : Z) : Z :=
  if offset <? 0 then -1
  else
    let complen := Z.shiftr len 5 + (if negb (Z.land len 31 =? 0) then 1 else 0) in
    (* [while(--complen)] runs until the counter reaches zero *)
    match cmpseqs_loop (Z.to_nat ((complen - 1) mod 2 ^ 32)) qseq target 0 offset with
    | inl r => r
    | inr (ti, offset) =>
        if negb (Z.land len 31 =? 0) then
          let complen := 64 - Z.shiftl (Z.land len 31) 1 in
          let kmer := getKmer qseq offset complen in
          let kmer := shl64 kmer complen in
          if negb (word target ti =? kmer)
          then (if word target ti <? kmer then -1 else 1)
          else 0
        else 0
    end.

(** [reassign_testNs]: the walk [while(--n && *++N < end)] over the
    ascending positions. *)
Fixpoint reassign_testNs (Ns : list Z) (start end_ : Z) : Z :=
  match Ns with
  | [] => 0
  | p :: Ns' =>
      if p <? end_ then
        if (start <? p) && (p <? end_) then p
        else reassign_testNs Ns' start end_
      else 0
  end.

(** The feasibility scan at the head of [reassign_matchseqs]; [Ns] are the
    positions [N[i]], [N[i+1]], ... still to visit.  [None] is the early
    [return -1]; [Some start] leaves the loop. *)
Fixpoint matchseqs_Ns (Ns : list Z) (c_len q_len start : Z) : option Z :=
  match Ns with
  | [] => Some start
  | p :: Ns' =>
      if q_len <=? p - start then Some start          (* i = consensus->N[0] *)
      else if c_len - p <? q_len then None            (* return -1 *)
      else matchseqs_Ns Ns' c_len q_len (p + 1)
  end.

(** The seek-match-extend loop of [reassign_matchseqs]. *)
Fixpoint matchseqs_loop (fuel : nat) (consensus qseq : CompDNA) (start match_ : Z)
  : option (Z * Z) :=
  if negb (match_ =? 0) then
    let start := start + 1 in
    if (0 <=? start) && (seqlen qseq <=? seqlen consensus - start) then
      match fuel with
      | O => None
      | S fuel' =>
          let m := reassign_getoffset consensus (word (seq qseq) 0) start in
          let start := if 0 <=? m then m else seqlen qseq in
          let match_ := reassign_cmpseqs (seq consensus) (seq qseq) (seqlen qseq) start in
          if match_ =? 0 then
            let t := reassign_testNs (N consensus) start (start + seqlen qseq) in
            if negb (t =? 0)
            then matchseqs_loop fuel' consensus qseq t t
            else matchseqs_loop fuel' consensus qseq start 0
          else matchseqs_loop fuel' consensus qseq start match_
      end
    else Some (start, match_)
  else Some (start, match_).

Definition reassign_matchseqs (fuel : nat) (consensus qseq : CompDNA) : option Z :=
  match matchseqs_Ns (N consensus) (seqlen consensus) (seqlen qseq) 0 with
  | None => Some (-1)
  | Some start =>
      match matchseqs_loop fuel consensus qseq (start - 1) 1 with
      | None => None
      | Some (start, match_) => Some (if negb (match_ =? 0) then -1 else start)
      end
  end.

(** [reassign_matchseqs_rc] *)
Definition reassign_matchseqs_rc (fuel : nat) (consensus consensus_rc candidate : CompDNA)
  : option Z :=
  match reassign_matchseqs fuel consensus candidate with
  | None => None
  | Some r =>
      if negb (r =? 0) then reassign_matchseqs fuel consensus_rc candidate
      else Some 0
  end.

End Matcher.

Import Matcher.

(** ** Flat [int] arrays *)

Module Mem.

Definition rd (mem : list Z) (i : Z) : Z :=
  if i <? 0 then 0 else nth (Z.to_nat i) mem 0.

Fixpoint upd (mem : list Z) (i : nat) (v : Z) : list Z :=
  match mem, i with
  | [], _ => []
  | _ :: mem', O => v :: mem'
  | x :: mem', S i' => x :: upd mem' i' v
  end.

(** A store outside the list leaves it unchanged. *)
Definition wr (mem : list Z) (i v : Z) : list Z :=
  if i <? 0 then mem else upd mem (Z.to_nat i) v.

End Mem.

Import Mem.

(** ** CandidateHeap (reassign.c, lines 210-271) *)

Module Heap.

(** [reassign_heapify(bests, lengths, index)]; [bests] is the offset of the
    pointer argument in the buffer [mem].  The statement [n = *bests++]
    advances the local pointer, and it is this advanced pointer that the
    recursive call receives.  The result is the buffer and the returned
    number of exchanges. *)
Fixpoint reassign_heapify (fuel : nat) (mem : list Z) (bests : Z) (lengths : list Z)
    (index : Z) : option (list Z * Z) :=
  match fuel with
  | O => None
  | S fuel' =>
      let n := rd mem bests in
      let bests := bests + 1 in
      let root := index in
      let child := Z.shiftl index 1 + 1 in
      let root :=
        if (child <? n) &&
           (rd lengths (NORM (rd mem (bests + root))) <? rd lengths (NORM (rd mem (bests + child))))
        then child else root in
      let child := child + 1 in
      let root :=
        if (child <? n) &&
           (rd lengths (NORM (rd mem (bests + root))) <? rd lengths (NORM (rd mem (bests + child))))
        then child else root in
      if negb (root =? index) then
        let child := rd mem (bests + index) in
        let mem := wr mem (bests + index) (rd mem (bests + root)) in
        let mem := wr mem (bests + root) child in
        match reassign_heapify fuel' mem bests lengths root with
        | None => None
        | Some (mem, k) => Some (mem, 1 + k)
        end
      else Some (mem, 0)
  end.

(** The loop [while(i--)] of [reassign_buildheap]; [i] is the value of the
    counter before the test. *)
Fixpoint buildheap_loop (fuel : nat) (i : nat) (mem : list Z) (bests : Z) (lengths : list Z)
    (n : Z) : option (list Z * Z) :=
  match i with
  | O => Some (mem, n)
  | S i' =>
      match reassign_heapify fuel mem bests lengths (Z.of_nat i') with
      | None => None
      | Some (mem, k) => buildheap_loop fuel i' mem bests lengths (n + k)
      end
  end.

Definition reassign_buildheap (fuel : nat) (mem : list Z) (bests : Z) (lengths : list Z)
  : option (list Z * Z) :=
  buildheap_loop fuel (Z.to_nat (Z.shiftr (rd mem bests) 1)) mem bests lengths 0.

(** [reassign_popheap]: the buffer after the call and the returned id. *)
Definition reassign_popheap (fuel : nat) (mem : list Z) (bests : Z) (lengths : list Z)
  : option (list Z * Z) :=
  if rd mem bests =? 0 then Some (mem, 0)
  else
    let template := rd mem (bests + 1) in
    let mem := wr mem (bests + 1) (rd mem (bests + rd mem bests)) in
    let mem := wr mem bests (rd mem bests - 1) in
    match reassign_heapify fuel mem bests lengths 0 with
    | None => None
    | Some (mem, _) => Some (mem, template)
    end.

(** [k] successive calls of [reassign_popheap]: the ids returned, in order. *)
Fixpoint pops (fuel : nat) (k : nat) (mem : list Z) (bests : Z) (lengths : list Z)
  : option (list Z) :=
  match k with
  | O => Some []
  | S k' =>
      match reassign_popheap fuel mem bests lengths with
      | None => None
      | Some (mem, t) =>
          match pops fuel k' mem bests lengths with
          | None => None
          | Some ts => Some (t :: ts)
          end
      end
  end.

End Heap.

Import Heap.

(** ** KmerIndex and KmerScanner (reassign.c, lines 273-495) *)

Module Scanner.

(** Modelled from the spec: the fields of [HashMapKMA] that
    [reassign_kmers] reads.  The table itself is seen through [hashMap_get]
    (hashmapkma.h, not part of the sources): it maps a k-mer to the address
    of a value vector, [0] when the k-mer is absent.  [values p] is the list of template ids stored at
    address [p] (the C code reads it as 16-bit entries when
    [DB_size < USHRT_MAX] and as 32-bit entries otherwise; both branches
    visit the same ids in the same order). *)
Record HashMapKMA : Type := mkHashMapKMA {
  DB_size : Z;
  kmersize : Z;
  prefix : Z;
  prefix_len : Z;
  flag : Z;
  mlen : Z;
  hashMap_get : Z -> Z;
  values : Z -> list Z
}.

(** The minimizer state [(mPos, hmer, hLen)] that [getCmer], [initCmer] and
    [updateCmer] update through pointers. *)
Definition MState : Type := (Z * Z * Z)%type.

(** The minimizer routines are not part of the sources; they are taken as
    given, each returning the minimizer and the updated state. *)
Record Minimizer : Type := mkMinimizer {
  getCmer : Z -> MState -> Z -> Z -> Z -> Z * MState;
  initCmer : Z -> MState -> Z -> Z -> Z -> Z -> Z * MState;
  updateCmer : Z -> MState -> Z -> Z -> Z -> Z -> Z * MState
}.

(** The scratch that a pass accumulates: the run [(last, reps)] of the
    current value vector, the [Score] array and the candidate bucket (the
    entries [bests[1..*bests]]). *)
Record Acc : Type := mkAcc {
  last : Z;
  reps : Z;
  Scores : list Z;
  bests : list Z
}.

(** One step of the flush loops: [if((Scores[t] += reps) == reps)
    bests[++*bests] = t]. *)
Definition bump (r : Z) (SB : list Z * list Z) (t : Z) : list Z * list Z :=
  let '(Sc, B) := SB in
  let s := rd Sc t + r in
  (wr Sc t s, if s =? r then B ++ [t] else B).

(** The flush of a value vector [v] with weight [r]. *)
Definition flush (v : list Z) (r : Z) (SB : list Z * list Z) : list Z * list Z :=
  fold_left (bump r) v SB.

(** The body of [if((values = hashMap_get(templates, cmer)))]. *)
Definition accumulate (T : HashMapKMA) (vals : Z) (a : Acc) : Acc :=
  if vals =? last a then mkAcc (last a) (reps a + 1) (Scores a) (bests a)
  else if negb (last a =? 0) then
    let '(Sc, B) := flush (values T (last a)) (reps a) (Scores a, bests a) in
    mkAcc vals 1 Sc B
  else mkAcc vals 1 (Scores a) (bests a).

(** "get last k-mer hits": the flush after a pass. *)
Definition flush_last (T : HashMapKMA) (a : Acc) : Acc :=
  if negb (last a =? 0) then
    let '(Sc, B) := flush (values T (last a)) (reps a) (Scores a, bests a) in
    mkAcc (last a) (reps a) Sc B
  else a.

Section Passes.

(** The passes are written over an arbitrary accumulator and an arbitrary
    treatment [hit] of a successful lookup, so that the scanner of the code
    ([hit := accumulate]) and the variant that flushes every lookup can share
    the k-mer iteration. *)
Context {A : Type}.
Variable T : HashMapKMA.
Variable M : Minimizer.
Variable hit : Z -> A -> A.

Definition ones64 : Z := 2 ^ 64 - 1.

Definition lookup (cmer : Z) (a : A) : A :=
  let vals := hashMap_get T cmer in
  if negb (vals =? 0) then hit vals a else a.

(** Inner loop of the prefix branch, [for(j += prefix_len - 1; j < end; ++j)];
    [n] is the number of iterations left. *)
Fixpoint prefix_inner (n : nat) (sq : list Z) (j pmer : Z) (ms : MState) (a : A)
  : Z * Z * MState * A :=
  match n with
  | O => (j, pmer, ms, a)
  | S n' =>
      let prefix_shifter := 64 - Z.shiftl (prefix_len T) 1 in
      let pmask := Z.shiftr ones64 prefix_shifter in
      let shifter := 64 - Z.shiftl (kmersize T) 1 in
      let mmask := Z.shiftr ones64 (64 - Z.shiftl (mlen T) 1) in
      let pmer := updateKmer pmer sq j pmask in
      let '(ms, a) :=
        if pmer =? prefix T then
          let kmer := getKmer sq (j + 1) shifter in
          let '(cmer, ms) :=
            if negb (flag T =? 0) then getCmer M kmer ms shifter (mlen T) mmask
            else (kmer, ms) in
          (ms, lookup cmer a)
        else (ms, a) in
      prefix_inner n' sq (j + 1) pmer ms a
  end.

(** Outer loop of the prefix branch over [N[i]], [i = 1 .. N[0]] (the last
    one being the sentinel [seqlen]). *)
Fixpoint prefix_outer (Ns : list Z) (sq : list Z) (j : Z) (ms : MState) (a : A)
  : Z * MState * A :=
  match Ns with
  | [] => (j, ms, a)
  | p :: Ns' =>
      let prefix_shifter := 64 - Z.shiftl (prefix_len T) 1 in
      let pmer := getKmer sq j (prefix_shifter + 2) in
      let end_ := p - kmersize T in
      let j := j + (prefix_len T - 1) in
      let '(j, _, ms, a) := prefix_inner (Z.to_nat (end_ - j)) sq j pmer ms a in
      prefix_outer Ns' sq j ms a
  end.

(** Inner loop of the plain branch, [for(j += kmersize - 1; j < end; ++j)]. *)
Fixpoint plain_inner (n : nat) (sq : list Z) (j kmer cmer : Z) (ms : MState) (a : A)
  : Z * Z * Z * MState * A :=
  match n with
  | O => (j, kmer, cmer, ms, a)
  | S n' =>
      let shifter := 64 - Z.shiftl (kmersize T) 1 in
      let mask := Z.shiftr ones64 shifter in
      let mmask := Z.shiftr ones64 (64 - Z.shiftl (mlen T) 1) in
      let kmer := updateKmer kmer sq j mask in
      let '(cmer, ms) :=
        if negb (flag T =? 0) then updateCmer M cmer ms kmer (kmersize T) (mlen T) mmask
        else (kmer, ms) in
      plain_inner n' sq (j + 1) kmer cmer ms (lookup cmer a)
  end.

(** Outer loop of the plain branch,
    [for(i = 1; i <= qseq->N[0] && j < seqend; ++i)]. *)
Fixpoint plain_outer (Ns : list Z) (sq : list Z) (seqend j : Z) (ms : MState) (a : A)
  : Z * MState * A :=
  match Ns with
  | [] => (j, ms, a)
  | p :: Ns' =>
      if j <? seqend then
        let shifter := 64 - Z.shiftl (kmersize T) 1 in
        let mmask := Z.shiftr ones64 (64 - Z.shiftl (mlen T) 1) in
        let kmer := getKmer sq j (shifter + 2) in
        let '(cmer, ms) :=
          if negb (flag T =? 0)
          then initCmer M kmer ms (shifter + 2) (kmersize T) (mlen T) mmask
          else (kmer, ms) in
        let end_ := p in
        let j := j + (kmersize T - 1) in
        let '(j, _, _, ms, a) := plain_inner (Z.to_nat (end_ - j)) sq j kmer cmer ms a in
        plain_outer Ns' sq seqend j ms a
      else (j, ms, a)
  end.

(** "iterate seq" of the prefix branch for one strand: the sentinel
    [seqlen] is appended to [N] for the duration of the pass. *)
Definition prefix_pass (qseq : CompDNA) (ms : MState) (a : A) : MState * A :=
  let '(_, ms, a) := prefix_outer (N qseq ++ [seqlen qseq]) (seq qseq) 0 ms a in
  (ms, a).

Definition plain_pass (qseq : CompDNA) (seqend : Z) (ms : MState) (a : A) : MState * A :=
  let '(_, ms, a) := plain_outer (N qseq ++ [seqlen qseq]) (seq qseq) seqend 0 ms a in
  (ms, a).

End Passes.

(** "evaluate scores": the sweep over the bucket.  [thr t] is the threshold
    of template [t]; [kept] are the entries already written back. *)
Fixpoint sweep (thr : Z -> Z) (entries : list Z) (Sc : list Z) (kept : list Z)
  : list Z * list Z :=
  match entries with
  | [] => (kept, Sc)
  | t :: rest =>
      let kept := if rd Sc t <? thr t then kept else kept ++ [t] in
      sweep thr rest (wr Sc t 0) kept
  end.

(** The accumulation of the prefix branch: both strands feed one bucket. *)
Definition prefix_scan (T : HashMapKMA) (M : Minimizer) (Score : list Z)
    (qseq_fw qseq_rc : CompDNA) : list Z * list Z :=
  let ms := (0, 0, kmersize T) in
  let '(ms, a) := prefix_pass T M (accumulate T) qseq_fw ms (mkAcc 0 0 Score []) in
  let a := flush_last T a in
  let '(ms, a) := prefix_pass T M (accumulate T) qseq_rc ms (mkAcc 0 0 (Scores a) (bests a)) in
  let a := flush_last T a in
  (bests a, Scores a).

(** The accumulation of one strand of the plain branch into an empty
    bucket. *)
Definition plain_scan (T : HashMapKMA) (M : Minimizer) (Score : list Z)
    (qseq : CompDNA) (seqend : Z) (ms : MState) : MState * (list Z * list Z) :=
  let '(ms, a) := plain_pass T M (accumulate T) qseq seqend ms (mkAcc 0 0 Score []) in
  let a := flush_last T a in
  (ms, (bests a, Scores a)).

(** [reassign_kmers]: the candidate list left in [bestTemplates] and the
    [Score] array at return. *)
Definition reassign_kmers (T : HashMapKMA) (M : Minimizer) (Score : list Z)
    (template_lengths : list Z) (qseq_fw qseq_rc : CompDNA) : list Z * list Z :=
  let seqend := seqlen qseq_fw - kmersize T + 1 in
  if negb (prefix_len T =? 0) then
    (* template_lengths += templates->DB_size *)
    let '(B, Sc) := prefix_scan T M Score qseq_fw qseq_rc in
    sweep (fun t => rd template_lengths (DB_size T + t)) B Sc []
  else
    let ms := (0, 0, kmersize T) in
    let thr := fun t => rd template_lengths t - kmersize T + 1 in
    let '(ms, (B, Sc)) := plain_scan T M Score qseq_fw seqend ms in
    let '(B_fw, Sc) := sweep thr B Sc [] in
    if negb (prefix T =? 0) then (B_fw, Sc)
    else
      let '(_, (B, Sc)) := plain_scan T M Sc qseq_rc seqend ms in
      let '(B_rc, Sc) := sweep thr B Sc [] in
      (* merge matches *)
      (B_fw ++ map Z.opp B_rc, Sc).

(** *** The buffer [bestTemplates] after the scan

    [reassign_kmers] works in the caller's buffer: the forward bucket starts
    at cell 0, the reverse bucket at cell [DB_size].  The functions below
    replay its stores on the flat buffer, so that the cells behind the
    count (the entries that a sweep dropped, the reverse bucket, whatever
    the buffer held before the call) are the ones that the code leaves. *)

(** [bests[++*bests] = t], with [bests] at the offset [base] of the
    buffer. *)
Definition bests_append (base : Z) (mem : list Z) (t : Z) : list Z :=
  let c := rd mem base + 1 in
  wr (wr mem base c) (base + c) t.

(** "evaluate scores" in place: [n] iterations are left, [vi] and [li] are
    the indices of [values] and [last]. *)
Fixpoint sweep_mem (n : nat) (thr : Z -> Z) (mem Sc : list Z) (base vi li : Z)
  : list Z * list Z :=
  match n with
  | O => (mem, Sc)
  | S n' =>
      let v := rd mem vi in
      let '(mem, li) :=
        if rd Sc v <? thr v then (wr mem base (rd mem base - 1), li)
        else (wr mem (li + 1) v, li + 1) in
      sweep_mem n' thr mem (wr Sc v 0) base (vi + 1) li
  end.

(** The bucket [B] of a pass laid in the buffer by its appends, and swept
    in place. *)
Definition sweep_bucket (thr : Z -> Z) (mem : list Z) (base : Z) (B Sc : list Z)
  : list Z * list Z :=
  let mem := fold_left (bests_append base) B mem in
  sweep_mem (Z.to_nat (rd mem base)) thr mem Sc base (base + 1) base.

(** "merge matches": [n] iterations are left, [ri] is the index of
    [bests] in the reverse bucket. *)
Fixpoint merge_mem (n : nat) (mem : list Z) (ri : Z) : list Z :=
  match n with
  | O => mem
  | S n' =>
      let ri := ri + 1 in
      let v := - rd mem ri in
      let c := rd mem 0 + 1 in
      merge_mem n' (wr (wr mem 0 c) c v) ri
  end.

(** [reassign_kmers], seen from the buffer: the cells of [bestTemplates] at
    return. *)
Definition reassign_kmers_buffer (T : HashMapKMA) (M : Minimizer)
    (bestTemplates Score template_lengths : list Z) (qseq_fw qseq_rc : CompDNA)
  : list Z :=
  let seqend := seqlen qseq_fw - kmersize T + 1 in
  (* *bestTemplates = 0; *bestTemplates_r = 0 *)
  let mem := wr (wr bestTemplates 0 0) (DB_size T) 0 in
  if negb (prefix_len T =? 0) then
    let '(B, Sc) := prefix_scan T M Score qseq_fw qseq_rc in
    fst (sweep_bucket (fun t => rd template_lengths (DB_size T + t)) mem 0 B Sc)
  else
    let ms := (0, 0, kmersize T) in
    let thr := fun t => rd template_lengths t - kmersize T + 1 in
    let '(ms, (B, Sc)) := plain_scan T M Score qseq_fw seqend ms in
    let '(mem, Sc) := sweep_bucket thr mem 0 B Sc in
    let mem :=
      if negb (prefix T =? 0) then mem
      else
        let '(_, (B, Sc)) := plain_scan T M Sc qseq_rc seqend ms in
        fst (sweep_bucket thr mem (DB_size T) B Sc) in
    (* merge matches *)
    merge_mem (Z.to_nat (rd mem (DB_size T))) mem (DB_size T).

End Scanner.

Import Scanner.

(** ** AssemblyMatrix and Consensus (assembly.h) *)

Module Assembly.

(** Modelled from the spec: the node of the assembly matrix, [counts[6]]
    (16-bit tallies for A, C, G, T, N and gap) and the index [next] of the
    successor column (assembly.h is not part of the sources). *)
Record Assembly : Type := mkAssembly {
  counts : list Z;
  next : Z
}.

(** Modelled from the spec: [AssemInfo], the arena [assmb] with its next
    free slot [len] and its capacity [size]. *)
Record AssemInfo : Type := mkAssemInfo {
  assmb : list Assembly;
  len : Z;
  size : Z
}.

(** Modelled from the spec: the consensus [Assem], three NUL-terminated byte
    streams and the aggregate statistics that the core reads or writes
    ([a_len] is the field [len], renamed apart from [AssemInfo]'s). *)
Record Assem : Type := mkAssem {
  t : list Z;
  s : list Z;
  q : list Z;
  a_len : Z;
  aln_len : Z;
  cover : Z;
  depth : Z;
  depthVar : Z;
  nucHighVar : Z;
  maxDepth : Z;
  snpSum : Z;
  insertSum : Z;
  deletionSum : Z;
  readCountAln : Z;
  fragmentCountAln : Z
}.

Definition node0 : Assembly := mkAssembly [0; 0; 0; 0; 0; 0] 0.

(** [assembly[i]]; a cell outside the arena reads as the zero node. *)
Definition node (a : list Assembly) (i : Z) : Assembly :=
  if i <? 0 then node0 else nth (Z.to_nat i) a node0.

Fixpoint upd_node (a : list Assembly) (i : nat) (v : Assembly) : list Assembly :=
  match a, i with
  | [], _ => []
  | _ :: a', O => v :: a'
  | x :: a', S i' => x :: upd_node a' i' v
  end.

(** [assembly[i] = v]; a store outside the arena is dropped. *)
Definition set_node (a : list Assembly) (i : Z) (v : Assembly) : list Assembly :=
  if i <? 0 then a else upd_node a (Z.to_nat i) v.

Definition set_next (a : list Assembly) (i : Z) (nx : Z) : list Assembly :=
  set_node a i (mkAssembly (counts (node a i)) nx).

(** [realloc] to [n] cells: the old cells are kept.  The content of a new
    cell is indeterminate in C until the code writes it; the zero node
    stands for it here, and the statements about the allocating routines
    say nothing of the content of a new cell. *)
Definition resize (a : list Assembly) (n : Z) : list Assembly :=
  firstn (Z.to_nat n) a ++ repeat node0 (Z.to_nat n - length a).

Definition count (nd : Assembly) (i : Z) : Z := rd (counts nd) i.

End Assembly.

Import Assembly.

(** ** MatrixRewriter (reassign.c, lines 632-814) *)

Module Rewriter.

Definition dash : Z := 45.   (* '-' *)
Definition bar : Z := 124.   (* '|' *)
Definition bases : list Z := [65; 67; 71; 84; 78; 45].   (* "ACGTN-" *)

(** The loop [while(--len)] of [reassign_matrix_bias]: [ni] and [ai] are the
    indices of [new_ptr] and [asm_ptr].  The loop is entered with the new
    length as trip count, so that it steps [asm_ptr] below the first node
    when the bias is positive: such a read, before the arena, has no defined
    result ([None]). *)
Fixpoint bias_loop (n : nat) (a : list Assembly) (ni ai bias : Z)
  : option (list Assembly) :=
  match n with
  | O => Some a
  | S n' =>
      let ni := ni - 1 in
      let ai := ai - 1 in
      if ai <? 0 then None
      else
        let a := set_node a ni (node a ai) in
        let a := set_next a ni (next (node a ni) + bias) in
        bias_loop n' a ni ai bias
  end.

(** [reassign_matrix_bias]: the matrix after the call and the returned
    bias. *)
Definition reassign_matrix_bias (matrix : AssemInfo) (bias : Z)
  : option (AssemInfo * Z) :=
  let realloc := size matrix <=? len matrix + bias in
  if negb realloc && (bias <=? 0) then Some (matrix, 0)
  else
    let sz := if realloc then len matrix + bias + 1 else size matrix in
    let a := if realloc then resize (assmb matrix) sz else assmb matrix in
    let ai := len matrix in
    let ni := ai + bias in
    let ln := len matrix + bias in
    match bias_loop (Z.to_nat ln) a ni ai bias with
    | None => None
    | Some a => Some (mkAssemInfo a ln sz, bias)
    end.

Definition reassign_matrix_insertions (matrix : AssemInfo) : AssemInfo * Z :=
  let realloc := size matrix =? len matrix in
  let sz := if realloc then size matrix + 1024 else size matrix in
  let a := if realloc then resize (assmb matrix) sz else assmb matrix in
  let insertions := len matrix in
  let a := set_next a insertions 0 in
  (mkAssemInfo a (len matrix + 1) sz, insertions).

(** "get to offset in matrix": [ci] is the common index of [t], [s] and [q]
    in their streams. *)
Fixpoint offset_loop (fuel : nat) (a : list Assembly) (qs : list Z)
    (offset ci pos : Z) : option (Z * Z) :=
  if offset =? 0 then Some (ci, pos)
  else
    match fuel with
    | O => None
    | S fuel' =>
        let offset := if negb (rd qs ci =? dash) then offset - 1 else offset in
        offset_loop fuel' a qs offset (ci + 1) (next (node a pos))
    end.

(** "get bias from insertions": the scan [while( *newt && aln_len)]. *)
Fixpoint bias_scan (n : nat) (ts qs : list Z) (ci bias : Z) : Z :=
  match n with
  | O => bias
  | S n' =>
      if rd ts ci =? 0 then bias
      else
        let bias :=
          if (rd ts ci =? dash) && negb (rd qs ci =? dash) then bias + 1 else bias in
        bias_scan n' ts qs (ci + 1) bias
  end.

(** The state of the loop "basecall from offset". [ci] indexes the source
    streams, [ai] is the index of [asm_ptr], [ni] that of [new_ptr]
    ([None] while it is the null pointer). *)
Record RState : Type := mkRState {
  r_matrix : AssemInfo;
  r_t : list Z;
  r_s : list Z;
  r_q : list Z;
  r_ci : Z;
  r_pos : Z;
  r_ai : Z;
  r_ni : option Z;
  r_new_pos : Z;
  r_insertions : Z;
  r_aln_len : Z;
  r_asm_len : Z;
  r_depth : Z;
  r_depthVar : Z
}.

Fixpoint offset_main (fuel : nat) (tseq : list Z) (t_len : Z) (st : RState)
  : option RState :=
  if negb (r_aln_len st =? t_len) then
    match fuel with
    | O => None
    | S fuel' =>
        let a := assmb (r_matrix st) in
        let ci := r_ci st in
        let step :=
          if negb (rd (r_q st) ci =? dash) then
            (* update depth *)
            let nd := node a (r_ai st) in
            let depthUpdate :=
              count nd 0 + count nd 1 + count nd 2 + count nd 3 + count nd 4 + count nd 5 in
            let depth := (r_depth st + depthUpdate) mod 2 ^ 64 in
            let depthVar := (r_depthVar st + depthUpdate * depthUpdate) mod 2 ^ 64 in
            (* update consensus; the write index is the current [aln_len] *)
            let aln := r_aln_len st in
            let ts := wr (r_t st) aln (rd bases (getNuc tseq aln)) in
            let ss := wr (r_s st) aln bar in
            let qs := wr (r_q st) aln (rd (r_q st) ci) in
            (* update next of previous node *)
            let a := match r_ni st with
                     | Some ni => set_next a ni aln
                     | None => a
                     end in
            (* update matrix with match *)
            let new_pos := aln in
            let ni := aln in
            let a := set_node a ni (node a (r_ai st)) in
            (* add org node to available insertions; [*t] is read after the
               store to [*newt], which is the same cell when no column has
               been dropped so far *)
            let '(a, insertions, ai) :=
              if rd ts ci =? dash
              then (set_next a (r_ai st) (r_insertions st), r_pos st, ni)
              else (a, r_insertions st, r_ai st) in
            Some (mkRState (mkAssemInfo a (len (r_matrix st)) (size (r_matrix st)))
                    ts ss qs ci (r_pos st) ai (Some ni) new_pos insertions
                    (aln + 1) (r_asm_len st) depth depthVar)
          else
            (* move node *)
            let '(mx, pos, ai, ni, insertions) :=
              if (r_pos st <? t_len) && negb (rd (r_t st) ci =? dash) then
                let '(mx, insertions, ai, ni) :=
                  if r_insertions st =? 0 then
                    let '(mx, ins) := reassign_matrix_insertions (r_matrix st) in
                    (mx, ins, r_pos st, Some (r_new_pos st))
                  else (r_matrix st, r_insertions st, r_ai st, r_ni st) in
                let a := assmb mx in
                let tmp := next (node a insertions) in
                let a := set_node a insertions (node a ai) in
                (mkAssemInfo a (len mx) (size mx), insertions, insertions, ni, tmp)
              else (r_matrix st, r_pos st, r_ai st, r_ni st, r_insertions st) in
            match ni with
            | None => None   (* new_ptr->next through the null pointer *)
            | Some n_i =>
                let a := set_next (assmb mx) n_i pos in
                Some (mkRState (mkAssemInfo a (len mx) (size mx))
                        (r_t st) (r_s st) (r_q st) ci pos ai (Some ai) pos insertions
                        (r_aln_len st) (r_asm_len st) (r_depth st) (r_depthVar st))
            end in
        match step with
        | None => None
        | Some st' =>
            (* advance *)
            let pos := next (node (assmb (r_matrix st')) (r_ai st')) in
            offset_main fuel' tseq t_len
              (mkRState (r_matrix st') (r_t st') (r_s st') (r_q st') (r_ci st' + 1)
                 pos pos (r_ni st') (r_new_pos st') (r_insertions st')
                 (r_aln_len st') (r_asm_len st' + 1) (r_depth st') (r_depthVar st'))
        end
    end
  else Some st.

(** [reassign_matrix_offset]: the matrix and the consensus after the call,
    and the head of the free list of reusable nodes at exit. *)
Definition reassign_matrix_offset (fuel : nat) (matrix : AssemInfo)
    (aligned_assem : Assem) (offset : Z) (tseq : list Z) (t_len : Z)
  : option (AssemInfo * Assem * Z) :=
  match offset_loop fuel (assmb matrix) (q aligned_assem) offset 0 0 with
  | None => None
  | Some (ci, pos) =>
      let bias :=
        bias_scan (Z.to_nat t_len) (t aligned_assem) (q aligned_assem) ci (- offset) in
      match reassign_matrix_bias matrix bias with
      | None => None
      | Some (matrix, bias) =>
          let pos := pos + bias in
          let st := mkRState matrix (t aligned_assem) (s aligned_assem) (q aligned_assem)
                      ci pos pos None 0 0 0 0 0 0 in
          match offset_main fuel tseq t_len st with
          | None => None
          | Some st =>
              match r_ni st with
              | None => None   (* new_ptr->next = 0 through the null pointer *)
              | Some ni =>
                  let aln := r_aln_len st in
                  let a := set_next (assmb (r_matrix st)) ni 0 in
                  let mx := mkAssemInfo a (r_asm_len st) (size (r_matrix st)) in
                  let am :=
                    mkAssem (wr (r_t st) aln 0) (wr (r_s st) aln 0) (wr (r_q st) aln 0)
                      aln aln t_len (r_depth st) (r_depthVar st)
                      (nucHighVar aligned_assem) (maxDepth aligned_assem)
                      (snpSum aligned_assem) (insertSum aligned_assem)
                      (deletionSum aligned_assem) (readCountAln aligned_assem)
                      (fragmentCountAln aligned_assem) in
                  Some (mx, am, r_insertions st)
              end
          end
      end
  end.

(** The columns met when following [next] from index [i] until a node whose
    successor is the head [0]. *)
Fixpoint chain (fuel : nat) (a : list Assembly) (i : Z) : option (list Z) :=
  match fuel with
  | O => None
  | S fuel' =>
      let nx := next (node a i) in
      if nx =? 0 then Some [i]
      else match chain fuel' a nx with
           | None => None
           | Some l => Some (i :: l)
           end
  end.

End Rewriter.

Import Rewriter.

(** ** ExtendedStats (ef.c, lines 48-137), one worker *)

Module Stats.

(** The locals that a worker accumulates. *)
Record Local : Type := mkLocal {
  l_nucHighVar : Z;
  l_maxDepth : Z;
  l_snpSum : Z;
  l_insertSum : Z;
  l_deletionSum : Z
}.

Definition wrap32 (x : Z) : Z := x mod 2 ^ 32.
Definition wrap64 (x : Z) : Z := x mod 2 ^ 64.
Definition sint32 (x : Z) : Z :=
  let y := x mod 2 ^ 32 in if y <? 2 ^ 31 then y else y - 2 ^ 32.

(** The walk [while(pos != end)] over one chunk.  [above d] stands for the
    floating-point test [highVar < depthUpdate]. *)
Fixpoint chunk_walk (fuel : nat) (assembly : list Assembly) (sq : list Z)
    (above : Z -> bool) (t_len pos end_ : Z) (l : Local) : option Local :=
  if negb (pos =? end_) then
    match fuel with
    | O => None
    | S fuel' =>
        let nd := node assembly pos in
        let depthUpdate :=
          wrap32 (count nd 0 + count nd 1 + count nd 2 + count nd 3 + count nd 4) in
        let l :=
          if pos <? wrap32 t_len then
            mkLocal (l_nucHighVar l) (l_maxDepth l)
              (wrap64 (l_snpSum l + wrap32 (depthUpdate - count nd (getNuc sq pos))))
              (l_insertSum l)
              (wrap64 (l_deletionSum l + count nd 5))
          else
            mkLocal (l_nucHighVar l) (l_maxDepth l) (l_snpSum l)
              (wrap64 (l_insertSum l + depthUpdate)) (l_deletionSum l) in
        let depthUpdate := wrap32 (depthUpdate + count nd 5) in
        let l :=
          if l_maxDepth l <? depthUpdate
          then mkLocal (l_nucHighVar l) depthUpdate (l_snpSum l) (l_insertSum l)
                 (l_deletionSum l)
          else l in
        let l :=
          if above depthUpdate
          then mkLocal (wrap32 (l_nucHighVar l + 1)) (l_maxDepth l) (l_snpSum l)
                 (l_insertSum l) (l_deletionSum l)
          else l in
        let pos := next nd in
        let pos := if pos =? 0 then end_ else pos in
        chunk_walk fuel' assembly sq above t_len pos end_ l
    end
  else Some l.

(** The loop [while(chunk)]; [nxt] is the shared counter [next]. *)
Fixpoint chunk_loop (fuel : nat) (assembly : list Assembly) (sq : list Z)
    (above : Z -> bool) (t_len nxt chunk : Z) (l : Local) : option Local :=
  if negb (chunk =? 0) then
    match fuel with
    | O => None
    | S fuel' =>
        let pos := wrap32 nxt in
        let nxt := sint32 (nxt + chunk) in
        let nxt := if nxt <? 0 then t_len else nxt in
        if pos <? wrap32 t_len then
          let end_ := wrap32 (pos + chunk) in
          let '(end_, chunk) :=
            if wrap32 t_len <=? end_ then (wrap32 (t_len - 1), 0) else (end_, chunk) in
          match chunk_walk fuel assembly sq above t_len pos end_ l with
          | None => None
          | Some l => chunk_loop fuel' assembly sq above t_len nxt chunk l
          end
        else chunk_loop fuel' assembly sq above t_len nxt 0 l
    end
  else Some l.

(** [getExtendedFeatures] entered by a single worker while no other call is
    in progress ([thread_wait] is zero at entry).  [fixVarOverflow] is not
    part of the sources: [fix_var] is its effect on the consensus record and
    [above] the comparison against [highVar] that it prepares. *)
Definition getExtendedFeatures (fuel : nat) (fix_var : Assem -> Assem)
    (above : Assem -> Z -> bool) (aligned_assem : Assem) (matrix : AssemInfo)
    (sq : list Z) (t_len : Z) : option Assem :=
  let am := aligned_assem in
  let half := Z.shiftr (readCountAln am) 1 + Z.land (readCountAln am) 1 in
  let am := mkAssem (t am) (s am) (q am) (a_len am) (aln_len am) (cover am)
              (depth am) (depthVar am) 0 0 0 0 0 (readCountAln am)
              (if half <=? fragmentCountAln am then fragmentCountAln am else half) in
  let am := fix_var am in
  match chunk_loop fuel (assmb matrix) sq (above am) t_len 0 8112
          (mkLocal 0 0 0 0 0) with
  | None => None
  | Some l =>
      Some (mkAssem (t am) (s am) (q am) (a_len am) (aln_len am) (cover am)
              (depth am) (depthVar am)
              (wrap32 (nucHighVar am + l_nucHighVar l))
              (if maxDepth am <? l_maxDepth l then l_maxDepth l else maxDepth am)
              (wrap64 (snpSum am + l_snpSum l))
              (wrap64 (insertSum am + l_insertSum l))
              (wrap64 (deletionSum am + l_deletionSum l))
              (readCountAln am) (fragmentCountAln am))
  end.

End Stats.

Import Stats.

(** ** The orchestrator [reassign_template] (reassign.c, lines 35-208) *)

Module Template.

(** Modelled from the spec: [Qseqs], a byte buffer with its length and its
    capacity (qseqs.h is not part of the sources). *)
Record Qseqs : Type := mkQseqs {
  qs_seq : list Z;
  qs_len : Z;
  qs_size : Z
}.

(** The loop [while(--len)] of [consensus2qseq] over the source bytes: the
    nibbles that are kept, in order. *)
Fixpoint consensus2qseq_loop (n : nat) (src : list Z) (i : Z) (trans : Z -> Z) : list Z :=
  match n with
  | O => []
  | S n' =>
      let nibble := trans (rd src i) in
      if nibble <=? 4 then nibble :: consensus2qseq_loop n' src (i + 1) trans
      else consensus2qseq_loop n' src (i + 1) trans
  end.

(** [consensus2qseq]: the destination after the call and the returned
    count.  The bytes of [dest] behind the written prefix keep their old
    value. *)
Definition consensus2qseq (src : list Z) (len : Z) (dest : Qseqs) (trans : Z -> Z)
  : Qseqs * Z :=
  let sz := if qs_size dest <? len then len + 1 else qs_size dest in
  let written := consensus2qseq_loop (Z.to_nat len) src 0 trans in
  let n := Z.of_nat (length written) in
  (mkQseqs (written ++ skipn (length written) (qs_seq dest)) n sz, n).

(** The routines of other compilation units that [reassign_template] calls:
    the table [base2nibble_table], [compDNA] and [rc_comp] (compdna.h), the
    minimizer routines, the content of the sequence file ([seq_file offset
    n] are the [n] words stored at byte offset [offset]), [assem_rc] and
    [assemble_rc] (assembly.h), [fixVarOverflow] with the comparison that it
    prepares, and [nameLoad] (qseqs.h) at a template's name. *)
Record Externals : Type := mkExternals {
  to2Bit : Z -> Z;
  compDNA : list Z -> Z -> CompDNA;
  rc_comp : CompDNA -> CompDNA;
  minimizer : Minimizer;
  seq_file : Z -> Z -> list Z;
  assem_rc : Assem -> Assem;
  assemble_rc : AssemInfo -> Assem -> AssemInfo;
  fixVarOverflow : Assem -> Assem;
  highVar_lt : Assem -> Z -> bool;
  nameLoad : Z -> Qseqs -> Qseqs
}.

(** "make file indexes": [seq_indexes[1] = 0] and
    [seq_indexes[i] = seq_indexes[i - 1] + ((template_lengths[i - 1] >> 5) + 1) * 8]
    (slot 0 keeps the file descriptor and stands for no template). *)
Fixpoint seq_index (template_lengths : list Z) (i : nat) : Z :=
  match i with
  | O => 0
  | S O => 0
  | S i' =>
      seq_index template_lengths i'
      + (Z.shiftr (rd template_lengths (Z.of_nat i')) 5 + 1) * 8
  end.

(** [reassign_loadseq] on a readable file. *)
Definition reassign_loadseq (E : Externals) (len offset : Z) : CompDNA :=
  mkCompDNA len (seq_file E offset (Z.shiftr len 5 + 1)) [].

(** What a call reads and writes: the caller's consensus, matrix, name
    buffer and candidate sequence, and the static scratch of the core, the
    [Score] array and the buffer [bestTemplates] of [(DB_size + 1) << 1]
    cells, which keeps between two calls whatever the last one left in
    it. *)
Record State : Type := mkState {
  st_assem : Assem;
  st_matrix : AssemInfo;
  st_qseq : Qseqs;
  st_tseq : CompDNA;
  st_Score : list Z;
  st_bests : list Z
}.

(** The body of the loop "Go over candidates": the candidate's sequence is
    loaded and matched with the consensus on the strands that the index
    calls for. *)
Definition candidate_match (mf : nat) (T : HashMapKMA) (E : Externals)
    (template_lengths : list Z) (qseq_comp qseq_rc_comp : CompDNA) (template : Z)
  : CompDNA * option Z :=
  (* load seq of candidate *)
  let tseq :=
    reassign_loadseq E (rd template_lengths (NORM template))
      (seq_index template_lengths (Z.to_nat (NORM template))) in
  (* match candidate with consensus *)
  let m :=
    if negb (prefix T =? 0) || negb (prefix_len T =? 0) then
      (* check both strands *)
      match reassign_matchseqs mf qseq_comp tseq with
      | Some m => if m <? 0 then reassign_matchseqs mf qseq_rc_comp tseq else Some m
      | None => None
      end
    else if 0 <? template then reassign_matchseqs mf qseq_comp tseq
    else reassign_matchseqs mf qseq_rc_comp tseq in
  (tseq, m).

(** "Go over candidates": the loop
    [while(match < 0 && (template = reassign_popheap(...)))]. *)
Fixpoint candidates_loop (fuel : nat) (hf mf : nat) (T : HashMapKMA) (E : Externals)
    (template_lengths : list Z) (qseq_comp qseq_rc_comp : CompDNA)
    (mem : list Z) (tseq : CompDNA) (template match_ : Z)
  : option (list Z * CompDNA * Z * Z) :=
  if match_ <? 0 then
    match fuel with
    | O => None
    | S fuel' =>
        match reassign_popheap hf mem 0 template_lengths with
        | None => None
        | Some (mem, template) =>
            if template =? 0 then Some (mem, tseq, template, match_)
            else
              match candidate_match mf T E template_lengths qseq_comp qseq_rc_comp
                      template with
              | (_, None) => None
              | (tseq, Some m) =>
                  candidates_loop fuel' hf mf T E template_lengths qseq_comp
                    qseq_rc_comp mem tseq template m
              end
        end
    end
  else Some (mem, tseq, template, match_).

(** [reassign_template] after its first call (the static scratch is
    allocated and the index is loaded): the state after the call and the
    returned template id.  [fuel] bounds every loop that the code leaves
    unbounded.  The one call of [reassign_kmers] is read twice, for the
    [Score] array that it returns and for the cells that it leaves in
    [bestTemplates]; the heap works on these cells. *)
Definition reassign_template (fuel : nat) (T : HashMapKMA) (E : Externals)
    (template_lengths : list Z) (st : State) : option (State * Z) :=
  (* Convert consensus to qseq *)
  let '(qseq, _) :=
    consensus2qseq (q (st_assem st)) (a_len (st_assem st)) (st_qseq st) (to2Bit E) in
  let qseq_comp := compDNA E (qs_seq qseq) (qs_len qseq) in
  let qseq_rc_comp := rc_comp E qseq_comp in
  (* Find potential reassignment candidates *)
  let '(_, Score) :=
    reassign_kmers T (minimizer E) (st_Score st) template_lengths qseq_comp qseq_rc_comp in
  let mem :=
    reassign_kmers_buffer T (minimizer E) (st_bests st) (st_Score st) template_lengths
      qseq_comp qseq_rc_comp in
  (* candidates in order of declining lengths *)
  match reassign_buildheap fuel mem 0 template_lengths with
  | None => None
  | Some (mem, _) =>
      match candidates_loop fuel fuel fuel T E template_lengths qseq_comp qseq_rc_comp
              mem (st_tseq st) 0 (-1) with
      | None => None
      | Some (mem, tseq, template, match_) =>
          if template =? 0 then
            (* no matches found *)
            Some (mkState (st_assem st) (st_matrix st) qseq tseq Score mem, 0)
          else
            let '(assem, matrix, template) :=
              if template <? 0 then
                let a := assem_rc E (st_assem st) in
                (a, assemble_rc E (st_matrix st) a, - template)
              else (st_assem st, st_matrix st, template) in
            match reassign_matrix_offset fuel matrix assem match_ (seq tseq)
                    (rd template_lengths template) with
            | None => None
            | Some (matrix, assem, _) =>
                match getExtendedFeatures fuel (fixVarOverflow E) (highVar_lt E)
                        assem matrix (seq tseq) (rd template_lengths template) with
                | None => None
                | Some assem =>
                    Some (mkState assem matrix (nameLoad E template qseq) tseq Score mem,
                          template)
                end
            end
      end
  end.

End Template.

Import Template.

(** ** ConsensusPrinter (printconsensus.c, lines 24-87) *)

Module Printer.

(** The loop [while(--i)] of "Trim alignment on consensus": [ri] is the
    index of the read pointers [t_next], [s_next] and [q_next], [wi] the
    index of the cell that the next [*++t], [*++s] and [*++q] fill, and
    [ln] the field [len] that the loop decrements. *)
Fixpoint trim_loop (n : nat) (ts ss qs : list Z) (ri wi ln : Z)
  : list Z * list Z * list Z * Z * Z :=
  match n with
  | O => (ts, ss, qs, wi, ln)
  | S n' =>
      if (rd ts ri =? dash) && (rd qs ri =? dash)
      then trim_loop n' ts ss qs (ri + 1) wi (ln - 1)
      else trim_loop n' (wr ts wi (rd ts ri)) (wr ss wi (rd ss ri))
             (wr qs wi (rd qs ri)) (ri + 1) (wi + 1) ln
  end.

(** "Trim alignment on consensus": the loop runs once for each of the
    [len] columns, and the three streams are closed with a NUL. *)
Definition trim_alignment (aligned_assem : Assem) : Assem :=
  let am := aligned_assem in
  let '(ts, ss, qs, wi, ln) :=
    trim_loop (Z.to_nat (a_len am)) (t am) (s am) (q am) 0 0 (a_len am) in
  mkAssem (wr ts wi 0) (wr ss wi 0) (wr qs wi 0) ln (aln_len am) (cover am)
    (depth am) (depthVar am) (nucHighVar am) (maxDepth am) (snpSum am)
    (insertSum am) (deletionSum am) (readCountAln am) (fragmentCountAln am).

(** The conversion [%.60s] (here with precision [n]) of the string that
    starts at index [i]: at most [n] bytes, up to the terminating NUL. *)
Fixpoint str_prefix (n : nat) (str : list Z) (i : Z) : list Z :=
  match n with
  | O => []
  | S n' =>
      let c := rd str i in
      if c =? 0 then [] else c :: str_prefix n' str (i + 1)
  end.

(** The conversion [%-10s]: the label, left-justified in ten columns. *)
Definition pad10 (label : list Z) : list Z :=
  label ++ repeat 32 (10 - length label).

Definition label_template : list Z := [116; 101; 109; 112; 108; 97; 116; 101; 58].
Definition label_query : list Z := [113; 117; 101; 114; 121; 58].

(** The loops [for(i = 0; i < aln_len; i += 60)]: [n] is the number of
    iterations left, [line i] the lines that one iteration prints. *)
Fixpoint blocks (n : nat) (i : Z) (line : Z -> list (list Z)) : list (list Z) :=
  match n with
  | O => []
  | S n' => line i ++ blocks n' (i + 60) line
  end.

(** The number of iterations of [for(i = 0; i < aln_len; i += 60)]. *)
Definition block_count (alen : Z) : nat := Z.to_nat ((alen + 59) / 60).

(** The lines of one block of the alignment (without their newline); the
    third [fprintf] ends with two newlines, which leaves an empty line. *)
Definition alignment_block (am : Assem) (i : Z) : list (list Z) :=
  [pad10 label_template ++ [9] ++ str_prefix 60 (t am) i;
   pad10 [] ++ [9] ++ str_prefix 60 (s am) i;
   pad10 label_query ++ [9] ++ str_prefix 60 (q am) i;
   []].

(** The loop of [ref_fsa == 0]:
    [q[bias] = q[i]; if(q[i] == '-') --bias;] followed by [++i, ++bias]. *)
Fixpoint ungap_loop (n : nat) (qs : list Z) (i bias : Z) : list Z * Z :=
  match n with
  | O => (qs, bias)
  | S n' =>
      let qs := wr qs bias (rd qs i) in
      let bias := if rd qs i =? dash then bias - 1 else bias in
      ungap_loop n' qs (i + 1) (bias + 1)
  end.

(** The loop of [ref_fsa == 1]: every gap becomes an [n]. *)
Fixpoint mask_loop (n : nat) (qs : list Z) (i : Z) : list Z :=
  match n with
  | O => qs
  | S n' =>
      let qs := if rd qs i =? dash then wr qs i 110 else qs in
      mask_loop n' qs (i + 1)
  end.

(** "Prepare consensus": the query stream and the length that is printed. *)
Definition prepare_consensus (qs : list Z) (alen ref_fsa : Z) : list Z * Z :=
  if ref_fsa =? 0 then
    let '(qs, bias) := ungap_loop (Z.to_nat alen) qs 0 0 in
    (wr qs bias 0, bias)
  else if ref_fsa =? 1 then (mask_loop (Z.to_nat alen) qs 0, alen)
  else (qs, alen).

(** [printConsensus]: the consensus record after the call, the lines
    written to [alignment_out] ([None] when it is the null pointer) and the
    lines written to [consensus_out].  [header] is the header string
    without its NUL. *)
Definition printConsensus (aligned_assem : Assem) (header : list Z)
    (alignment_out : bool) (ref_fsa : Z)
  : Assem * option (list (list Z)) * list (list Z) :=
  (* Trim alignment on consensus *)
  let am := trim_alignment aligned_assem in
  (* print alignment; [alen] is the local [aln_len] *)
  let alen := a_len am in
  let aln :=
    if alignment_out
    then Some (([35; 32] ++ header)
               :: blocks (block_count alen) 0 (alignment_block am))
    else None in
  (* Prepare consensus *)
  let '(qs, alen) := prepare_consensus (q am) alen ref_fsa in
  (* Print consensus *)
  let fsa :=
    ([62] ++ header) :: blocks (block_count alen) 0 (fun i => [str_prefix 60 qs i]) in
  (mkAssem (t am) (s am) qs (a_len am) (aln_len am) (cover am)
     (depth am) (depthVar am) (nucHighVar am) (maxDepth am) (snpSum am)
     (insertSum am) (deletionSum am) (readCountAln am) (fragmentCountAln am),
   aln, fsa).

End Printer.

Import Printer.

(** ** Reference definitions used by the statements *)

Module Reference.

(** Every template id stored in a value vector indexes the [Score] array of
    [n] cells. *)
Definition ids_in_range (T : HashMapKMA) (n : nat) : Prop :=
  forall p t, In t (values T p) -> 0 <= t < Z.of_nat n.

(** The entries of a bucket whose score reaches the threshold. *)
Definition survivors (thr : Z -> Z) (BS : list Z * list Z) : list Z :=
  filter (fun t => thr t <=? rd (snd BS) t) (fst BS).

(** The scanner without the [(last, reps)] compression, as the specification
    describes it: every successful lookup is flushed at once with weight 1,
    and nothing is pending at the end of a pass. *)
Definition flush_hit (T : HashMapKMA) (vals : Z) (SB : list Z * list Z)
  : list Z * list Z :=
  flush (values T vals) 1 SB.

Definition prefix_scan_noreps (T : HashMapKMA) (M : Minimizer) (Score : list Z)
    (qseq_fw qseq_rc : CompDNA) : list Z * list Z :=
  let ms := (0, 0, kmersize T) in
  let '(ms, (Sc, B)) := prefix_pass T M (flush_hit T) qseq_fw ms (Score, []) in
  let '(ms, (Sc, B)) := prefix_pass T M (flush_hit T) qseq_rc ms (Sc, B) in
  (B, Sc).

Definition plain_scan_noreps (T : HashMapKMA) (M : Minimizer) (Score : list Z)
    (qseq : CompDNA) (seqend : Z) (ms : MState) : MState * (list Z * list Z) :=
  let '(ms, (Sc, B)) := plain_pass T M (flush_hit T) qseq seqend ms (Score, []) in
  (ms, (B, Sc)).

Definition reassign_kmers_noreps (T : HashMapKMA) (M : Minimizer) (Score : list Z)
    (template_lengths : list Z) (qseq_fw qseq_rc : CompDNA) : list Z * list Z :=
  let seqend := seqlen qseq_fw - kmersize T + 1 in
  if negb (prefix_len T =? 0) then
    let '(B, Sc) := prefix_scan_noreps T M Score qseq_fw qseq_rc in
    sweep (fun t => rd template_lengths (DB_size T + t)) B Sc []
  else
    let ms := (0, 0, kmersize T) in
    let thr := fun t => rd template_lengths t - kmersize T + 1 in
    let '(ms, (B, Sc)) := plain_scan_noreps T M Score qseq_fw seqend ms in
    let '(B_fw, Sc) := sweep thr B Sc [] in
    if negb (prefix T =? 0) then (B_fw, Sc)
    else
      let '(_, (B, Sc)) := plain_scan_noreps T M Sc qseq_rc seqend ms in
      let '(B_rc, Sc) := sweep thr B Sc [] in
      (B_fw ++ map Z.opp B_rc, Sc).

(** No cell of the [Score] array is negative. *)
Definition nonneg (Sc : list Z) : Prop := Forall (fun x => 0 <= x) Sc.

(** A plain increment of one score, without the candidate test. *)
Definition add1 (t : Z) (SB : list Z * list Z) : list Z * list Z :=
  (wr (fst SB) t (rd (fst SB) t + 1), snd SB).

(** What the compressed scanner still owes to the scratch: the pending run
    [(last, reps)] flushed. *)
Definition pending (T : HashMapKMA) (a : Acc) : list Z * list Z :=
  if negb (last a =? 0)
  then flush (values T (last a)) (reps a) (Scores a, bests a)
  else (Scores a, bests a).

(** The compressed accumulator [a] and the uncompressed scratch [SB] agree
    up to the pending run. *)
Definition agree (T : HashMapKMA) (n : nat) (a : Acc) (SB : list Z * list Z) : Prop :=
  SB = pending T a /\ nonneg (Scores a) /\ length (Scores a) = n /\
  (last a <> 0 -> 1 <= reps a).

(** The scratch invariant: the bucket lists, once each, exactly the
    templates with a positive score. *)
Definition good (n : nat) (SB : list Z * list Z) : Prop :=
  length (fst SB) = n /\ nonneg (fst SB) /\ NoDup (snd SB) /\
  forall t, In t (snd SB) <-> 0 < rd (fst SB) t.

Definition good_acc (n : nat) (a : Acc) : Prop :=
  good n (Scores a, bests a) /\ (last a <> 0 -> 1 <= reps a).

(** The threshold that the sweep applies to template [t]: in prefix mode
    the length table is first advanced by [DB_size]. *)
Definition threshold (T : HashMapKMA) (template_lengths : list Z) (t : Z) : Z :=
  if negb (prefix_len T =? 0) then rd template_lengths (DB_size T + t)
  else rd template_lengths t - kmersize T + 1.

(** Bit [n] of the packed stream, counted from the most significant bit of
    the first word. *)
Definition sbit (W : list Z) (n : Z) : bool :=
  Z.testbit (word W (n / 64)) (63 - n mod 64).

(** Every word of the array is a 64-bit value. *)
Definition wf_words (W : list Z) : Prop := Forall (fun w => 0 <= w < 2 ^ 64) W.

(** The candidate [q] equals the bases of [c] at the offsets
    [m .. m + seqlen q - 1]. *)
Definition occurs_at (c q : CompDNA) (m : Z) : Prop :=
  forall i, 0 <= i < seqlen q -> getNuc (seq c) (m + i) = getNuc (seq q) i.

(** The bits behind the last base are zero. *)
Definition padded (q : CompDNA) : Prop :=
  forall i, seqlen q <= i -> getNuc (seq q) i = 0.

(** No ambiguous position of [c] in [[a, b)]. *)
Definition N_free (c : CompDNA) (a b : Z) : Prop :=
  forall p, In p (N c) -> ~ (a <= p < b).

(** Some ambiguous position of [c] strictly inside [(a, b)]. *)
Definition N_inside (c : CompDNA) (a b : Z) : Prop :=
  exists p, In p (N c) /\ a < p < b.

(** Decision procedures for the hypotheses on concrete sequences. *)
Definition zrange (n : Z) : list Z := map Z.of_nat (List.seq 0 (Z.to_nat n)).

Definition occurs_atb (c q : CompDNA) (m : Z) : bool :=
  forallb (fun i => getNuc (seq c) (m + i) =? getNuc (seq q) i) (zrange (seqlen q)).

Definition N_insideb (c : CompDNA) (a b : Z) : bool :=
  existsb (fun p => (a <? p) && (p <? b)) (N c).

Definition N_freeb (c : CompDNA) (a b : Z) : bool :=
  forallb (fun p => negb ((a <=? p) && (p <? b))) (N c).

Definition wf_wordsb (W : list Z) : bool :=
  forallb (fun w => (0 <=? w) && (w <? 2 ^ 64)) W.

Definition paddedb (q : CompDNA) : bool :=
  forallb (fun i => getNuc (seq q) (seqlen q + i) =? 0)
    (zrange (32 * Z.of_nat (length (seq q)) - seqlen q)).

(** Every occurrence of [q] in [c] at an offset below [k] has an ambiguous
    position strictly inside. *)
Definition blockedb (c q : CompDNA) (k : Z) : bool :=
  forallb (fun m => negb (occurs_atb c q m) || N_insideb c m (m + seqlen q)) (zrange k).

(** Every cell of the candidate buffer behind the count is zero or one of
    the candidates [B]. *)
Definition cells_ok (B : list Z) (mem : list Z) : Prop :=
  forall i, 1 <= i -> rd mem i = 0 \/ In (rd mem i) B.

(** The packed consensus of a call of [reassign_template], forward and
    reverse complement, and the candidates that the scanner finds for it. *)
Definition packed_consensus (E : Externals) (st : State) : CompDNA * CompDNA :=
  let qseq :=
    fst (consensus2qseq (q (st_assem st)) (a_len (st_assem st)) (st_qseq st) (to2Bit E)) in
  let qseq_comp := compDNA E (qs_seq qseq) (qs_len qseq) in
  (qseq_comp, rc_comp E qseq_comp).

Definition candidates (T : HashMapKMA) (E : Externals) (template_lengths : list Z)
    (st : State) : list Z :=
  fst (reassign_kmers T (minimizer E) (st_Score st) template_lengths
         (fst (packed_consensus E st)) (snd (packed_consensus E st))).

(** The cells of [bestTemplates] on which the heap of a call of
    [reassign_template] works. *)
Definition candidate_buffer (T : HashMapKMA) (E : Externals) (template_lengths : list Z)
    (st : State) : list Z :=
  reassign_kmers_buffer T (minimizer E) (st_bests st) (st_Score st) template_lengths
    (fst (packed_consensus E st)) (snd (packed_consensus E st)).

(** The ids that successive calls of [reassign_popheap] return, up to the
    first call that returns 0. *)
Fixpoint drain (fuel hf : nat) (mem lengths : list Z) : option (list Z) :=
  match fuel with
  | O => None
  | S fuel' =>
      match reassign_popheap hf mem 0 lengths with
      | None => None
      | Some (mem, t) =>
          if t =? 0 then Some []
          else match drain fuel' hf mem lengths with
               | None => None
               | Some l => Some (t :: l)
               end
      end
  end.

(** The candidates popped from the heap of a call of [reassign_template]
    that rejects every one of them. *)
Definition popped (fuel : nat) (T : HashMapKMA) (E : Externals)
    (template_lengths : list Z) (st : State) : list Z :=
  match reassign_buildheap fuel (candidate_buffer T E template_lengths st) 0
          template_lengths with
  | None => []
  | Some (mem, _) =>
      match drain fuel fuel mem template_lengths with
      | None => []
      | Some l => l
      end
  end.

(** The treatment of a lookup that keeps nothing, for invariants of a single
    scanner. *)
Definition no_hit (_ : Z) (u : unit) : unit := u.

(** The positions are in ascending order. *)
Fixpoint ascendingb (l : list Z) : bool :=
  match l with
  | [] => true
  | x :: l' => forallb (fun y => x <=? y) l' && ascendingb l'
  end.

(** The sums that the statistics are meant to publish: over every template
    position [p] in [[0, t_len)], the gap votes [counts[5]] and the
    mismatches [d - counts[getNuc(tseq, p)]], where [d] is the sum of
    [counts[0..4]]. *)
Definition position_sums (assembly : list Assembly) (sq : list Z) (t_len : Z) : Z * Z :=
  fold_left
    (fun acc p =>
       let nd := node assembly p in
       let d := count nd 0 + count nd 1 + count nd 2 + count nd 3 + count nd 4 in
       (fst acc + count nd 5, snd acc + (d - count nd (getNuc sq p))))
    (zrange t_len) (0, 0).

(** A column after the shift by [bias]: the same tallies, the link moved
    by [bias]. *)
Definition shifted (bias : Z) (nd : Assembly) : Assembly :=
  mkAssembly (counts nd) (next nd + bias).

(** The rewritten streams up to the write index: the template stream
    spells the new template, the match stream is all bars, the query
    stream has no gap; [nt], [ns] and [nq] are the sizes of the streams. *)
Definition spelled (tseq : list Z) (t_len : Z) (nt ns nq : nat) (st : RState) : Prop :=
  0 <= r_aln_len st <= t_len /\
  length (r_t st) = nt /\ length (r_s st) = ns /\ length (r_q st) = nq /\
  forall i, 0 <= i < r_aln_len st ->
    rd (r_t st) i = rd bases (getNuc tseq i) /\ rd (r_s st) i = bar /\
    rd (r_q st) i <> dash.

(** The score of the id [z] is still zero in a good accumulator. *)
Definition untouched (n : nat) (z : Z) (a : Acc) (_ : unit) : Prop :=
  good_acc n a /\ rd (Scores a) z = 0.

(** The id [x], held in the cells [B], was placed by the matcher at the
    offset [m]. *)
Definition accepted (T : HashMapKMA) (E : Externals) (TL B : list Z)
    (qc qrc : CompDNA) (mf : nat) (x m : Z) : Prop :=
  x <> 0 /\ In x B /\ 0 <= m /\ snd (candidate_match mf T E TL qc qrc x) = Some m.

(** The positions [a, a + 1, ..., a + k - 1]. *)
Definition span (a : Z) (k : nat) : list Z :=
  map (fun i => a + Z.of_nat i) (List.seq 0 k).

(** The column [i] of an alignment is a gap in the template and in the
    query. *)
Definition both_gap (ts qs : list Z) (i : Z) : bool :=
  (rd ts i =? dash) && (rd qs i =? dash).

(** The columns among [a .. a + k - 1] that are not a gap in both. *)
Definition kept_columns (ts qs : list Z) (a : Z) (k : nat) : list Z :=
  filter (fun i => negb (both_gap ts qs i)) (span a k).

(** The bytes of a stream at the positions [a .. a + k - 1]. *)
Definition bytes (str : list Z) (a : Z) (k : nat) : list Z :=
  map (rd str) (span a k).

(** A byte of the query that is not a gap. *)
Definition is_base (c : Z) : bool := negb (c =? dash).

(** The column reached from [pos] after [k] links. *)
Fixpoint follow (a : list Assembly) (k : nat) (pos : Z) : Z :=
  match k with
  | O => pos
  | S k' => follow a k' (next (node a pos))
  end.

(** The column [i] is an insertion: a gap in the template, a base in the
    query. *)
Definition insertion (ts qs : list Z) (i : Z) : bool :=
  (rd ts i =? dash) && negb (rd qs i =? dash).

(** The stream has no gap in its first [n] columns. *)
Definition gap_free (str : list Z) (n : Z) : Prop :=
  forall i, 0 <= i < n -> rd str i <> dash.

(** The first [n] columns of the matrix are linked in order. *)
Definition linear (a : list Assembly) (n : Z) : Prop :=
  forall i, 0 <= i < n -> next (node a i) = i + 1.

(** The state of the loop "basecall from offset" after [k] columns of a
    consensus without gaps, over the matrix [a] and the streams [t0] and
    [q0]: the columns [offset .. offset + k - 1] have been moved to
    [0 .. k - 1] and linked in order, and nothing else has been touched. *)
Definition anchored (a : list Assembly) (t0 q0 : list Z) (offset t_len k : Z)
    (st : RState) : Prop :=
  r_aln_len st = k /\ r_ci st = offset + k /\ r_asm_len st = k /\
  r_insertions st = 0 /\
  (k < t_len -> r_ai st = offset + k) /\
  r_ni st = (if k =? 0 then None else Some (k - 1)) /\
  length (assmb (r_matrix st)) = length a /\
  length (r_t st) = length t0 /\ length (r_q st) = length q0 /\
  (forall i, k <= i -> node (assmb (r_matrix st)) i = node a i) /\
  (forall i, 0 <= i < k ->
     counts (node (assmb (r_matrix st)) i) = counts (node a (i + offset)) /\
     (i < k - 1 -> next (node (assmb (r_matrix st)) i) = i + 1)) /\
  (forall j, k <= j -> rd (r_t st) j = rd t0 j /\ rd (r_q st) j = rd q0 j) /\
  (forall j, 0 <= j < k -> rd (r_q st) j = rd q0 (j + offset)).

End Reference.

Import Reference.

(** ** Test vectors *)

Module Vectors.

(** Packs at most 32 two-bit bases into one word, first base in the two most
    significant bits. *)
Definition pack (bs : list Z) : Z :=
  Z.shiftl (fold_left (fun acc b => acc * 4 + b) bs 0) (64 - 2 * Z.of_nat (length bs)).

Definition A_ : Z := 0.
Definition C_ : Z := 1.
Definition G_ : Z := 2.
Definition T_ : Z := 3.

(** A prefix-anchored index over one template (id 1): prefix [CG] of length
    2, 3-mers, the 3-mer [ACG] is the only key. *)
Definition idx_prefix : HashMapKMA :=
  mkHashMapKMA 2 3 6 2 0 0
    (fun cmer => if cmer =? 6 then 100 else 0)
    (fun p => if p =? 100 then [1] else []).

(** A plain index over one template (id 1): 3-mers, no prefix, the 3-mers
    [ACG] and [CGA] share one value vector. *)
Definition idx_plain : HashMapKMA :=
  mkHashMapKMA 2 3 0 0 0 0
    (fun cmer => if (cmer =? 6) || (cmer =? 24) then 100 else 0)
    (fun p => if p =? 100 then [1] else []).

(** Minimizers are switched off in both ([flag = 0]). *)
Definition no_minimizer : Minimizer :=
  mkMinimizer (fun k ms _ _ _ => (k, ms)) (fun k ms _ _ _ _ => (k, ms))
    (fun _ ms k _ _ _ => (k, ms)).

(** [CGACGACGACGACG] and its reverse complement. *)
Definition cga_fw : CompDNA :=
  mkCompDNA 14 [pack [C_;G_;A_;C_;G_;A_;C_;G_;A_;C_;G_;A_;C_;G_]; 0] [].
Definition cga_rc : CompDNA :=
  mkCompDNA 14 [pack [C_;G_;T_;C_;G_;T_;C_;G_;T_;C_;G_;T_;C_;G_]; 0] [].

(** 64 bases [A], and a candidate of 64 bases that agrees with it on the
    first 32 bases only (32 [A] followed by 32 [T]). *)
Definition a64 : CompDNA := mkCompDNA 64 [0; 0; 0] [].
Definition a32t32 : CompDNA := mkCompDNA 64 [0; 2 ^ 64 - 1; 0] [].

(** 64 bases [A] followed by 32 bases [T]: the candidate above is its
    subsequence at offset 32, and nowhere else. *)
Definition a64t32 : CompDNA := mkCompDNA 96 [0; 0; 2 ^ 64 - 1; 0] [].

(** [G^38 CC], its reverse complement [GG C^38], and the candidate [C^33]. *)
Definition g38cc : CompDNA :=
  mkCompDNA 40 [pack (repeat G_ 32); pack (repeat G_ 6 ++ [C_; C_]); 0] [].
Definition ggc38 : CompDNA :=
  mkCompDNA 40 [pack ([G_; G_] ++ repeat C_ 30); pack (repeat C_ 8); 0] [].
Definition c33 : CompDNA :=
  mkCompDNA 33 [pack (repeat C_ 32); pack [C_]; 0] [].

(** A candidate buffer of seven reverse-strand candidates (ids 2 to 8,
    negated) and the table of their lengths. *)
Definition heap_bests : list Z := [7; -2; -3; -4; -5; -6; -7; -8].
Definition heap_lengths : list Z := [0; 0; 1000; 900; 500; 800; 700; 100; 200].

(** A matrix of three template columns 0 -> 1 -> 2 over the template [ACG],
    with 1, 2 and 4 gap votes, and a consensus record with cleared
    statistics. *)
Definition stats_matrix : AssemInfo :=
  mkAssemInfo [mkAssembly [5; 0; 0; 0; 0; 1] 1; mkAssembly [0; 5; 0; 0; 0; 2] 2;
               mkAssembly [1; 0; 4; 0; 0; 4] 0] 3 3.
Definition stats_assem : Assem := mkAssem [] [] [] 3 3 3 0 0 0 0 0 0 0 0 0.
Definition acg : list Z := [pack [A_; C_; G_]; 0].

(** A consensus of five columns [A/A], [-/-], [-/-], [-/T], [C/C] over the
    old template [AC] (nodes 0 and 1; nodes 2, 3 and 4 are the insertion
    columns, in list order 0 -> 2 -> 3 -> 4 -> 1), to be re-anchored at
    offset 0 on the template [ATC]. *)
Definition rw_matrix : AssemInfo :=
  mkAssemInfo [mkAssembly [10; 0; 0; 0; 0; 0] 2; mkAssembly [0; 11; 0; 0; 0; 0] 0;
               mkAssembly [0; 0; 0; 0; 0; 12] 3; mkAssembly [0; 0; 0; 0; 0; 13] 4;
               mkAssembly [0; 0; 0; 14; 0; 0] 1; node0; node0] 5 7.
Definition rw_assem : Assem :=
  mkAssem [65; 45; 45; 45; 67; 0] [124; 45; 45; 45; 124; 0] [65; 45; 45; 84; 67; 0]
    5 2 2 0 0 0 0 0 0 0 0 0.
Definition atc : list Z := [pack [A_; T_; C_]; 0].

(** The candidate [CCCCCAC^27] (33 bases). *)
Definition cand33 : CompDNA :=
  mkCompDNA 33 [pack (repeat C_ 5 ++ [A_] ++ repeat C_ 26); pack [C_]; 0] [].

(** The candidate twice in a row: 66 bases without ambiguous position. *)
Definition twice33 : CompDNA :=
  mkCompDNA 66
    [pack (repeat C_ 5 ++ [A_] ++ repeat C_ 26);
     pack ([C_] ++ repeat C_ 5 ++ [A_] ++ repeat C_ 25);
     pack [C_; C_]; 0] [].

(** The candidate with its sixth base ambiguous, seven [G], and the
    candidate again: it occurs at 0, across the ambiguous position 5, and at
    40. *)
Definition masked_then_clean : CompDNA :=
  mkCompDNA 73
    [pack (repeat C_ 5 ++ [A_] ++ repeat C_ 26);
     pack ([C_] ++ repeat G_ 7 ++ repeat C_ 5 ++ [A_] ++ repeat C_ 18);
     pack (repeat C_ 9); 0] [5].

(** The candidate with its sixth base ambiguous, followed by seven [G]. *)
Definition masked_only : CompDNA :=
  mkCompDNA 40
    [pack (repeat C_ 5 ++ [A_] ++ repeat C_ 26); pack ([C_] ++ repeat G_ 7); 0] [5].

(** 40 bases [A] with the positions 10 and 30 ambiguous. *)
Definition a40_two_N : CompDNA := mkCompDNA 40 [0; 0; 0] [10; 30].

(** The candidate preceded by one [A], at an ambiguous position, in a
    consensus of 70 bases: [C^34 N cand33 C^2] with the ambiguous position
    34 recorded as [A], and the candidate [A cand33] truncated to 33
    bases. *)
Definition n_at_start : CompDNA :=
  mkCompDNA 70
    [pack (repeat C_ 32);
     pack ([C_; C_; A_] ++ repeat G_ 29);
     pack (repeat G_ 3 ++ [C_; C_; C_]); 0] [34].
Definition a_g32 : CompDNA :=
  mkCompDNA 33 [pack ([A_] ++ repeat G_ 31); pack [G_]; 0] [].

(** An environment for [reassign_template]: the usual nibble table, an
    encoder and a reverse-complement for short sequences, and a sequence
    file whose every template is [TTTTTTTTTT]. *)
Definition nibble (ch : Z) : Z :=
  if ch =? 65 then 0 else if ch =? 67 then 1 else if ch =? 71 then 2
  else if ch =? 84 then 3 else if ch =? 78 then 4 else 8.

Fixpoint words_of (n : nat) (bs : list Z) : list Z :=
  match n, bs with
  | S n', _ :: _ => pack (firstn 32 bs) :: words_of n' (skipn 32 bs)
  | _, _ => [0]
  end.

Definition encode (bs : list Z) (len : Z) : CompDNA :=
  let bs := firstn (Z.to_nat len) bs in
  mkCompDNA len
    (words_of (length bs) (map (fun b => if b =? 4 then 0 else b) bs))
    (filter (fun i => rd bs i =? 4) (map Z.of_nat (List.seq 0 (length bs)))).

Definition revcomp (c : CompDNA) : CompDNA :=
  let bs := map (fun i => 3 - getNuc (seq c) (seqlen c - 1 - Z.of_nat i))
              (List.seq 0 (Z.to_nat (seqlen c))) in
  mkCompDNA (seqlen c) (words_of (length bs) bs)
    (rev (map (fun p => seqlen c - 1 - p) (N c))).

Definition env_t10 : Externals :=
  mkExternals nibble encode revcomp no_minimizer
    (fun _ _ => [pack (repeat T_ 10); 0])
    (fun a => a) (fun m _ => m) (fun a => a) (fun _ _ => false) (fun _ qs => qs).

(** The consensus [CGACGACGACGACG] of 14 columns, without gaps, over a
    matrix of 14 template columns. *)
Definition cga_assem : Assem :=
  mkAssem [67; 71; 65; 67; 71; 65; 67; 71; 65; 67; 71; 65; 67; 71; 0]
          [124; 124; 124; 124; 124; 124; 124; 124; 124; 124; 124; 124; 124; 124; 0]
          [67; 71; 65; 67; 71; 65; 67; 71; 65; 67; 71; 65; 67; 71; 0]
          14 14 14 0 0 0 0 0 0 0 0 0.
Definition cga_matrix : AssemInfo :=
  mkAssemInfo
    (map (fun i => mkAssembly [1; 1; 1; 0; 0; 0] (if i =? 13 then 0 else i + 1))
       (map Z.of_nat (List.seq 0 14))) 14 14.
Definition cga_state : State :=
  mkState cga_assem cga_matrix (mkQseqs [] 0 0) (mkCompDNA 0 [0] []) [0; 0]
    [0; 0; 0; 0; 0; 0].

(** An index of 15 templates (ids 1 to 15) over 16-mers that knows one
    16-mer, [T^16], with the value vector [2; 11; 12; 13; 14; 15]; the
    template lengths; a sequence file in which the template 15 is
    [C^32 T^38] and every other template is made of [G]; and a call on the
    consensus [C^32 T^38] of 70 columns, without gaps, with a zeroed scratch
    of 16 scores and 34 buffer cells. *)
Definition idx_t16 : HashMapKMA :=
  mkHashMapKMA 16 16 0 0 0 0
    (fun cmer => if cmer =? 2 ^ 32 - 1 then 100 else 0)
    (fun p => if p =? 100 then [2; 11; 12; 13; 14; 15] else []).
Definition lengths16 : list Z :=
  [0; 10; 36; 10; 10; 10; 10; 10; 10; 10; 10; 38; 37; 40; 50; 70].
Definition c32t38 : list Z :=
  [pack (repeat C_ 32); pack (repeat T_ 32); pack (repeat T_ 6)].
Definition env_t16 : Externals :=
  mkExternals nibble encode revcomp no_minimizer
    (fun off n => if off =? seq_index lengths16 15 then c32t38
                  else repeat (pack (repeat G_ 32)) (Z.to_nat n))
    (fun a => a) (fun m _ => m) (fun a => a) (fun _ _ => false) (fun _ qs => qs).
Definition c32t38_assem : Assem :=
  mkAssem (repeat 67 32 ++ repeat 84 38 ++ [0]) (repeat 124 70 ++ [0])
          (repeat 67 32 ++ repeat 84 38 ++ [0])
          70 70 70 0 0 0 0 0 0 0 0 0.
Definition c32t38_matrix : AssemInfo :=
  mkAssemInfo
    (map (fun i => mkAssembly [1; 1; 1; 0; 0; 0] (if i =? 69 then 0 else i + 1))
       (map Z.of_nat (List.seq 0 70))) 70 70.
Definition c32t38_state : State :=
  mkState c32t38_assem c32t38_matrix (mkQseqs [] 0 0) (mkCompDNA 0 [0] []) (repeat 0 16)
    (repeat 0 34).

(** 70 bases [C] and the candidate [G^33], which occurs nowhere in it. *)
Definition c70 : CompDNA :=
  mkCompDNA 70 [pack (repeat C_ 32); pack (repeat C_ 32); pack (repeat C_ 6); 0] [].
Definition g33 : CompDNA := mkCompDNA 33 [pack (repeat G_ 32); pack [G_]; 0] [].

End Vectors.

(** * Properties *)

(** ** Arrays *)

Section MemFacts.

Lemma length_upd (mem : list Z) (i : nat) (v : Z) : length (upd mem i v) = length mem.
Proof.
  revert i; induction mem as [|x mem IH]; intros [|i]; simpl; auto.
Qed.

Lemma length_wr (mem : list Z) (i v : Z) : length (wr mem i v) = length mem.
Proof.
  unfold wr; destruct (i <? 0); auto using length_upd.
Qed.

Lemma nth_upd_same (mem : list Z) (i : nat) (v : Z) :
  (i < length mem)%nat -> nth i (upd mem i v) 0 = v.
Proof.
  revert i; induction mem as [|x mem IH]; intros [|i]; simpl; intros H; try lia; auto.
  apply IH; lia.
Qed.

Lemma nth_upd_other (mem : list Z) (i j : nat) (v : Z) :
  i <> j -> nth j (upd mem i v) 0 = nth j mem 0.
Proof.
  revert i j; induction mem as [|x mem IH]; intros [|i] [|j]; simpl; intros H;
    try congruence; auto.
Qed.

Lemma rd_wr_same (mem : list Z) (i v : Z) :
  0 <= i < Z.of_nat (length mem) -> rd (wr mem i v) i = v.
Proof.
  intros H; unfold rd, wr.
  destruct (Z.ltb_spec i 0); [lia|].
  apply nth_upd_same; lia.
Qed.

Lemma rd_wr_other (mem : list Z) (i j v : Z) :
  i <> j -> rd (wr mem i v) j = rd mem j.
Proof.
  intros H; unfold rd, wr.
  destruct (Z.ltb_spec j 0); auto.
  destruct (Z.ltb_spec i 0); auto.
  apply nth_upd_other; lia.
Qed.

Lemma upd_upd_other (mem : list Z) (i j : nat) (a b : Z) :
  i <> j -> upd (upd mem i a) j b = upd (upd mem j b) i a.
Proof.
  revert i j; induction mem as [|x mem IH]; intros [|i] [|j]; simpl; intros H;
    try congruence; auto.
  f_equal; apply IH; congruence.
Qed.

Lemma upd_upd_same (mem : list Z) (i : nat) (a b : Z) :
  upd (upd mem i a) i b = upd mem i b.
Proof.
  revert i; induction mem as [|x mem IH]; intros [|i]; simpl; auto.
  f_equal; apply IH.
Qed.

Lemma wr_wr_other (mem : list Z) (i j a b : Z) :
  i <> j -> wr (wr mem i a) j b = wr (wr mem j b) i a.
Proof.
  intros H; unfold wr.
  destruct (Z.ltb_spec i 0); destruct (Z.ltb_spec j 0); auto.
  apply upd_upd_other; lia.
Qed.

Lemma wr_wr_same (mem : list Z) (i a b : Z) : wr (wr mem i a) i b = wr mem i b.
Proof.
  unfold wr; destruct (i <? 0); auto using upd_upd_same.
Qed.


End MemFacts.

(** ** KmerScanner *)

Section ScannerFacts.

Variable T : HashMapKMA.
Variable M : Minimizer.

(** Two treatments of a lookup that preserve a relation between their
    accumulators are carried through the k-mer iteration in lock step. *)
Section Lockstep.

Context {A B : Type}.
Variable hitA : Z -> A -> A.
Variable hitB : Z -> B -> B.
Variable R : A -> B -> Prop.
Hypothesis hit_R : forall v a b, v <> 0 -> R a b -> R (hitA v a) (hitB v b).

Lemma lookup_R (cmer : Z) (a : A) (b : B) :
  R a b -> R (lookup T hitA cmer a) (lookup T hitB cmer b).
Proof.
  intros H; unfold lookup.
  destruct (Z.eqb_spec (hashMap_get T cmer) 0); simpl; auto.
Qed.

Lemma prefix_inner_R (n : nat) (sq : list Z) :
  forall j pmer ms a b, R a b ->
  exists j' pmer' ms' a' b',
    prefix_inner T M hitA n sq j pmer ms a = (j', pmer', ms', a') /\
    prefix_inner T M hitB n sq j pmer ms b = (j', pmer', ms', b') /\ R a' b'.
Proof.
  induction n as [|n IH]; intros j pmer ms a b H; simpl.
  - now exists j, pmer, ms, a, b.
  - destruct (_ =? prefix T).
    + destruct (negb (flag T =? 0)).
      * destruct (getCmer M _ ms _ _ _) as [cmer ms1].
        apply IH, lookup_R, H.
      * apply IH, lookup_R, H.
    + apply IH, H.
Qed.

Lemma prefix_outer_R (Ns : list Z) (sq : list Z) :
  forall j ms a b, R a b ->
  exists j' ms' a' b',
    prefix_outer T M hitA Ns sq j ms a = (j', ms', a') /\
    prefix_outer T M hitB Ns sq j ms b = (j', ms', b') /\ R a' b'.
Proof.
  induction Ns as [|p Ns IH]; intros j ms a b H; simpl.
  - now exists j, ms, a, b.
  - match goal with
    | |- context [prefix_inner T M hitA ?n sq ?j0 ?pm ms a] =>
        destruct (prefix_inner_R n sq j0 pm ms a b H)
          as (j' & pmer' & ms' & a' & b' & EA & EB & HR)
    end.
    rewrite EA, EB. apply IH, HR.
Qed.

Lemma prefix_pass_R (qseq : CompDNA) (ms : MState) (a : A) (b : B) :
  R a b ->
  exists ms' a' b',
    prefix_pass T M hitA qseq ms a = (ms', a') /\
    prefix_pass T M hitB qseq ms b = (ms', b') /\ R a' b'.
Proof.
  intros H; unfold prefix_pass.
  destruct (prefix_outer_R (N qseq ++ [seqlen qseq]) (seq qseq) 0 ms a b H)
    as (j' & ms' & a' & b' & EA & EB & HR).
  rewrite EA, EB. now exists ms', a', b'.
Qed.

Lemma plain_inner_R (n : nat) (sq : list Z) :
  forall j kmer cmer ms a b, R a b ->
  exists j' kmer' cmer' ms' a' b',
    plain_inner T M hitA n sq j kmer cmer ms a = (j', kmer', cmer', ms', a') /\
    plain_inner T M hitB n sq j kmer cmer ms b = (j', kmer', cmer', ms', b') /\
    R a' b'.
Proof.
  induction n as [|n IH]; intros j kmer cmer ms a b H; simpl.
  - now exists j, kmer, cmer, ms, a, b.
  - destruct (negb (flag T =? 0)).
    + destruct (updateCmer M cmer ms _ _ _ _) as [cmer1 ms1].
      apply IH, lookup_R, H.
    + apply IH, lookup_R, H.
Qed.

Lemma plain_outer_R (Ns : list Z) (sq : list Z) (seqend : Z) :
  forall j ms a b, R a b ->
  exists j' ms' a' b',
    plain_outer T M hitA Ns sq seqend j ms a = (j', ms', a') /\
    plain_outer T M hitB Ns sq seqend j ms b = (j', ms', b') /\ R a' b'.
Proof.
  induction Ns as [|p Ns IH]; intros j ms a b H; simpl.
  - now exists j, ms, a, b.
  - destruct (j <? seqend); [|now exists j, ms, a, b].
    destruct (negb (flag T =? 0)).
    + destruct (initCmer M _ ms _ _ _ _) as [cmer1 ms1].
      match goal with
      | |- context [plain_inner T M hitA ?n sq ?j0 ?km ?cm ?m0 a] =>
          destruct (plain_inner_R n sq j0 km cm m0 a b H)
            as (j' & kmer' & cmer' & ms' & a' & b' & EA & EB & HR)
      end.
      rewrite EA, EB. apply IH, HR.
    + match goal with
      | |- context [plain_inner T M hitA ?n sq ?j0 ?km ?cm ?m0 a] =>
          destruct (plain_inner_R n sq j0 km cm m0 a b H)
            as (j' & kmer' & cmer' & ms' & a' & b' & EA & EB & HR)
      end.
      rewrite EA, EB. apply IH, HR.
Qed.

Lemma plain_pass_R (qseq : CompDNA) (seqend : Z) (ms : MState) (a : A) (b : B) :
  R a b ->
  exists ms' a' b',
    plain_pass T M hitA qseq seqend ms a = (ms', a') /\
    plain_pass T M hitB qseq seqend ms b = (ms', b') /\ R a' b'.
Proof.
  intros H; unfold plain_pass.
  destruct (plain_outer_R (N qseq ++ [seqlen qseq]) (seq qseq) seqend 0 ms a b H)
    as (j' & ms' & a' & b' & EA & EB & HR).
  rewrite EA, EB. now exists ms', a', b'.
Qed.

End Lockstep.

End ScannerFacts.

Section FlushFacts.

Lemma rd_nonneg (Sc : list Z) (t : Z) : Forall (fun x => 0 <= x) Sc -> 0 <= rd Sc t.
Proof.
  intros H; unfold rd. destruct (Z.ltb_spec t 0); [lia|].
  destruct (Nat.lt_ge_cases (Z.to_nat t) (length Sc)) as [Hl|Hl].
  - rewrite Forall_forall in H. apply H, nth_In, Hl.
  - rewrite nth_overflow; [lia|exact Hl].
Qed.

Lemma rd_in_range (Sc : list Z) (t : Z) : rd Sc t <> 0 -> 0 <= t < Z.of_nat (length Sc).
Proof.
  unfold rd; intros H. destruct (Z.ltb_spec t 0); [congruence|].
  destruct (Nat.lt_ge_cases (Z.to_nat t) (length Sc)) as [Hl|Hl]; [lia|].
  rewrite nth_overflow in H; [congruence|exact Hl].
Qed.

Lemma Forall_upd (P : Z -> Prop) (Sc : list Z) (i : nat) (v : Z) :
  Forall P Sc -> P v -> Forall P (upd Sc i v).
Proof.
  intros H Hv; revert i; induction H as [|x l Hx Hl IH]; intros [|i]; simpl; auto.
Qed.

Lemma Forall_wr (P : Z -> Prop) (Sc : list Z) (i v : Z) :
  Forall P Sc -> P v -> Forall P (wr Sc i v).
Proof.
  intros H Hv; unfold wr; destruct (i <? 0); auto using Forall_upd.
Qed.

Lemma bump_nonneg r Sc B t :
  0 <= r -> nonneg Sc -> nonneg (fst (bump r (Sc, B) t)).
Proof.
  intros Hr H; simpl. apply Forall_wr; auto.
  pose proof (rd_nonneg Sc t H); lia.
Qed.

Lemma bump_length r Sc B t : length (fst (bump r (Sc, B) t)) = length Sc.
Proof. simpl; apply length_wr. Qed.

Lemma flush_nonneg v r : forall Sc B,
  0 <= r -> nonneg Sc -> nonneg (fst (flush v r (Sc, B))).
Proof.
  unfold flush; induction v as [|t v IH]; intros Sc B Hr H; simpl; auto.
  apply IH; auto. apply Forall_wr; auto. pose proof (rd_nonneg Sc t H); lia.
Qed.

Lemma flush_length v r : forall Sc B, length (fst (flush v r (Sc, B))) = length Sc.
Proof.
  unfold flush; induction v as [|t v IH]; intros Sc B; simpl; auto.
  rewrite IH; apply length_wr.
Qed.

Lemma bump1_pos Sc B t : 1 <= rd Sc t -> bump 1 (Sc, B) t = add1 t (Sc, B).
Proof.
  intros H; unfold add1; simpl.
  destruct (Z.eqb_spec (rd Sc t + 1) 1); [lia|reflexivity].
Qed.

Lemma add1_bump r Sc B t :
  0 <= t < Z.of_nat (length Sc) ->
  add1 t (bump r (Sc, B) t) = bump (r + 1) (Sc, B) t.
Proof.
  intros Ht; unfold add1; simpl.
  rewrite rd_wr_same by exact Ht. rewrite wr_wr_same.
  f_equal; [f_equal; lia|].
  destruct (Z.eqb_spec (rd Sc t + r) r), (Z.eqb_spec (rd Sc t + (r + 1)) (r + 1));
    auto; lia.
Qed.

Lemma add1_bump_comm r Sc B t u :
  0 <= r -> 1 <= rd Sc t ->
  bump r (add1 t (Sc, B)) u = add1 t (bump r (Sc, B) u).
Proof.
  intros Hr Ht.
  assert (Hin : 0 <= t < Z.of_nat (length Sc)) by (apply rd_in_range; lia).
  unfold add1; simpl.
  destruct (Z.eq_dec u t) as [->|Hne].
  - rewrite !rd_wr_same by (rewrite ?length_wr; exact Hin). rewrite !wr_wr_same.
    f_equal; [f_equal; lia|].
    destruct (Z.eqb_spec (rd Sc t + 1 + r) r), (Z.eqb_spec (rd Sc t + r) r); auto; lia.
  - rewrite !rd_wr_other by congruence.
    f_equal. apply wr_wr_other; congruence.
Qed.

Lemma bump_rd_ge r Sc B t u :
  0 <= r -> rd Sc t <= rd (fst (bump r (Sc, B) u)) t.
Proof.
  intros Hr; simpl.
  destruct (Z.eq_dec u t) as [->|Hne].
  - destruct (Z.eq_dec (rd Sc t) 0) as [E|E].
    + unfold rd, wr in *. destruct (Z.ltb_spec t 0); [lia|].
      destruct (Nat.lt_ge_cases (Z.to_nat t) (length Sc)) as [Hl|Hl].
      * rewrite nth_upd_same by exact Hl. lia.
      * rewrite (nth_overflow (upd _ _ _)) by (rewrite length_upd; exact Hl).
        rewrite nth_overflow in E |- * by exact Hl. lia.
    + rewrite rd_wr_same by (apply rd_in_range; exact E). lia.
  - rewrite rd_wr_other by congruence. lia.
Qed.

Lemma flush_rd_ge v r t : forall Sc B,
  0 <= r -> rd Sc t <= rd (fst (flush v r (Sc, B))) t.
Proof.
  unfold flush; induction v as [|u v IH]; intros Sc B Hr; simpl; [lia|].
  etransitivity; [|apply IH; exact Hr].
  apply (bump_rd_ge r Sc B t u Hr).
Qed.

Lemma add1_flush_comm v r t : forall Sc B,
  0 <= r -> 1 <= rd Sc t ->
  flush v r (add1 t (Sc, B)) = add1 t (flush v r (Sc, B)).
Proof.
  unfold flush; induction v as [|u v IH]; intros Sc B Hr Ht; [reflexivity|].
  cbn [fold_left].
  rewrite (add1_bump_comm r Sc B t u Hr Ht).
  destruct (bump r (Sc, B) u) as [Sc1 B1] eqn:E.
  unfold add1 at 1; cbn [fst snd].
  assert (H1 : 1 <= rd Sc1 t).
  { pose proof (bump_rd_ge r Sc B t u Hr) as H. rewrite E in H. simpl in H. lia. }
  apply (IH Sc1 B1 Hr H1).
Qed.

Lemma flush_cons t v r SB : flush (t :: v) r SB = flush v r (bump r SB t).
Proof. reflexivity. Qed.

(** Flushing a vector once more after a flush of weight [r] is the flush of
    weight [r + 1]. *)
Lemma flush_succ v r : forall Sc B,
  1 <= r -> nonneg Sc ->
  (forall t, In t v -> 0 <= t < Z.of_nat (length Sc)) ->
  flush v 1 (flush v r (Sc, B)) = flush v (r + 1) (Sc, B).
Proof.
  induction v as [|t v IH]; intros Sc B Hr Hn Hv; [reflexivity|].
  assert (Ht : 0 <= t < Z.of_nat (length Sc)) by (apply Hv; now left).
  rewrite !flush_cons.
  destruct (bump r (Sc, B) t) as [Sc1 B1] eqn:E1.
  assert (H1 : 1 <= rd Sc1 t).
  { simpl in E1. injection E1 as <- <-. rewrite rd_wr_same by exact Ht.
    pose proof (rd_nonneg Sc t Hn); lia. }
  destruct (flush v r (Sc1, B1)) as [Sc2 B2] eqn:E2.
  assert (H2 : 1 <= rd Sc2 t).
  { pose proof (flush_rd_ge v r t Sc1 B1 ltac:(lia)) as H. rewrite E2 in H.
    simpl in H; lia. }
  rewrite (bump1_pos Sc2 B2 t H2), <- E2.
  rewrite <- (add1_flush_comm v r t Sc1 B1 ltac:(lia) H1), <- E1.
  rewrite (add1_bump r Sc B t Ht).
  destruct (bump (r + 1) (Sc, B) t) as [Sc3 B3] eqn:E3.
  apply IH; [exact Hr| |].
  - pose proof (bump_nonneg (r + 1) Sc B t ltac:(lia) Hn) as H. now rewrite E3 in H.
  - intros u Hu. pose proof (bump_length (r + 1) Sc B t) as H. rewrite E3 in H.
    simpl in H. rewrite H. apply Hv; now right.
Qed.

End FlushFacts.

Section ScanEquivalence.

Variable T : HashMapKMA.
Variable M : Minimizer.
Variable n : nat.
Hypothesis Hids : ids_in_range T n.

Lemma flush_last_pending (a : Acc) :
  (Scores (flush_last T a), bests (flush_last T a)) = pending T a.
Proof.
  unfold flush_last, pending. destruct (negb (last a =? 0)); auto.
  destruct (flush _ _ _); reflexivity.
Qed.

Lemma agree_init (Sc B : list Z) :
  nonneg Sc -> length Sc = n -> agree T n (mkAcc 0 0 Sc B) (Sc, B).
Proof.
  intros H L; unfold agree, pending; simpl. repeat split; auto; congruence.
Qed.

Lemma accumulate_agree (v : Z) (a : Acc) (SB : list Z * list Z) :
  v <> 0 -> agree T n a SB -> agree T n (accumulate T v a) (flush_hit T v SB).
Proof.
  intros Hv (-> & Hn & Hl & Hr). unfold accumulate, flush_hit.
  destruct (Z.eqb_spec v (last a)) as [E|E].
  - assert (Hla : last a <> 0) by congruence.
    unfold agree, pending; cbn [last reps Scores bests].
    destruct (Z.eqb_spec (last a) 0); [contradiction|]. cbn [negb].
    repeat split; auto; [|intros _; specialize (Hr Hla); lia].
    rewrite E. apply flush_succ; auto.
    intros t Ht. rewrite Hl. eapply Hids, Ht.
  - unfold pending at 1. destruct (Z.eqb_spec (last a) 0) as [E0|E0]; cbn [negb].
    + unfold agree, pending; cbn [last reps Scores bests].
      destruct (Z.eqb_spec v 0); [contradiction|]. cbn [negb].
      repeat split; auto; lia.
    + destruct (flush (values T (last a)) (reps a) (Scores a, bests a))
        as [Sc1 B1] eqn:EF.
      unfold agree, pending; cbn [last reps Scores bests].
      destruct (Z.eqb_spec v 0); [contradiction|]. cbn [negb].
      pose proof (flush_nonneg (values T (last a)) (reps a) (Scores a) (bests a)) as H1.
      pose proof (flush_length (values T (last a)) (reps a) (Scores a) (bests a)) as H2.
      rewrite EF in H1, H2; simpl in H1, H2.
      repeat split; auto; try lia.
      apply H1; auto. specialize (Hr E0); lia.
Qed.

Lemma agree_flush_last (a : Acc) (SB : list Z * list Z) :
  agree T n a SB ->
  SB = (Scores (flush_last T a), bests (flush_last T a)) /\
  nonneg (fst SB) /\ length (fst SB) = n.
Proof.
  intros (-> & Hn & Hl & Hr). split; [symmetry; apply flush_last_pending|].
  unfold pending. destruct (Z.eqb_spec (last a) 0); cbn [negb]; [now split|].
  split.
  - apply flush_nonneg; auto. specialize (Hr n0); lia.
  - rewrite flush_length; auto.
Qed.

Lemma prefix_scan_equiv (Score : list Z) (fw rc : CompDNA) :
  nonneg Score -> length Score = n ->
  prefix_scan T M Score fw rc = prefix_scan_noreps T M Score fw rc /\
  nonneg (snd (prefix_scan T M Score fw rc)) /\
  length (snd (prefix_scan T M Score fw rc)) = n.
Proof.
  intros Hn Hl. unfold prefix_scan, prefix_scan_noreps.
  destruct (prefix_pass_R T M (accumulate T) (flush_hit T) (agree T n)
              accumulate_agree fw (0, 0, kmersize T) _ _ (agree_init Score [] Hn Hl))
    as (ms1 & a1 & [Sc1 B1] & EA & EB & HR).
  rewrite EA, EB.
  destruct (agree_flush_last a1 _ HR) as (E1 & Hn1 & Hl1). cbn [fst] in Hn1, Hl1.
  injection E1 as ES EBk.
  destruct (prefix_pass_R T M (accumulate T) (flush_hit T) (agree T n)
              accumulate_agree rc ms1 _ _ (agree_init Sc1 B1 Hn1 Hl1))
    as (ms2 & a2 & [Sc2 B2] & EA2 & EB2 & HR2).
  rewrite <- ES, <- EBk, EA2, EB2.
  destruct (agree_flush_last a2 _ HR2) as (E2 & Hn2 & Hl2). cbn [fst] in Hn2, Hl2.
  injection E2 as ES2 EB2k. cbn [snd].
  rewrite <- ES2, <- EB2k. auto.
Qed.

Lemma plain_scan_equiv (Score : list Z) (qseq : CompDNA) (seqend : Z) (ms : MState) :
  nonneg Score -> length Score = n ->
  plain_scan T M Score qseq seqend ms = plain_scan_noreps T M Score qseq seqend ms /\
  nonneg (snd (snd (plain_scan T M Score qseq seqend ms))) /\
  length (snd (snd (plain_scan T M Score qseq seqend ms))) = n.
Proof.
  intros Hn Hl. unfold plain_scan, plain_scan_noreps.
  destruct (plain_pass_R T M (accumulate T) (flush_hit T) (agree T n)
              accumulate_agree qseq seqend ms _ _ (agree_init Score [] Hn Hl))
    as (ms1 & a1 & [Sc1 B1] & EA & EB & HR).
  rewrite EA, EB.
  destruct (agree_flush_last a1 _ HR) as (E1 & Hn1 & Hl1). cbn [fst] in Hn1, Hl1.
  injection E1 as ES EBk. cbn [snd]. rewrite <- ES, <- EBk. auto.
Qed.

End ScanEquivalence.

Section SweepFacts.

Lemma sweep_length thr B : forall Sc kept,
  length (snd (sweep thr B Sc kept)) = length Sc.
Proof.
  induction B as [|t B IH]; intros Sc kept; simpl; auto.
  rewrite IH; apply length_wr.
Qed.

Lemma sweep_nonneg thr B : forall Sc kept,
  nonneg Sc -> nonneg (snd (sweep thr B Sc kept)).
Proof.
  induction B as [|t B IH]; intros Sc kept H; simpl; auto.
  apply IH, Forall_wr; auto; lia.
Qed.

(** On a bucket without repetition the sweep keeps exactly the entries whose
    score reaches the threshold. *)
Lemma sweep_filter thr B : forall Sc kept,
  NoDup B ->
  fst (sweep thr B Sc kept) = kept ++ survivors thr (B, Sc).
Proof.
  unfold survivors; cbn [fst snd].
  induction B as [|t B IH]; intros Sc kept H; simpl; [now rewrite app_nil_r|].
  inversion H as [|? ? Hnot Hnd]; subst.
  rewrite IH by exact Hnd.
  assert (EF : filter (fun u => thr u <=? rd (wr Sc t 0) u) B
               = filter (fun u => thr u <=? rd Sc u) B).
  { apply filter_ext_in. intros u Hu. rewrite rd_wr_other; auto.
    intros ->; contradiction. }
  rewrite EF, Z.leb_antisym.
  destruct (rd Sc t <? thr t); simpl; [reflexivity|].
  now rewrite <- app_assoc.
Qed.

(** After the sweep a cell is zero when it was listed or was zero before. *)
Lemma sweep_zero thr B : forall Sc kept u,
  In u B \/ rd Sc u = 0 -> rd (snd (sweep thr B Sc kept)) u = 0.
Proof.
  induction B as [|t B IH]; intros Sc kept u H; simpl.
  - destruct H as [[]|H]; exact H.
  - apply IH. destruct H as [[->|H]|H]; auto.
    + right. destruct (Z.eq_dec (rd Sc u) 0) as [E|E].
      * unfold rd, wr in *. destruct (Z.ltb_spec u 0); auto.
        destruct (Nat.lt_ge_cases (Z.to_nat u) (length Sc)) as [Hl|Hl].
        -- now rewrite nth_upd_same.
        -- rewrite nth_overflow; auto. now rewrite length_upd.
      * apply rd_wr_same, rd_in_range, E.
    + right. destruct (Z.eq_dec t u) as [->|Hne].
      * unfold rd, wr in *. destruct (Z.ltb_spec u 0); auto.
        destruct (Nat.lt_ge_cases (Z.to_nat u) (length Sc)) as [Hl|Hl].
        -- now rewrite nth_upd_same.
        -- rewrite nth_overflow; auto. now rewrite length_upd.
      * now rewrite rd_wr_other.
Qed.

Lemma all_zero_rd (Sc : list Z) :
  (forall u, rd Sc u = 0) -> Forall (eq 0) Sc.
Proof.
  intros H. apply Forall_forall. intros x Hx.
  destruct (In_nth Sc x 0 Hx) as (i & Hi & <-).
  specialize (H (Z.of_nat i)). unfold rd in H.
  destruct (Z.ltb_spec (Z.of_nat i) 0); [lia|].
  now rewrite Nat2Z.id in H.
Qed.

Lemma rd_all_zero (Sc : list Z) (u : Z) : Forall (eq 0) Sc -> rd Sc u = 0.
Proof.
  intros H; unfold rd. destruct (u <? 0); auto.
  destruct (Nat.lt_ge_cases (Z.to_nat u) (length Sc)) as [Hl|Hl].
  - rewrite Forall_forall in H. symmetry. apply H, nth_In, Hl.
  - now apply nth_overflow.
Qed.

Lemma all_zero_eq (l1 l2 : list Z) :
  Forall (eq 0) l1 -> Forall (eq 0) l2 -> length l1 = length l2 -> l1 = l2.
Proof.
  intros H1; revert l2; induction H1 as [|x l1 Hx H1 IH]; intros [|y l2] H2 L;
    simpl in L; try discriminate; auto.
  inversion H2; subst. f_equal. apply IH; auto.
Qed.

Lemma all_zero_nonneg (Sc : list Z) : Forall (eq 0) Sc -> nonneg Sc.
Proof.
  unfold nonneg; intros H. eapply Forall_impl; [|exact H]. simpl; intros; lia.
Qed.

End SweepFacts.

Section ScanInvariant.

Variable T : HashMapKMA.
Variable M : Minimizer.
Variable n : nat.
Hypothesis Hids : ids_in_range T n.

Lemma bump_good r Sc B t :
  1 <= r -> 0 <= t < Z.of_nat n -> good n (Sc, B) -> good n (bump r (Sc, B) t).
Proof.
  intros Hr Ht (Hl & Hn & Hd & Hiff); cbn [fst snd] in *.
  assert (Hx := rd_nonneg Sc t Hn).
  unfold good; simpl. rewrite length_wr. split; [exact Hl|]. split.
  { apply Forall_wr; auto; lia. }
  destruct (Z.eqb_spec (rd Sc t + r) r) as [E|E].
  - assert (Hnot : ~ In t B) by (rewrite Hiff; lia).
    split.
    + apply NoDup_app; [exact Hd|repeat constructor; simpl; tauto|].
      intros u Hu [<-|[]]; contradiction.
    + intros u. rewrite in_app_iff, Hiff; simpl.
      destruct (Z.eq_dec t u) as [<-|Hne].
      * rewrite rd_wr_same by lia. split; [lia|auto].
      * rewrite rd_wr_other by exact Hne. tauto.
  - split; [exact Hd|].
    intros u. destruct (Z.eq_dec t u) as [<-|Hne].
    + rewrite rd_wr_same by lia. rewrite Hiff. lia.
    + rewrite rd_wr_other by exact Hne. apply Hiff.
Qed.

Lemma flush_good v r : forall Sc B,
  1 <= r -> (forall t, In t v -> 0 <= t < Z.of_nat n) ->
  good n (Sc, B) -> good n (flush v r (Sc, B)).
Proof.
  induction v as [|t v IH]; intros Sc B Hr Hv H; [exact H|].
  rewrite flush_cons.
  destruct (bump r (Sc, B) t) as [Sc1 B1] eqn:E.
  apply IH; auto; [intros u Hu; apply Hv; now right|].
  rewrite <- E. apply bump_good; auto. apply Hv; now left.
Qed.

Lemma accumulate_good (v : Z) (a : Acc) (u : unit) :
  v <> 0 -> good_acc n a -> good_acc n (accumulate T v a).
Proof.
  intros Hv (Hg & Hr). unfold accumulate.
  destruct (Z.eqb_spec v (last a)) as [E|E].
  - split; cbn [last reps Scores bests]; auto.
    intros H; specialize (Hr H); lia.
  - destruct (Z.eqb_spec (last a) 0) as [E0|E0]; cbn [negb].
    + split; cbn [last reps Scores bests]; auto; lia.
    + pose proof (flush_good (values T (last a)) (reps a) (Scores a) (bests a)
                    (Hr E0) (Hids (last a)) Hg) as H.
      destruct (flush _ _ _) as [Sc1 B1].
      split; cbn [last reps Scores bests]; auto; lia.
Qed.

Lemma flush_last_good (a : Acc) :
  good_acc n a -> good n (Scores (flush_last T a), bests (flush_last T a)).
Proof.
  intros (Hg & Hr). rewrite flush_last_pending. unfold pending.
  destruct (Z.eqb_spec (last a) 0) as [E0|E0]; cbn [negb]; auto.
  apply flush_good; auto. apply Hids.
Qed.

Lemma good_init (Sc B : list Z) : good n (Sc, B) -> good_acc n (mkAcc 0 0 Sc B).
Proof. intros H; split; simpl; auto; congruence. Qed.

Lemma good_zero (Score : list Z) :
  Forall (eq 0) Score -> length Score = n -> good n (Score, []).
Proof.
  intros H L; split; [exact L|]. split; [now apply all_zero_nonneg|].
  split; [constructor|]. cbn [fst snd].
  intros u; rewrite (rd_all_zero Score u H); simpl; split; [tauto|lia].
Qed.

Lemma prefix_scan_good (Score : list Z) (fw rc : CompDNA) :
  Forall (eq 0) Score -> length Score = n ->
  good n (snd (prefix_scan T M Score fw rc), fst (prefix_scan T M Score fw rc)).
Proof.
  intros Hz Hl. unfold prefix_scan.
  destruct (prefix_pass_R T M (accumulate T) no_hit (fun a _ => good_acc n a)
              (fun v a u => accumulate_good v a u) fw (0, 0, kmersize T) _ tt
              (good_init _ _ (good_zero Score Hz Hl)))
    as (ms1 & a1 & u1 & EA & _ & HR).
  rewrite EA. apply flush_last_good in HR.
  destruct (prefix_pass_R T M (accumulate T) no_hit (fun a _ => good_acc n a)
              (fun v a u => accumulate_good v a u) rc ms1 _ tt (good_init _ _ HR))
    as (ms2 & a2 & u2 & EA2 & _ & HR2).
  rewrite EA2. apply flush_last_good in HR2. exact HR2.
Qed.

Lemma plain_scan_good (Score : list Z) (qseq : CompDNA) (seqend : Z) (ms : MState) :
  Forall (eq 0) Score -> length Score = n ->
  good n (snd (snd (plain_scan T M Score qseq seqend ms)),
          fst (snd (plain_scan T M Score qseq seqend ms))).
Proof.
  intros Hz Hl. unfold plain_scan.
  destruct (plain_pass_R T M (accumulate T) no_hit (fun a _ => good_acc n a)
              (fun v a u => accumulate_good v a u) qseq seqend ms _ tt
              (good_init _ _ (good_zero Score Hz Hl)))
    as (ms1 & a1 & u1 & EA & _ & HR).
  rewrite EA. apply flush_last_good in HR. exact HR.
Qed.

(** The sweep of a good scratch leaves every score at zero. *)
Lemma sweep_good_zero thr (Sc B : list Z) :
  good n (Sc, B) ->
  Forall (eq 0) (snd (sweep thr B Sc [])) /\ length (snd (sweep thr B Sc [])) = n.
Proof.
  intros (Hl & Hn & Hd & Hiff); cbn [fst snd] in *.
  split; [|now rewrite sweep_length].
  apply all_zero_rd. intros u. apply sweep_zero.
  destruct (Z.eq_dec (rd Sc u) 0) as [E|E]; [now right|left].
  apply Hiff. pose proof (rd_nonneg Sc u Hn). lia.
Qed.

End ScanInvariant.

(** ** The scanner: threshold, scratch and compression *)

Section ScannerResults.

Import Vectors.

Lemma idx_prefix_in_range : ids_in_range idx_prefix 2.
Proof.
  intros p u; simpl. destruct (p =? 100); simpl; [intros [<-|[]]; lia|intros []].
Qed.

Lemma idx_plain_in_range : ids_in_range idx_plain 2.
Proof.
  intros p u; simpl. destruct (p =? 100); simpl; [intros [<-|[]]; lia|intros []].
Qed.

(** C3, as stated, fails in prefix mode: with the length table
    [[0; 3; 0; 10]] template 1 is listed with score 4, which reaches
    [template_lengths[1] = 3], and yet it is removed, because the sweep
    compares with [template_lengths[DB_size + 1] = 10]. *)
Lemma C3_counterexample :
  let TL := [0; 3; 0; 10] in
  let BS := prefix_scan idx_prefix no_minimizer [0; 0] cga_fw cga_rc in
  prefix_len idx_prefix > 0 /\ In 1 (fst BS) /\ rd TL 1 <= rd (snd BS) 1 /\
  ~ In 1 (fst (reassign_kmers idx_prefix no_minimizer [0; 0] TL cga_fw cga_rc)).
Proof.
  vm_compute. repeat split; auto; intros H; discriminate H.
Qed.

(** C3 (amended): on a zeroed [Score] array the candidates that
    [reassign_kmers] leaves in [bestTemplates] are exactly the listed
    templates whose accumulated score reaches the threshold, where the
    threshold of [t] is [template_lengths[DB_size + t]] in prefix mode and
    [template_lengths[t] - kmersize + 1] otherwise; without a prefix the
    reverse strand is scanned and swept on its own and its survivors are
    appended with negated ids. *)
Theorem C3_threshold_rule (T : HashMapKMA) (M : Minimizer) (Score TL : list Z)
    (fw rc : CompDNA) :
  Forall (eq 0) Score ->
  ids_in_range T (length Score) ->
  fst (reassign_kmers T M Score TL fw rc) =
    if negb (prefix_len T =? 0)
    then survivors (threshold T TL) (prefix_scan T M Score fw rc)
    else
      let seqend := seqlen fw - kmersize T + 1 in
      let fwd := plain_scan T M Score fw seqend (0, 0, kmersize T) in
      survivors (threshold T TL) (snd fwd) ++
      (if negb (prefix T =? 0) then []
       else map Z.opp
              (survivors (threshold T TL)
                 (snd (plain_scan T M Score rc seqend (fst fwd))))).
Proof.
  intros Hz Hids. unfold reassign_kmers, threshold.
  destruct (negb (prefix_len T =? 0)) eqn:Ep.
  - pose proof (prefix_scan_good T M _ Hids Score fw rc Hz eq_refl) as Hg.
    destruct (prefix_scan T M Score fw rc) as [B Sc]. cbn [fst snd] in Hg.
    destruct Hg as (_ & _ & Hd & _). cbn [snd] in Hd.
    now rewrite sweep_filter.
  - cbv zeta.
    pose proof (plain_scan_good T M _ Hids Score fw
                  (seqlen fw - kmersize T + 1) (0, 0, kmersize T) Hz eq_refl) as Hg.
    destruct (plain_scan T M Score fw _ _) as [ms [B Sc]]. cbn [fst snd] in Hg |- *.
    pose proof (sweep_good_zero _ (fun t => rd TL t - kmersize T + 1) Sc B Hg)
      as (Hz1 & Hl1).
    destruct Hg as (_ & _ & Hd & _). cbn [snd] in Hd.
    pose proof (sweep_filter (fun t => rd TL t - kmersize T + 1) B Sc [] Hd) as EF.
    destruct (sweep _ B Sc []) as [B_fw Sc1]. cbn [fst snd] in EF, Hz1, Hl1.
    destruct (negb (prefix T =? 0)).
    + cbn [fst]. now rewrite app_nil_r, EF.
    + assert (ES : Sc1 = Score) by (apply all_zero_eq; auto).
      rewrite ES.
      pose proof (plain_scan_good T M _ Hids Score rc
                    (seqlen fw - kmersize T + 1) ms Hz eq_refl) as Hg2.
      destruct (plain_scan T M Score rc _ ms) as [ms2 [B2 Sc2]].
      cbn [fst snd] in Hg2 |- *.
      destruct Hg2 as (_ & _ & Hd2 & _). cbn [snd] in Hd2.
      pose proof (sweep_filter (fun t => rd TL t - kmersize T + 1) B2 Sc2 [] Hd2) as EF2.
      destruct (sweep _ B2 Sc2 []) as [B_rc Sc3]. cbn [fst] in EF2 |- *.
      now rewrite EF, EF2.
Qed.

Lemma C3_threshold_rule_witness :
  fst (reassign_kmers idx_prefix no_minimizer [0; 0] [0; 3; 0; 4] cga_fw cga_rc) = [1]
  /\ fst (reassign_kmers idx_plain no_minimizer [0; 0] [0; 10] cga_fw cga_fw) = [1; -1].
Proof.
  split.
  - rewrite (C3_threshold_rule idx_prefix no_minimizer [0; 0] [0; 3; 0; 4] cga_fw cga_rc).
    + vm_compute. reflexivity.
    + repeat constructor.
    + exact idx_prefix_in_range.
  - rewrite (C3_threshold_rule idx_plain no_minimizer [0; 0] [0; 10] cga_fw cga_fw).
    + vm_compute. reflexivity.
    + repeat constructor.
    + exact idx_plain_in_range.
Defined.

(** C9: when the [Score] array is all zero at entry (and the value vectors
    only hold ids that index it), every pass appends to the candidate bucket
    exactly the templates whose score has become positive, and the [Score]
    array is all zero again, with its size unchanged, when [reassign_kmers]
    returns. *)
Theorem C9_score_scratch_zero (T : HashMapKMA) (M : Minimizer) (Score TL : list Z)
    (fw rc : CompDNA) :
  Forall (eq 0) Score ->
  ids_in_range T (length Score) ->
  (forall t, In t (fst (prefix_scan T M Score fw rc))
             <-> 0 < rd (snd (prefix_scan T M Score fw rc)) t) /\
  (forall qseq seqend ms t,
     In t (fst (snd (plain_scan T M Score qseq seqend ms)))
     <-> 0 < rd (snd (snd (plain_scan T M Score qseq seqend ms))) t) /\
  Forall (eq 0) (snd (reassign_kmers T M Score TL fw rc)) /\
  length (snd (reassign_kmers T M Score TL fw rc)) = length Score.
Proof.
  intros Hz Hids.
  split.
  { intros u.
    destruct (prefix_scan_good T M _ Hids Score fw rc Hz eq_refl) as (_ & _ & _ & H).
    apply H. }
  split.
  { intros qseq seqend ms u.
    destruct (plain_scan_good T M _ Hids Score qseq seqend ms Hz eq_refl)
      as (_ & _ & _ & H).
    apply H. }
  unfold reassign_kmers.
  destruct (negb (prefix_len T =? 0)).
  - pose proof (prefix_scan_good T M _ Hids Score fw rc Hz eq_refl) as Hg.
    destruct (prefix_scan T M Score fw rc) as [B Sc]. cbn [fst snd] in Hg.
    apply (sweep_good_zero _ _ Sc B Hg).
  - cbv zeta.
    pose proof (plain_scan_good T M _ Hids Score fw
                  (seqlen fw - kmersize T + 1) (0, 0, kmersize T) Hz eq_refl) as Hg.
    destruct (plain_scan T M Score fw _ _) as [ms [B Sc]]. cbn [fst snd] in Hg.
    pose proof (sweep_good_zero _ (fun t => rd TL t - kmersize T + 1) Sc B Hg)
      as (Hz1 & Hl1).
    destruct (sweep _ B Sc []) as [B_fw Sc1]. cbn [fst snd] in Hz1, Hl1.
    destruct (negb (prefix T =? 0)); [now split|].
    pose proof (plain_scan_good T M _ Hids Sc1 rc
                  (seqlen fw - kmersize T + 1) ms Hz1 Hl1) as Hg2.
    destruct (plain_scan T M Sc1 rc _ ms) as [ms2 [B2 Sc2]]. cbn [fst snd] in Hg2.
    pose proof (sweep_good_zero _ (fun t => rd TL t - kmersize T + 1) Sc2 B2 Hg2)
      as (Hz2 & Hl2).
    destruct (sweep _ B2 Sc2 []) as [B_rc Sc3]. now split.
Qed.

Lemma C9_score_scratch_zero_witness :
  Forall (eq 0) (snd (reassign_kmers idx_plain no_minimizer [0; 0] [0; 14] cga_fw cga_rc))
  /\ length (snd (reassign_kmers idx_plain no_minimizer [0; 0] [0; 14] cga_fw cga_rc))
     = 2%nat.
Proof.
  apply (C9_score_scratch_zero idx_plain no_minimizer [0; 0] [0; 14] cga_fw cga_rc).
  - repeat constructor.
  - exact idx_plain_in_range.
Defined.

(** C5: on a [Score] array without negative cells, the scanner with the
    [(last, reps)] run compression and the variant that flushes every
    successful lookup with weight 1 accumulate the same scores and the same
    bucket in both modes, and so [reassign_kmers] returns the same candidate
    list and the same [Score] array. *)
Theorem C5_compression_equivalence (T : HashMapKMA) (M : Minimizer) (Score TL : list Z)
    (fw rc : CompDNA) :
  nonneg Score ->
  ids_in_range T (length Score) ->
  prefix_scan T M Score fw rc = prefix_scan_noreps T M Score fw rc /\
  (forall qseq seqend ms,
     plain_scan T M Score qseq seqend ms = plain_scan_noreps T M Score qseq seqend ms) /\
  reassign_kmers T M Score TL fw rc = reassign_kmers_noreps T M Score TL fw rc.
Proof.
  intros Hn Hids.
  split; [apply (prefix_scan_equiv T M _ Hids Score fw rc Hn eq_refl)|].
  split; [intros; apply (plain_scan_equiv T M _ Hids Score qseq seqend ms Hn eq_refl)|].
  unfold reassign_kmers, reassign_kmers_noreps.
  destruct (negb (prefix_len T =? 0)).
  - now rewrite (proj1 (prefix_scan_equiv T M _ Hids Score fw rc Hn eq_refl)).
  - cbv zeta.
    destruct (plain_scan_equiv T M _ Hids Score fw (seqlen fw - kmersize T + 1)
                (0, 0, kmersize T) Hn eq_refl) as (E1 & Hn1 & Hl1).
    rewrite <- E1.
    destruct (plain_scan T M Score fw _ _) as [ms [B Sc]]. cbn [fst snd] in Hn1, Hl1.
    pose proof (sweep_nonneg (fun t => rd TL t - kmersize T + 1) B Sc [] Hn1) as Hn2.
    pose proof (sweep_length (fun t => rd TL t - kmersize T + 1) B Sc []) as Hl2.
    destruct (sweep _ B Sc []) as [B_fw Sc1]. cbn [snd] in Hn2, Hl2.
    destruct (negb (prefix T =? 0)); [reflexivity|].
    assert (Hids1 : ids_in_range T (length Sc1)) by (now rewrite Hl2, Hl1).
    now rewrite (proj1 (plain_scan_equiv T M _ Hids1 Sc1 rc
                          (seqlen fw - kmersize T + 1) ms Hn2 eq_refl)).
Qed.

Lemma C5_compression_equivalence_witness :
  reassign_kmers idx_plain no_minimizer [0; 3] [0; 14] cga_fw cga_rc
  = reassign_kmers_noreps idx_plain no_minimizer [0; 3] [0; 14] cga_fw cga_rc.
Proof.
  apply (C5_compression_equivalence idx_plain no_minimizer [0; 3] [0; 14] cga_fw cga_rc).
  - repeat constructor; lia.
  - exact idx_plain_in_range.
Defined.

End ScannerResults.

(** ** The heap, the rewriter and the statistics on concrete inputs *)

Section Evaluations.

Import Vectors.

(** C4: the heap order is lost by [reassign_popheap].  On seven candidates
    whose lengths already form a max-heap, [reassign_buildheap] exchanges
    nothing, and the seven calls of [reassign_popheap] return the ids in the
    length order 1000, 900, 500, 700, 800, 200, 100: the recursive call of
    [reassign_heapify] receives the advanced pointer, so the sift-down stops
    after one level. *)
Theorem C4_pop_order_broken :
  reassign_buildheap 9 heap_bests 0 heap_lengths = Some (heap_bests, 0) /\
  pops 9 7 heap_bests 0 heap_lengths = Some [-2; -3; -4; -6; -5; -8; -7] /\
  map (fun id => rd heap_lengths (NORM id)) [-2; -3; -4; -6; -5; -8; -7]
  = [1000; 900; 500; 700; 800; 200; 100].
Proof. vm_compute. auto. Qed.

(** C6: [reassign_matrix_offset] terminates on a consensus with two
    columns that are gaps in both template and query, and publishes
    [aln_len = len = cover = 3], but the list from index 0 is 0 -> 2 only:
    the template column 1 is not reachable from the head, and the counts of
    the old column [C/C] (11 votes) have been overwritten before they were
    read (the depth is 10 + 14 + 14). *)
Theorem C6_list_broken :
  exists mx am ins,
    reassign_matrix_offset 6 rw_matrix rw_assem 0 atc 3 = Some (mx, am, ins) /\
    aln_len am = 3 /\ a_len am = 3 /\ cover am = 3 /\
    chain 6 (assmb mx) 0 = Some [0; 2] /\ depth am = 38.
Proof. vm_compute. do 3 eexists. repeat split; reflexivity. Qed.

(** C7: a single worker never visits the last template position.  On three
    columns with 1, 2 and 4 gap votes and one mismatch in the last column,
    [getExtendedFeatures] publishes [deletionSum = 3] and [snpSum = 0],
    while the sums over all positions of [[0, t_len)] are 7 and 1. *)
Theorem C7_last_position_skipped :
  exists am,
    getExtendedFeatures 4 (fun a => a) (fun _ _ => false) stats_assem stats_matrix acg 3
    = Some am /\
    deletionSum am = 3 /\ snpSum am = 0 /\
    position_sums (assmb stats_matrix) acg 3 = (7, 1).
Proof. vm_compute. eexists. repeat split; reflexivity. Qed.

End Evaluations.

(** ** Bits of the packed sequences *)

Section BitFacts.

Lemma word_range (W : list Z) (i : Z) : wf_words W -> 0 <= word W i < 2 ^ 64.
Proof.
  intros H; unfold word. destruct (i <? 0); [lia|].
  destruct (Nat.lt_ge_cases (Z.to_nat i) (length W)) as [Hl|Hl].
  - unfold wf_words in H; rewrite Forall_forall in H. apply H, nth_In, Hl.
  - rewrite nth_overflow by exact Hl. lia.
Qed.

Lemma testbit_high (w i : Z) : 0 <= w < 2 ^ 64 -> 64 <= i -> Z.testbit w i = false.
Proof.
  intros Hw Hi. rewrite <- (Z.mod_small w (2 ^ 64)) by exact Hw.
  apply Z.mod_pow2_bits_high; lia.
Qed.

Lemma shl64_bit (w n i : Z) :
  0 <= n -> 0 <= i ->
  Z.testbit (shl64 w n) i = (i <? 64) && (n <=? i) && Z.testbit w (i - n).
Proof.
  intros Hn Hi; unfold shl64.
  destruct (Z.ltb_spec i 64).
  - rewrite Z.mod_pow2_bits_low by lia. simpl.
    destruct (Z.leb_spec n i).
    + now rewrite Z.shiftl_spec_high by lia.
    + now rewrite Z.shiftl_spec_low by lia.
  - now rewrite Z.mod_pow2_bits_high by lia.
Qed.

Lemma pos_split (pos : Z) :
  0 <= pos ->
  Z.shiftl (Z.land pos 31) 1 = 2 * (pos mod 32) /\ Z.shiftr pos 5 = pos / 32.
Proof.
  intros H. change 31 with (Z.ones 5).
  rewrite Z.land_ones, Z.shiftl_mul_pow2, Z.shiftr_div_pow2 by lia.
  change (2 ^ 5) with 32; change (2 ^ 1) with 2. lia.
Qed.

(** The bits of a k-mer are the bits of the stream from bit [2 * pos] on. *)
Lemma getKmer_bit (W : list Z) (pos sh i : Z) :
  wf_words W -> 0 <= pos -> 0 <= sh < 64 -> 0 <= i ->
  Z.testbit (getKmer W pos sh) i
  = (i + sh <? 64) && sbit W (2 * pos + 63 - sh - i).
Proof.
  intros HW Hp Hs Hi. unfold getKmer, sbit.
  destruct (pos_split pos Hp) as [-> ->].
  assert (Hm : 0 <= pos mod 32 < 32) by (apply Z.mod_pos_bound; lia).
  assert (Hd : pos = 32 * (pos / 32) + pos mod 32) by (apply Z.div_mod; lia).
  set (c := pos / 32) in *. set (r := pos mod 32) in *.
  pose proof (word_range W c HW) as Hw0.
  pose proof (word_range W (c + 1) HW) as Hw1.
  destruct (Z.ltb_spec (i + sh) 64) as [Hlt|Hge]; cbn [andb].
  - destruct (Z.leb_spec (2 * r) sh) as [Hb|Hb].
    + rewrite Z.shiftr_spec, shl64_bit by lia.
      destruct (Z.ltb_spec (i + sh) 64); [|lia].
      destruct (Z.leb_spec (2 * r) (i + sh)); [|lia]. cbn [andb].
      replace ((2 * pos + 63 - sh - i) / 64) with c
        by (apply (Z.div_unique _ 64 c (2 * r + 63 - sh - i)); lia).
      replace ((2 * pos + 63 - sh - i) mod 64) with (2 * r + 63 - sh - i)
        by (apply (Z.mod_unique _ 64 c (2 * r + 63 - sh - i)); lia).
      f_equal; lia.
    + rewrite Z.shiftr_spec, Z.lor_spec, shl64_bit, Z.shiftr_spec by lia.
      destruct (Z.ltb_spec (i + sh) 64); [|lia]. cbn [andb].
      destruct (Z.leb_spec (2 * r) (i + sh)) as [Hc|Hc]; cbn [andb].
      * rewrite (testbit_high (word W (c + 1))) by (auto; lia).
        rewrite orb_false_r.
        replace ((2 * pos + 63 - sh - i) / 64) with c
          by (apply (Z.div_unique _ 64 c (2 * r + 63 - sh - i)); lia).
        replace ((2 * pos + 63 - sh - i) mod 64) with (2 * r + 63 - sh - i)
          by (apply (Z.mod_unique _ 64 c (2 * r + 63 - sh - i)); lia).
        f_equal; lia.
      * replace ((2 * pos + 63 - sh - i) / 64) with (c + 1)
          by (apply (Z.div_unique _ 64 (c + 1) (2 * r - 1 - sh - i)); lia).
        replace ((2 * pos + 63 - sh - i) mod 64) with (2 * r - 1 - sh - i)
          by (apply (Z.mod_unique _ 64 (c + 1) (2 * r - 1 - sh - i)); lia).
        cbn [orb]. f_equal; lia.
  - destruct (Z.leb_spec (2 * r) sh) as [Hb|Hb].
    + rewrite Z.shiftr_spec, shl64_bit by lia.
      destruct (Z.ltb_spec (i + sh) 64); [lia|reflexivity].
    + rewrite Z.shiftr_spec, Z.lor_spec, shl64_bit, Z.shiftr_spec by lia.
      destruct (Z.ltb_spec (i + sh) 64); [lia|]. cbn [andb orb].
      apply testbit_high; auto; lia.
Qed.


(** Two k-mers are equal exactly when the stream bits that they cover are. *)
Lemma getKmer_eq_bits (W1 W2 : list Z) (p1 p2 sh : Z) :
  wf_words W1 -> wf_words W2 -> 0 <= p1 -> 0 <= p2 -> 0 <= sh < 64 ->
  (getKmer W1 p1 sh = getKmer W2 p2 sh <->
   forall b, 0 <= b < 64 - sh -> sbit W1 (2 * p1 + b) = sbit W2 (2 * p2 + b)).
Proof.
  intros H1 H2 Hp1 Hp2 Hs. split.
  - intros E b Hb.
    assert (Eb : Z.testbit (getKmer W1 p1 sh) (63 - sh - b)
                 = Z.testbit (getKmer W2 p2 sh) (63 - sh - b)) by now rewrite E.
    rewrite !getKmer_bit in Eb by (auto; lia).
    destruct (Z.ltb_spec (63 - sh - b + sh) 64); [|lia]. cbn [andb] in Eb.
    replace (2 * p1 + 63 - sh - (63 - sh - b)) with (2 * p1 + b) in Eb by lia.
    replace (2 * p2 + 63 - sh - (63 - sh - b)) with (2 * p2 + b) in Eb by lia.
    exact Eb.
  - intros H. apply Z.bits_inj'. intros i Hi.
    rewrite !getKmer_bit by (auto; lia).
    destruct (Z.ltb_spec (i + sh) 64); [|reflexivity]. cbn [andb].
    replace (2 * p1 + 63 - sh - i) with (2 * p1 + (63 - sh - i)) by lia.
    replace (2 * p2 + 63 - sh - i) with (2 * p2 + (63 - sh - i)) by lia.
    apply H; lia.
Qed.

Lemma getNuc_getKmer (W : list Z) (pos : Z) :
  0 <= pos -> getNuc W pos = getKmer W pos 62.
Proof.
  intros Hp. unfold getNuc, getKmer.
  destruct (pos_split pos Hp) as [E _]. rewrite E.
  assert (Hm : 0 <= pos mod 32 < 32) by (apply Z.mod_pos_bound; lia).
  destruct (Z.leb_spec (2 * (pos mod 32)) 62); [reflexivity|lia].
Qed.

(** Two bases are equal exactly when their two stream bits are. *)
Lemma getNuc_eq_bits (W1 W2 : list Z) (p1 p2 : Z) :
  wf_words W1 -> wf_words W2 -> 0 <= p1 -> 0 <= p2 ->
  (getNuc W1 p1 = getNuc W2 p2 <->
   sbit W1 (2 * p1) = sbit W2 (2 * p2) /\
   sbit W1 (2 * p1 + 1) = sbit W2 (2 * p2 + 1)).
Proof.
  intros H1 H2 Hp1 Hp2. rewrite !getNuc_getKmer by assumption.
  rewrite getKmer_eq_bits by (auto; lia). split.
  - intros H. split.
    + specialize (H 0 ltac:(lia)). now rewrite !Z.add_0_r in H.
    + apply H; lia.
  - intros [Ha Hb] b Hb'.
    assert (b = 0 \/ b = 1) as [->| ->] by lia; [now rewrite !Z.add_0_r|exact Hb].
Qed.

(** A k-mer of [n] bases read at shifter [64 - 2n] is determined by its
    bases. *)
Lemma getKmer_eq_bases (W1 W2 : list Z) (p1 p2 n : Z) :
  wf_words W1 -> wf_words W2 -> 0 <= p1 -> 0 <= p2 -> 1 <= n <= 32 ->
  (getKmer W1 p1 (64 - 2 * n) = getKmer W2 p2 (64 - 2 * n) <->
   forall i, 0 <= i < n -> getNuc W1 (p1 + i) = getNuc W2 (p2 + i)).
Proof.
  intros H1 H2 Hp1 Hp2 Hn. rewrite getKmer_eq_bits by (auto; lia). split.
  - intros H i Hi. apply getNuc_eq_bits; auto; try lia. split.
    + replace (2 * (p1 + i)) with (2 * p1 + 2 * i) by lia.
      replace (2 * (p2 + i)) with (2 * p2 + 2 * i) by lia. apply H; lia.
    + replace (2 * (p1 + i) + 1) with (2 * p1 + (2 * i + 1)) by lia.
      replace (2 * (p2 + i) + 1) with (2 * p2 + (2 * i + 1)) by lia. apply H; lia.
  - intros H b Hb.
    assert (Hi : 0 <= b / 2 < n) by (split; [apply Z.div_pos; lia|apply Z.div_lt_upper_bound; lia]).
    pose proof (proj1 (getNuc_eq_bits W1 W2 (p1 + b / 2) (p2 + b / 2) H1 H2
                         ltac:(lia) ltac:(lia)) (H _ Hi)) as [Ha Hc].
    pose proof (Z.div_mod b 2 ltac:(lia)) as Hdm.
    pose proof (Z.mod_pos_bound b 2 ltac:(lia)) as Hmb.
    assert (b mod 2 = 0 \/ b mod 2 = 1) as [E|E] by lia.
    + replace (2 * p1 + b) with (2 * (p1 + b / 2)) by lia.
      replace (2 * p2 + b) with (2 * (p2 + b / 2)) by lia. exact Ha.
    + replace (2 * p1 + b) with (2 * (p1 + b / 2) + 1) by lia.
      replace (2 * p2 + b) with (2 * (p2 + b / 2) + 1) by lia. exact Hc.
Qed.

(** A whole word of an array is the 32-mer at its first base. *)
Lemma word_getKmer (W : list Z) (j : Z) :
  wf_words W -> 0 <= j -> word W j = getKmer W (32 * j) 0.
Proof.
  intros HW Hj. unfold getKmer.
  destruct (pos_split (32 * j) ltac:(lia)) as [-> ->].
  replace (32 * j) with (j * 32) by lia.
  rewrite Z.mod_mul, Z.div_mul by lia. cbn [Z.mul Z.leb Z.compare].
  unfold shl64. rewrite Z.shiftl_0_r, Z.shiftr_0_r.
  symmetry; apply Z.mod_small, word_range, HW.
Qed.

End BitFacts.

(** ** ExactMatcher: the helper routines *)

Section MatcherHelpers.

Variable c : CompDNA.

Lemma getoffset_loop_finds (kmer k : Z) :
  k < seqlen c -> getKmer (seq c) k 0 = kmer ->
  forall (n : nat) (offset qmer : Z),
    qmer <> kmer -> offset < k -> k - offset <= Z.of_nat n ->
    exists m, getoffset_loop n c kmer qmer offset = (kmer, m) /\
              offset < m <= k /\ getKmer (seq c) m 0 = kmer /\
              forall j, offset < j < m -> getKmer (seq c) j 0 <> kmer.
Proof.
  intros Hk Ek. induction n as [|n IH]; intros offset qmer Hq Ho Hn; [lia|].
  cbn [getoffset_loop].
  destruct (Z.eqb_spec qmer kmer); [contradiction|].
  destruct (Z.ltb_spec (offset + 1) (seqlen c)); [|lia].
  destruct (Z.eq_dec (getKmer (seq c) (offset + 1) 0) kmer) as [E|E].
  - exists (offset + 1). split.
    + destruct n; cbn [getoffset_loop]; rewrite E, Z.eqb_refl; reflexivity.
    + split; [|split; [exact E|intros; lia]].
      destruct (Z.eq_dec (offset + 1) k); lia.
  - assert (offset + 1 < k).
    { destruct (Z.eq_dec (offset + 1) k) as [E1|E1]; [|lia].
      rewrite E1 in E; contradiction. }
    destruct (IH (offset + 1) (getKmer (seq c) (offset + 1) 0) E ltac:(lia) ltac:(lia))
      as (m & Em & Hm & Hkm & Hfirst).
    exists m. split; [exact Em|]. split; [lia|]. split; [exact Hkm|].
    intros j Hj. destruct (Z.eq_dec j (offset + 1)) as [->|Hne]; [exact E|].
    apply Hfirst; lia.
Qed.

(** [reassign_getoffset] returns the first offset at or after [start] whose
    32-mer is [kmer], when there is one. *)
Lemma getoffset_finds (kmer start k : Z) :
  0 <= kmer < 2 ^ 64 -> 0 <= start <= k -> k < seqlen c ->
  getKmer (seq c) k 0 = kmer ->
  exists m, reassign_getoffset c kmer start = m /\ start <= m <= k /\
            getKmer (seq c) m 0 = kmer.
Proof.
  intros Hkm Hs Hk Ek. unfold reassign_getoffset.
  assert (Hq : (kmer + 1) mod 2 ^ 64 <> kmer).
  { destruct (Z.eq_dec (kmer + 1) (2 ^ 64)) as [E|E].
    - rewrite E, Z.mod_same by lia. lia.
    - rewrite Z.mod_small by lia. lia. }
  destruct (getoffset_loop_finds kmer k Hk Ek (Z.to_nat (seqlen c - (start - 1)))
              (start - 1) _ Hq ltac:(lia) ltac:(lia))
    as (m & Em & Hm & Hkm' & _).
  rewrite Em, Z.eqb_refl. exists m. repeat split; auto; lia.
Qed.

(** The result of [reassign_testNs] is zero or an ambiguous position
    strictly inside [(start, end)]. *)
Lemma testNs_sound (Ns : list Z) (start end_ : Z) :
  reassign_testNs Ns start end_ = 0 \/
  (In (reassign_testNs Ns start end_) Ns /\
   start < reassign_testNs Ns start end_ < end_).
Proof.
  induction Ns as [|p Ns IH]; simpl; [now left|].
  destruct (Z.ltb_spec p end_); [|now left].
  destruct (Z.ltb_spec start p); simpl.
  - right. split; [now left|lia].
  - destruct IH as [IH|[IH1 IH2]]; [now left|right; split; auto].
Qed.

Lemma testNs_none (Ns : list Z) (start end_ : Z) :
  (forall p, In p Ns -> ~ (start < p < end_)) -> reassign_testNs Ns start end_ = 0.
Proof.
  induction Ns as [|p Ns IH]; intros H; simpl; [reflexivity|].
  destruct (Z.ltb_spec p end_); [|reflexivity].
  destruct (Z.ltb_spec start p); simpl.
  - exfalso. apply (H p); [now left|lia].
  - apply IH. intros p' Hp'. apply H. now right.
Qed.

(** On ascending positions [reassign_testNs] finds a position strictly
    inside [(start, end)] when there is one. *)
Lemma testNs_finds (Ns : list Z) (start end_ : Z) :
  StronglySorted Z.le Ns -> 0 <= start ->
  (exists p, In p Ns /\ start < p < end_) ->
  reassign_testNs Ns start end_ <> 0.
Proof.
  intros HS Hst. induction HS as [|p Ns HS IH Hall]; intros (w & Hw & Hr); simpl.
  - destruct Hw.
  - rewrite Forall_forall in Hall.
    destruct (Z.ltb_spec p end_) as [Hp|Hp].
    + destruct (Z.ltb_spec start p); simpl; [lia|].
      apply IH. exists w. split; [|exact Hr].
      destruct Hw as [->|Hw]; [lia|exact Hw].
    + destruct Hw as [->|Hw]; [lia|]. specialize (Hall w Hw). lia.
Qed.

End MatcherHelpers.

Section CmpseqsFacts.

Variables C Q : list Z.
Hypothesis HC : wf_words C.
Hypothesis HQ : wf_words Q.

Lemma cmpseqs_loop_spec (n : nat) :
  forall ti off,
    (exists r, cmpseqs_loop n C Q ti off = inl r /\ r <> 0 /\
               ~ (forall j, 0 <= j < Z.of_nat n ->
                            word Q (ti + j) = getKmer C (off + 32 * j) 0)) \/
    (cmpseqs_loop n C Q ti off = inr (ti + Z.of_nat n, off + 32 * Z.of_nat n) /\
     forall j, 0 <= j < Z.of_nat n -> word Q (ti + j) = getKmer C (off + 32 * j) 0).
Proof.
  induction n as [|n IH]; intros ti off.
  - right. cbn [cmpseqs_loop]. split; [f_equal; f_equal; lia|intros; lia].
  - cbn [cmpseqs_loop].
    destruct (Z.eqb_spec (word Q ti) (getKmer C off 0)) as [E|E]; cbn [negb].
    + destruct (IH (ti + 1) (off + 32)) as [(r & Er & Hr & Hn)|[Er Hall]].
      * left. exists r. repeat split; auto. intros Hall. apply Hn.
        intros j Hj. specialize (Hall (j + 1) ltac:(lia)).
        replace (ti + 1 + j) with (ti + (j + 1)) by lia.
        replace (off + 32 + 32 * j) with (off + 32 * (j + 1)) by lia. exact Hall.
      * right. rewrite Er. split; [f_equal; f_equal; lia|].
        intros j Hj. destruct (Z.eq_dec j 0) as [->|Hne].
        -- now rewrite Z.add_0_r, Z.mul_0_r, Z.add_0_r.
        -- specialize (Hall (j - 1) ltac:(lia)).
           replace (ti + 1 + (j - 1)) with (ti + j) in Hall by lia.
           replace (off + 32 + 32 * (j - 1)) with (off + 32 * j) in Hall by lia.
           exact Hall.
    + left. eexists. split; [reflexivity|]. split.
      * destruct (word Q ti <? getKmer C off 0); lia.
      * intros Hall. apply E. specialize (Hall 0 ltac:(lia)).
        now rewrite Z.add_0_r, Z.mul_0_r, Z.add_0_r in Hall.
Qed.

Lemma getNuc_zero_bits (W : list Z) (p : Z) :
  wf_words W -> 0 <= p -> getNuc W p = 0 ->
  sbit W (2 * p) = false /\ sbit W (2 * p + 1) = false.
Proof.
  intros HW Hp E.
  assert (H0 : wf_words []) by constructor.
  assert (E0 : getNuc W p = getNuc [] 0) by (rewrite E; reflexivity).
  apply (getNuc_eq_bits W [] p 0 HW H0 Hp ltac:(lia)) in E0.
  exact E0.
Qed.

(** A full word of the candidate is met in the consensus exactly when its
    32 bases are. *)
Lemma full_word_eq (p f : Z) :
  0 <= p -> 0 <= f ->
  (word Q f = getKmer C p 0 <->
   forall i, 0 <= i < 32 -> getNuc C (p + i) = getNuc Q (32 * f + i)).
Proof.
  intros Hp Hf. rewrite (word_getKmer Q f HQ Hf).
  change 0 with (64 - 2 * 32) at 1 3.
  rewrite (getKmer_eq_bases Q C (32 * f) p 32) by (auto; lia).
  split; intros H i Hi; symmetry; apply H, Hi.
Qed.

(** The masked last word is met exactly when its [r] bases are, provided
    that the bits behind them are zero in the candidate. *)
Lemma last_word_eq (p f r : Z) :
  0 <= p -> 0 <= f -> 1 <= r <= 31 ->
  (forall i, r <= i < 32 -> getNuc Q (32 * f + i) = 0) ->
  (word Q f = shl64 (getKmer C p (64 - 2 * r)) (64 - 2 * r) <->
   forall i, 0 <= i < r -> getNuc C (p + i) = getNuc Q (32 * f + i)).
Proof.
  intros Hp Hf Hr Hpad.
  assert (Hb : (forall i, 0 <= i < r -> getNuc C (p + i) = getNuc Q (32 * f + i))
               <-> getKmer Q (32 * f) (64 - 2 * r) = getKmer C p (64 - 2 * r)).
  { rewrite (getKmer_eq_bases Q C (32 * f) p r) by (auto; lia).
    split; intros H i Hi; symmetry; apply H, Hi. }
  rewrite Hb. set (sh := 64 - 2 * r) in *.
  rewrite (word_getKmer Q f HQ Hf). split.
  - intros E. apply Z.bits_inj'. intros i Hi.
    assert (Eb : Z.testbit (getKmer Q (32 * f) 0) (i + sh)
                 = Z.testbit (shl64 (getKmer C p sh) sh) (i + sh)) by now rewrite E.
    rewrite shl64_bit in Eb by lia.
    replace (i + sh - sh) with i in Eb by lia.
    rewrite !getKmer_bit in Eb |- * by (auto; lia).
    destruct (Z.ltb_spec (i + sh) 64); [|reflexivity].
    destruct (Z.ltb_spec (i + sh + 0) 64); [|lia].
    destruct (Z.leb_spec sh (i + sh)); [|lia]. cbn [andb] in Eb |- *.
    replace (2 * (32 * f) + 63 - sh - i) with (2 * (32 * f) + 63 - 0 - (i + sh)) by lia.
    exact Eb.
  - intros E. apply Z.bits_inj'. intros i Hi.
    rewrite shl64_bit by lia.
    rewrite getKmer_bit by (auto; lia).
    destruct (Z.ltb_spec (i + 0) 64); [|destruct (Z.ltb_spec i 64); [lia|reflexivity]].
    destruct (Z.ltb_spec i 64); [|lia]. cbn [andb].
    destruct (Z.leb_spec sh i) as [Hs|Hs]; cbn [andb].
    + rewrite <- E. rewrite getKmer_bit by (auto; lia).
      destruct (Z.ltb_spec (i - sh + sh) 64); [|lia]. cbn [andb].
      f_equal; lia.
    + (* a bit behind the last base *)
      assert (Hd : 63 - i = 2 * ((63 - i) / 2) + (63 - i) mod 2)
        by (apply Z.div_mod; lia).
      pose proof (Z.mod_pos_bound (63 - i) 2 ltac:(lia)) as Hm.
      assert (Hq : r <= (63 - i) / 2 < 32).
      { split; [apply Z.div_le_lower_bound; lia|apply Z.div_lt_upper_bound; lia]. }
      destruct (getNuc_zero_bits Q (32 * f + (63 - i) / 2) HQ ltac:(lia)
                  (Hpad _ Hq)) as [B0 B1].
      assert ((63 - i) mod 2 = 0 \/ (63 - i) mod 2 = 1) as [Em|Em] by lia.
      * replace (2 * (32 * f) + 63 - 0 - i) with (2 * (32 * f + (63 - i) / 2)) by lia.
        exact B0.
      * replace (2 * (32 * f) + 63 - 0 - i)
          with (2 * (32 * f + (63 - i) / 2) + 1) by lia.
        exact B1.
Qed.

End CmpseqsFacts.

Section MatcherFacts.

Variables c q : CompDNA.
Hypothesis Hc : wf_words (seq c).
Hypothesis Hq : wf_words (seq q).
Hypothesis Hpad : padded q.
Hypothesis Hlen : 32 <= seqlen q < 2 ^ 31.
Hypothesis Hrem : seqlen q mod 32 <> 0.

Lemma len_split :
  Z.shiftr (seqlen q) 5 = seqlen q / 32 /\ Z.land (seqlen q) 31 = seqlen q mod 32 /\
  1 <= seqlen q mod 32 <= 31 /\ 1 <= seqlen q / 32 < 2 ^ 26 /\
  seqlen q = 32 * (seqlen q / 32) + seqlen q mod 32.
Proof.
  change 31 with (Z.ones 5) at 1.
  rewrite Z.land_ones, Z.shiftr_div_pow2 by lia. change (2 ^ 5) with 32.
  pose proof (Z.mod_pos_bound (seqlen q) 32 ltac:(lia)).
  pose proof (Z.div_mod (seqlen q) 32 ltac:(lia)).
  repeat split; lia.
Qed.

(** When the candidate's length is not a multiple of 32, [reassign_cmpseqs]
    returns zero exactly at the offsets where the candidate occurs. *)
Lemma cmpseqs_zero_iff (m : Z) :
  0 <= m ->
  (reassign_cmpseqs (seq c) (seq q) (seqlen q) m = 0 <-> occurs_at c q m).
Proof.
  intros Hm.
  destruct len_split as (Ef & Er & Hr & Hf & Hd).
  unfold reassign_cmpseqs. rewrite Ef, Er.
  set (f := seqlen q / 32) in *. set (r := seqlen q mod 32) in *.
  destruct (Z.ltb_spec m 0) as [Hm0|Hm0]; [lia|].
  destruct (Z.eqb_spec r 0) as [Hr0'|Hr0']; [lia|]. cbn [negb].
  replace ((f + 1 - 1) mod 2 ^ 32) with f by (rewrite Z.mod_small; lia).
  assert (Hfull : (forall j, 0 <= j < Z.of_nat (Z.to_nat f) ->
                     word (seq q) (0 + j) = getKmer (seq c) (m + 32 * j) 0)
                  <-> forall i, 0 <= i < 32 * f ->
                        getNuc (seq c) (m + i) = getNuc (seq q) i).
  { split.
    - intros H i Hi.
      pose proof (Z.div_mod i 32 ltac:(lia)) as Hdi.
      pose proof (Z.mod_pos_bound i 32 ltac:(lia)) as Hmi.
      assert (Hj : 0 <= i / 32 < Z.of_nat (Z.to_nat f)).
      { rewrite Z2Nat.id by lia. split; [apply Z.div_pos; lia|].
        apply Z.div_lt_upper_bound; lia. }
      specialize (H _ Hj). rewrite Z.add_0_l in H.
      pose proof (proj1 (full_word_eq (seq c) (seq q) Hc Hq (m + 32 * (i / 32))
                           (i / 32) ltac:(lia) ltac:(lia)) H (i mod 32) Hmi) as H'.
      replace (m + 32 * (i / 32) + i mod 32) with (m + i) in H' by lia.
      replace (32 * (i / 32) + i mod 32) with i in H' by lia. exact H'.
    - intros H j Hj. rewrite Z2Nat.id in Hj by lia. rewrite Z.add_0_l.
      apply (proj2 (full_word_eq (seq c) (seq q) Hc Hq (m + 32 * j) j
                      ltac:(lia) ltac:(lia))).
      intros i Hi. replace (m + 32 * j + i) with (m + (32 * j + i)) by lia.
      apply H. lia. }
  assert (Hlast : word (seq q) f
                  = shl64 (getKmer (seq c) (m + 32 * f) (64 - 2 * r)) (64 - 2 * r)
                  <-> forall i, 0 <= i < r ->
                        getNuc (seq c) (m + (32 * f + i)) = getNuc (seq q) (32 * f + i)).
  { rewrite (last_word_eq (seq c) (seq q) Hc Hq (m + 32 * f) f r) by
      (try lia; intros i Hi; apply Hpad; lia).
    split; intros H i Hi; specialize (H i Hi);
      [replace (m + (32 * f + i)) with (m + 32 * f + i) by lia
      |replace (m + 32 * f + i) with (m + (32 * f + i)) by lia]; exact H. }
  destruct (cmpseqs_loop_spec (seq c) (seq q) (Z.to_nat f) 0 m)
    as [(r0 & E0 & Hr0 & Hn)|[E0 Hall]]; rewrite E0.
  - split; [intros; contradiction|].
    intros Hocc. exfalso. apply Hn, Hfull. intros i Hi. apply Hocc. lia.
  - rewrite Z2Nat.id by lia. rewrite Z.add_0_l.
    rewrite Z.shiftl_mul_pow2 by lia. change (2 ^ 1) with 2.
    replace (r * 2) with (2 * r) by lia.
    destruct (Z.eqb_spec (word (seq q) f)
                (shl64 (getKmer (seq c) (m + 32 * f) (64 - 2 * r)) (64 - 2 * r)))
      as [E|E]; cbn [negb].
    + split; [intros _|reflexivity].
      intros i Hi. destruct (Z.lt_ge_cases i (32 * f)) as [Hlt|Hge].
      * apply (proj1 Hfull Hall). lia.
      * pose proof (proj1 Hlast E (i - 32 * f) ltac:(lia)) as H.
        replace (32 * f + (i - 32 * f)) with i in H by lia. exact H.
    + split.
      * destruct (word (seq q) f <? _); lia.
      * intros Hocc. exfalso. apply E, Hlast. intros i Hi. apply Hocc. lia.
Qed.

(** Where the candidate occurs, its leading word is the 32-mer of the
    consensus. *)
Lemma occurs_first_word (m : Z) :
  0 <= m -> occurs_at c q m -> getKmer (seq c) m 0 = word (seq q) 0.
Proof.
  intros Hm Hocc. symmetry.
  apply (proj2 (full_word_eq (seq c) (seq q) Hc Hq m 0 Hm ltac:(lia))).
  intros i Hi. rewrite Z.mul_0_r, Z.add_0_l. apply Hocc. lia.
Qed.

Hypothesis HN : StronglySorted Z.le (N c).

Variable k : Z.
Hypothesis Hk : 0 <= k /\ k + seqlen q <= seqlen c.
Hypothesis Hocc : occurs_at c q k.
Hypothesis Hfree : N_free c k (k + seqlen q).
Hypothesis Hfirst :
  forall m, 0 <= m < k -> occurs_at c q m -> N_inside c m (m + seqlen q).

(** The seek-match-extend loop, entered at any point before [k], stops at
    [k]. *)
Lemma matchseqs_loop_finds (fuel : nat) :
  forall start match_,
    match_ <> 0 -> -1 <= start < k -> k - start <= Z.of_nat fuel ->
    matchseqs_loop fuel c q start match_ = Some (k, 0).
Proof.
  induction fuel as [|fuel IH]; intros start match_ Hm Hs Hf; [lia|].
  cbn [matchseqs_loop].
  destruct (Z.eqb_spec match_ 0); [contradiction|]. cbn [negb].
  destruct (Z.leb_spec 0 (start + 1)); [|lia].
  destruct (Z.leb_spec (seqlen q) (seqlen c - (start + 1))); [|lia]. cbn [andb].
  destruct (getoffset_finds c (word (seq q) 0) (start + 1) k
              (word_range _ _ Hq) ltac:(lia) ltac:(lia)
              (occurs_first_word k ltac:(lia) Hocc))
    as (m & Em & Hmk & Hkm).
  rewrite Em. destruct (Z.leb_spec 0 m); [|lia].
  destruct (Z.eq_dec m k) as [->|Hne].
  - rewrite (proj2 (cmpseqs_zero_iff k ltac:(lia)) Hocc). cbn [Z.eqb].
    rewrite testNs_none by (intros p Hp Hr; apply (Hfree p Hp); lia).
    cbn [Z.eqb negb]. destruct fuel; reflexivity.
  - destruct (Z.eqb_spec (reassign_cmpseqs (seq c) (seq q) (seqlen q) m) 0) as [E|E].
    + apply (cmpseqs_zero_iff m ltac:(lia)) in E.
      pose proof (Hfirst m ltac:(lia) E) as Hin.
      pose proof (testNs_finds (N c) m (m + seqlen q) HN ltac:(lia) Hin) as Hnz.
      destruct (testNs_sound (N c) m (m + seqlen q)) as [E0|[Hin' Hr]];
        [contradiction|].
      set (t := reassign_testNs (N c) m (m + seqlen q)) in *.
      destruct (Z.eqb_spec t 0); [contradiction|]. cbn [negb].
      assert (t < k).
      { destruct (Z.lt_ge_cases t k); auto. exfalso. apply (Hfree t Hin'). lia. }
      apply IH; auto; lia.
    + apply IH; auto; lia.
Qed.

(** The feasibility scan does not give up before [k] and leaves a start
    position at or before [k]. *)
Lemma matchseqs_Ns_before (Ns : list Z) :
  forall start,
    (forall p, In p Ns -> In p (N c)) -> Forall (fun p => 0 <= p) Ns ->
    0 <= start <= k ->
    exists s, matchseqs_Ns Ns (seqlen c) (seqlen q) start = Some s /\ 0 <= s <= k.
Proof.
  induction Ns as [|p Ns IH]; intros start Hin Hpos Hs; cbn [matchseqs_Ns].
  - now exists start.
  - destruct (Z.leb_spec (seqlen q) (p - start)); [now exists start|].
    assert (Hp : p < k).
    { destruct (Z.lt_ge_cases p k); auto. exfalso.
      apply (Hfree p (Hin p (or_introl eq_refl))). lia. }
    destruct (Z.ltb_spec (seqlen c - p) (seqlen q)); [lia|].
    inversion Hpos; subst.
    apply IH; auto; [intros p' Hp'; apply Hin; now right|lia].
Qed.

End MatcherFacts.

Section MatcherNoMatch.

Variables c q : CompDNA.

Lemma getoffset_loop_range (kmer : Z) (n : nat) :
  forall offset qmer qm' o',
    getoffset_loop n c kmer qmer offset = (qm', o') -> qm' = kmer ->
    (qmer = kmer /\ o' = offset) \/
    (offset < o' < seqlen c /\ getKmer (seq c) o' 0 = kmer).
Proof.
  induction n as [|n IH]; intros offset qmer qm' o' E Ek; cbn [getoffset_loop] in E.
  - destruct (Z.eqb_spec qmer kmer).
    + injection E as <- <-. now left.
    + destruct (offset + 1 <? seqlen c); injection E as <- <-; contradiction.
  - destruct (Z.eqb_spec qmer kmer).
    + injection E as <- <-. now left.
    + destruct (Z.ltb_spec (offset + 1) (seqlen c)).
      * destruct (IH _ _ _ _ E Ek) as [[E1 ->]|[H1 H2]]; right.
        -- split; [lia|exact E1].
        -- split; [lia|exact H2].
      * injection E as <- <-; contradiction.
Qed.

Lemma getoffset_range (kmer start : Z) :
  0 <= kmer < 2 ^ 64 ->
  reassign_getoffset c kmer start = -1 \/
  (start <= reassign_getoffset c kmer start < seqlen c /\
   getKmer (seq c) (reassign_getoffset c kmer start) 0 = kmer).
Proof.
  intros Hk. unfold reassign_getoffset.
  assert (Hq : (kmer + 1) mod 2 ^ 64 <> kmer).
  { destruct (Z.eq_dec (kmer + 1) (2 ^ 64)) as [E|E].
    - rewrite E, Z.mod_same by lia. lia.
    - rewrite Z.mod_small by lia. lia. }
  destruct (getoffset_loop _ c kmer _ (start - 1)) as [qm o] eqn:E.
  destruct (Z.eqb_spec qm kmer) as [Eq|Eq]; [|now left].
  destruct (getoffset_loop_range kmer _ _ _ _ _ E Eq) as [[E1 _]|[H1 H2]];
    [contradiction|].
  right. split; [lia|exact H2].
Qed.

Lemma matchseqs_Ns_nonneg (Ns : list Z) :
  forall start s,
    Forall (fun p => 0 <= p) Ns -> 0 <= start ->
    matchseqs_Ns Ns (seqlen c) (seqlen q) start = Some s -> 0 <= s.
Proof.
  induction Ns as [|p Ns IH]; intros start s Hpos Hs E; cbn [matchseqs_Ns] in E.
  - injection E as <-; exact Hs.
  - inversion Hpos; subst.
    destruct (seqlen q <=? p - start); [injection E as <-; exact Hs|].
    destruct (seqlen c - p <? seqlen q); [discriminate|].
    apply (IH (p + 1) s); auto; lia.
Qed.

(** The loop leaves at once, without a match, when the candidate no longer
    fits behind the next start position. *)
Lemma matchseqs_loop_exit (fuel : nat) (start match_ : Z) :
  match_ <> 0 -> seqlen c - (start + 1) < seqlen q ->
  matchseqs_loop fuel c q start match_ = Some (start + 1, match_).
Proof.
  intros Hm Hs.
  destruct fuel; cbn [matchseqs_loop];
    destruct (Z.eqb_spec match_ 0); try contradiction; cbn [negb];
    destruct (Z.leb_spec (seqlen q) (seqlen c - (start + 1))); try lia;
    now rewrite andb_false_r.
Qed.

(** When no window of [seqlen q] bases is free of ambiguous positions, the
    feasibility scan gives up or leaves a start position behind which the
    candidate does not fit. *)
Lemma matchseqs_Ns_infeasible (Ns : list Z) :
  StronglySorted Z.le Ns ->
  (forall m, 0 <= m -> m + seqlen q <= seqlen c ->
             exists p, In p (N c) /\ m <= p < m + seqlen q) ->
  forall start,
    0 <= start -> Forall (fun p => start - 1 <= p < seqlen c) Ns ->
    (forall w, In w (N c) -> w < start \/ In w Ns) ->
    matchseqs_Ns Ns (seqlen c) (seqlen q) start = None \/
    exists s, matchseqs_Ns Ns (seqlen c) (seqlen q) start = Some s /\
              0 <= s /\ seqlen c - s < seqlen q.
Proof.
  intros HS Hwin. induction HS as [|p Ns HS IH Hall]; intros start Hs Hr Hinv;
    cbn [matchseqs_Ns].
  - right. exists start. repeat split; auto.
    destruct (Z.lt_ge_cases (seqlen c - start) (seqlen q)); auto.
    destruct (Hwin start Hs ltac:(lia)) as (w & Hw & Hwr).
    destruct (Hinv w Hw) as [H1|[]]. lia.
  - inversion Hr as [|? ? Hp Hr']; subst. rewrite Forall_forall in Hall.
    destruct (Z.leb_spec (seqlen q) (p - start)).
    + exfalso. destruct (Hwin start Hs ltac:(lia)) as (w & Hw & Hwr).
      destruct (Hinv w Hw) as [H1|[->|H1]]; try lia.
      specialize (Hall w H1). lia.
    + destruct (Z.ltb_spec (seqlen c - p) (seqlen q)); [now left|].
      apply IH; [lia| |].
      * apply Forall_forall. intros p' Hp'. specialize (Hall p' Hp').
        rewrite Forall_forall in Hr'. specialize (Hr' p' Hp'). lia.
      * intros w Hw.
        destruct (Hinv w Hw) as [H1|[->|H1]]; [left; lia|left; lia|now right].
Qed.

Hypothesis Hc : wf_words (seq c).
Hypothesis Hq : wf_words (seq q).
Hypothesis Hpad : padded q.
Hypothesis Hlen : 32 <= seqlen q < 2 ^ 31.
Hypothesis Hrem : seqlen q mod 32 <> 0.
Hypothesis HN : StronglySorted Z.le (N c).
Hypothesis Hall :
  forall m, 0 <= m -> occurs_at c q m -> N_inside c m (m + seqlen q).
Hypothesis Hshort : seqlen c <= 2 * seqlen q.

(** When every occurrence of the candidate has an ambiguous position
    strictly inside, the loop ends without a match. *)
Lemma matchseqs_loop_none (fuel : nat) :
  forall start match_,
    match_ <> 0 -> -1 <= start -> seqlen c - start <= Z.of_nat fuel ->
    exists s' m', matchseqs_loop fuel c q start match_ = Some (s', m') /\ m' <> 0.
Proof.
  induction fuel as [|fuel IH]; intros start match_ Hm Hs Hf.
  - rewrite matchseqs_loop_exit by (auto; lia). now exists (start + 1), match_.
  - destruct (Z.lt_ge_cases (seqlen c - (start + 1)) (seqlen q)) as [Hx|Hx].
    { rewrite matchseqs_loop_exit by auto. now exists (start + 1), match_. }
    cbn [matchseqs_loop].
    destruct (Z.eqb_spec match_ 0); [contradiction|]. cbn [negb].
    destruct (Z.leb_spec 0 (start + 1)); [|lia].
    destruct (Z.leb_spec (seqlen q) (seqlen c - (start + 1))); [|lia]. cbn [andb].
    (* what happens at the position [st] chosen by the seek step *)
    assert (Hstep : forall st,
              0 <= st ->
              (start + 1 <= st < seqlen c \/ st = seqlen q) ->
              exists s' m',
                (if reassign_cmpseqs (seq c) (seq q) (seqlen q) st =? 0
                 then
                   if negb (reassign_testNs (N c) st (st + seqlen q) =? 0)
                   then matchseqs_loop fuel c q
                          (reassign_testNs (N c) st (st + seqlen q))
                          (reassign_testNs (N c) st (st + seqlen q))
                   else matchseqs_loop fuel c q st 0
                 else matchseqs_loop fuel c q st
                        (reassign_cmpseqs (seq c) (seq q) (seqlen q) st))
                = Some (s', m') /\ m' <> 0).
    { intros st Hst Hcase.
      destruct (Z.eqb_spec (reassign_cmpseqs (seq c) (seq q) (seqlen q) st) 0)
        as [E|E].
      - apply (cmpseqs_zero_iff c q Hc Hq Hpad Hlen Hrem st Hst) in E.
        pose proof (Hall st Hst E) as Hin.
        pose proof (testNs_finds (N c) st (st + seqlen q) HN Hst Hin) as Hnz.
        destruct (testNs_sound (N c) st (st + seqlen q)) as [E0|[_ Hr]];
          [contradiction|].
        set (t := reassign_testNs (N c) st (st + seqlen q)) in *.
        destruct (Z.eqb_spec t 0); [contradiction|]. cbn [negb].
        destruct Hcase as [Hin1| ->].
        + apply IH; auto; lia.
        + rewrite matchseqs_loop_exit by (auto; lia). now exists (t + 1), t.
      - destruct Hcase as [Hin1| ->].
        + apply IH; auto; lia.
        + rewrite matchseqs_loop_exit by (auto; lia). eauto. }
    destruct (getoffset_range (word (seq q) 0) (start + 1) (word_range _ _ Hq))
      as [E|[Hr _]].
    + rewrite E. cbn [Z.leb Z.compare]. apply Hstep; [lia|now right].
    + set (m := reassign_getoffset c (word (seq q) 0) (start + 1)) in *.
      destruct (Z.leb_spec 0 m); [|lia]. apply Hstep; [lia|now left].
Qed.

End MatcherNoMatch.

(** ** Deciding the hypotheses on concrete sequences *)

Section Deciders.

Lemma zrange_In (n i : Z) : In i (zrange n) <-> 0 <= i < n.
Proof.
  unfold zrange. rewrite in_map_iff. split.
  - intros (x & <- & Hx). apply in_seq in Hx. lia.
  - intros H. exists (Z.to_nat i). split; [lia|]. apply in_seq. lia.
Qed.

Lemma occurs_atb_iff (c q : CompDNA) (m : Z) :
  occurs_atb c q m = true <-> occurs_at c q m.
Proof.
  unfold occurs_atb, occurs_at. rewrite forallb_forall. split.
  - intros H i Hi. apply Z.eqb_eq, H, zrange_In, Hi.
  - intros H i Hi. apply Z.eqb_eq, H, zrange_In, Hi.
Qed.

Lemma N_insideb_iff (c : CompDNA) (a b : Z) :
  N_insideb c a b = true <-> N_inside c a b.
Proof.
  unfold N_insideb, N_inside. rewrite existsb_exists.
  split; intros (p & Hp & H); exists p; split; auto.
  - apply andb_true_iff in H as [H1 H2]. apply Z.ltb_lt in H1, H2. lia.
  - apply andb_true_iff. split; apply Z.ltb_lt; lia.
Qed.

Lemma N_freeb_true (c : CompDNA) (a b : Z) : N_freeb c a b = true -> N_free c a b.
Proof.
  unfold N_freeb, N_free. rewrite forallb_forall. intros H p Hp Hr.
  specialize (H p Hp). apply negb_true_iff, andb_false_iff in H.
  destruct H as [H|H]; [apply Z.leb_gt in H|apply Z.ltb_ge in H]; lia.
Qed.

Lemma wf_wordsb_true (W : list Z) : wf_wordsb W = true -> wf_words W.
Proof.
  unfold wf_wordsb, wf_words. rewrite forallb_forall, Forall_forall.
  intros H w Hw. specialize (H w Hw). apply andb_true_iff in H as [H1 H2].
  apply Z.leb_le in H1. apply Z.ltb_lt in H2. lia.
Qed.

Lemma getNuc_outside (W : list Z) (i : Z) :
  32 * Z.of_nat (length W) <= i -> getNuc W i = 0.
Proof.
  intros H. unfold getNuc.
  destruct (pos_split i ltac:(lia)) as [_ ->].
  assert (Hd : Z.of_nat (length W) <= i / 32) by (apply Z.div_le_lower_bound; lia).
  unfold word. destruct (Z.ltb_spec (i / 32) 0); [lia|].
  rewrite nth_overflow by lia. unfold shl64. now rewrite Z.shiftl_0_l.
Qed.

Lemma paddedb_true (q : CompDNA) : 0 <= seqlen q -> paddedb q = true -> padded q.
Proof.
  unfold paddedb, padded. rewrite forallb_forall. intros Hl H i Hi.
  destruct (Z.lt_ge_cases i (32 * Z.of_nat (length (seq q)))) as [Hlt|Hge].
  - specialize (H (i - seqlen q)). rewrite zrange_In in H.
    specialize (H ltac:(lia)). apply Z.eqb_eq in H.
    now replace (seqlen q + (i - seqlen q)) with i in H by lia.
  - now apply getNuc_outside.
Qed.

Lemma blockedb_true (c q : CompDNA) (k : Z) :
  blockedb c q k = true ->
  forall m, 0 <= m < k -> occurs_at c q m -> N_inside c m (m + seqlen q).
Proof.
  unfold blockedb. rewrite forallb_forall. intros H m Hm Hocc.
  specialize (H m (proj2 (zrange_In k m) Hm)).
  apply occurs_atb_iff in Hocc. rewrite Hocc in H. cbn [negb orb] in H.
  now apply N_insideb_iff.
Qed.

(** A candidate whose first base is not [A] does not occur behind the words
    of the consensus. *)
Lemma occurs_bound (c q : CompDNA) (m : Z) :
  0 < seqlen q -> getNuc (seq q) 0 <> 0 -> 0 <= m -> occurs_at c q m ->
  m < 32 * Z.of_nat (length (seq c)).
Proof.
  intros Hl Hq Hm Hocc.
  destruct (Z.lt_ge_cases m (32 * Z.of_nat (length (seq c)))) as [H|H]; [exact H|].
  exfalso. apply Hq. rewrite <- (Hocc 0 ltac:(lia)), Z.add_0_r.
  now apply getNuc_outside.
Qed.

Lemma ascendingb_true (l : list Z) : ascendingb l = true -> StronglySorted Z.le l.
Proof.
  induction l as [|x l IH]; cbn [ascendingb]; intros H; constructor.
  - apply IH. now apply andb_true_iff in H as [_ H].
  - apply andb_true_iff in H as [H _]. rewrite forallb_forall in H.
    apply Forall_forall. intros y Hy. apply Z.leb_le, H, Hy.
Qed.

End Deciders.

(** ** Fuel *)

Section Fuel.

Variables c q : CompDNA.

Lemma matchseqs_loop_eq (fuel : nat) (start match_ : Z) :
  matchseqs_loop (S fuel) c q start match_ =
  if negb (match_ =? 0) then
    if (0 <=? start + 1) && (seqlen q <=? seqlen c - (start + 1)) then
      let m := reassign_getoffset c (word (seq q) 0) (start + 1) in
      let st := if 0 <=? m then m else seqlen q in
      let cm := reassign_cmpseqs (seq c) (seq q) (seqlen q) st in
      if cm =? 0 then
        let t := reassign_testNs (N c) st (st + seqlen q) in
        if negb (t =? 0) then matchseqs_loop fuel c q t t
        else matchseqs_loop fuel c q st 0
      else matchseqs_loop fuel c q st cm
    else Some (start + 1, match_)
  else Some (start, match_).
Proof. reflexivity. Qed.

Lemma matchseqs_loop_O (start match_ : Z) :
  matchseqs_loop O c q start match_ =
  if negb (match_ =? 0) then
    if (0 <=? start + 1) && (seqlen q <=? seqlen c - (start + 1)) then None
    else Some (start + 1, match_)
  else Some (start, match_).
Proof. reflexivity. Qed.

Lemma matchseqs_loop_S (fuel : nat) :
  forall start match_ r,
    matchseqs_loop fuel c q start match_ = Some r ->
    matchseqs_loop (S fuel) c q start match_ = Some r.
Proof.
  induction fuel as [|fuel IH]; intros start match_ r H.
  - rewrite matchseqs_loop_O in H. rewrite matchseqs_loop_eq.
    destruct (negb (match_ =? 0)); auto.
    destruct ((0 <=? start + 1) && (seqlen q <=? seqlen c - (start + 1)));
      [discriminate|auto].
  - rewrite matchseqs_loop_eq in H. rewrite matchseqs_loop_eq.
    destruct (negb (match_ =? 0)); auto.
    destruct ((0 <=? start + 1) && (seqlen q <=? seqlen c - (start + 1))); auto.
    cbv zeta in H |- *.
    destruct (reassign_cmpseqs _ _ _ _ =? 0).
    + destruct (negb (reassign_testNs _ _ _ =? 0)); apply IH, H.
    + apply IH, H.
Qed.

Lemma matchseqs_loop_mono (fuel fuel' : nat) (start match_ : Z) r :
  (fuel <= fuel')%nat ->
  matchseqs_loop fuel c q start match_ = Some r ->
  matchseqs_loop fuel' c q start match_ = Some r.
Proof.
  induction 1 as [|f Hle IH]; auto. intros H. apply matchseqs_loop_S, IH, H.
Qed.

(** A result obtained with some fuel is obtained with any larger fuel. *)
Lemma matchseqs_mono (fuel fuel' : nat) (r : Z) :
  (fuel <= fuel')%nat ->
  reassign_matchseqs fuel c q = Some r -> reassign_matchseqs fuel' c q = Some r.
Proof.
  intros Hle. unfold reassign_matchseqs.
  destruct (matchseqs_Ns _ _ _ _) as [s|]; auto.
  destruct (matchseqs_loop fuel c q (s - 1) 1) as [[s1 m1]|] eqn:E; [|discriminate].
  now rewrite (matchseqs_loop_mono fuel fuel' _ _ _ Hle E).
Qed.

End Fuel.

(** ** The matcher: completeness, soundness and strand fallback *)

Section MatcherResults.

Import Vectors.

Lemma matchseqs_found (c q : CompDNA) (k : Z) (fuel : nat) :
  wf_words (seq c) -> wf_words (seq q) -> padded q ->
  StronglySorted Z.le (N c) -> Forall (fun p => 0 <= p < seqlen c) (N c) ->
  32 <= seqlen q < 2 ^ 31 -> seqlen q mod 32 <> 0 ->
  0 <= k -> k + seqlen q <= seqlen c ->
  occurs_at c q k -> N_free c k (k + seqlen q) ->
  (forall m, 0 <= m < k -> occurs_at c q m -> N_inside c m (m + seqlen q)) ->
  (Z.to_nat k < fuel)%nat ->
  reassign_matchseqs fuel c q = Some k.
Proof.
  intros Hc Hq Hpad HN HNr Hlen Hrem Hk0 Hk1 Hocc Hfree Hfirst Hfuel.
  unfold reassign_matchseqs.
  destruct (matchseqs_Ns_before c q Hlen k (conj Hk0 Hk1) Hfree (N c) 0 (fun p H => H))
    as (s & Es & Hs).
  { eapply Forall_impl; [|exact HNr]. simpl; intros; lia. }
  { lia. }
  rewrite Es.
  rewrite (matchseqs_loop_finds c q Hc Hq Hpad Hlen Hrem HN k (conj Hk0 Hk1)
             Hocc Hfree Hfirst fuel (s - 1) 1) by lia.
  reflexivity.
Qed.

Lemma matchseqs_blocked (c q : CompDNA) (fuel : nat) :
  wf_words (seq c) -> wf_words (seq q) -> padded q ->
  StronglySorted Z.le (N c) -> Forall (fun p => 0 <= p < seqlen c) (N c) ->
  32 <= seqlen q < 2 ^ 31 -> seqlen q mod 32 <> 0 ->
  (forall m, 0 <= m -> occurs_at c q m -> N_inside c m (m + seqlen q)) ->
  seqlen c <= 2 * seqlen q ->
  (Z.to_nat (seqlen c) < fuel)%nat ->
  reassign_matchseqs fuel c q = Some (-1).
Proof.
  intros Hc Hq Hpad HN HNr Hlen Hrem Hall Hshort Hfuel.
  unfold reassign_matchseqs.
  destruct (matchseqs_Ns (N c) (seqlen c) (seqlen q) 0) as [s|] eqn:Es; auto.
  assert (Hs : 0 <= s).
  { apply (matchseqs_Ns_nonneg c q (N c) 0 s); auto; [|lia].
    eapply Forall_impl; [|exact HNr]. simpl; intros; lia. }
  destruct (matchseqs_loop_none c q Hc Hq Hpad Hlen Hrem HN Hall Hshort fuel (s - 1) 1)
    as (s' & m' & E & Hm'); try lia.
  rewrite E. destruct (Z.eqb_spec m' 0); [contradiction|reflexivity].
Qed.

Lemma matchseqs_infeasible (c q : CompDNA) (fuel : nat) :
  StronglySorted Z.le (N c) -> Forall (fun p => 0 <= p < seqlen c) (N c) ->
  (forall m, 0 <= m -> m + seqlen q <= seqlen c ->
             exists p, In p (N c) /\ m <= p < m + seqlen q) ->
  reassign_matchseqs fuel c q = Some (-1).
Proof.
  intros HN HNr Hwin. unfold reassign_matchseqs.
  destruct (matchseqs_Ns_infeasible c q (N c) HN Hwin 0) as [E|(s & E & Hs & Hx)];
    try lia.
  - eapply Forall_impl; [|exact HNr]. simpl; intros; lia.
  - intros w Hw; now right.
  - now rewrite E.
  - rewrite E.
    rewrite (matchseqs_loop_exit c q fuel (s - 1) 1) by lia. reflexivity.
Qed.

(** A candidate whose only placement starts on an ambiguous position is
    reported at that position: [reassign_testNs] looks for an ambiguous
    position strictly behind the start. *)
Lemma matchseqs_N_at_start :
  filter (occurs_atb n_at_start a_g32) (zrange 128) = [34] /\
  In 34 (N n_at_start) /\ reassign_matchseqs 1 n_at_start a_g32 = Some 34.
Proof. vm_compute. auto. Qed.

(** A candidate that occurs nowhere is not always answered: when the seek
    step finds nothing, the loop restarts from [start = qseq->seqlen], and
    on a consensus of more than twice the candidate's length it comes back
    to that point for ever. *)
Lemma matchseqs_loop_cycles (fuel : nat) :
  forall m, m <> 0 -> matchseqs_loop fuel c70 g33 33 m = None.
Proof.
  assert (Eg : reassign_getoffset c70 (word (seq g33) 0) (33 + 1) = -1)
    by (vm_compute; reflexivity).
  assert (Ec : reassign_cmpseqs (seq c70) (seq g33) (seqlen g33) (seqlen g33) = 1)
    by (vm_compute; reflexivity).
  induction fuel as [|fuel IH]; intros m Hm.
  - rewrite matchseqs_loop_O.
    destruct (Z.eqb_spec m 0); [contradiction|reflexivity].
  - rewrite matchseqs_loop_eq.
    destruct (Z.eqb_spec m 0); [contradiction|]. cbn [negb].
    change ((0 <=? 33 + 1) && (seqlen g33 <=? seqlen c70 - (33 + 1))) with true.
    cbv zeta. rewrite Eg. cbn [Z.leb Z.compare]. rewrite Ec. cbn [Z.eqb].
    apply IH. discriminate.
Qed.

Lemma matchseqs_cycles (fuel : nat) : reassign_matchseqs fuel c70 g33 = None.
Proof.
  assert (Eg : reassign_getoffset c70 (word (seq g33) 0) (0 - 1 + 1) = -1)
    by (vm_compute; reflexivity).
  assert (Ec : reassign_cmpseqs (seq c70) (seq g33) (seqlen g33) (seqlen g33) = 1)
    by (vm_compute; reflexivity).
  unfold reassign_matchseqs. cbn [matchseqs_Ns N c70].
  destruct fuel as [|fuel]; [reflexivity|].
  rewrite matchseqs_loop_eq. cbn [Z.eqb negb].
  change ((0 <=? 0 - 1 + 1) && (seqlen g33 <=? seqlen c70 - (0 - 1 + 1))) with true.
  cbv zeta. rewrite Eg. cbn [Z.leb Z.compare]. rewrite Ec. cbn [Z.eqb].
  change (seqlen g33) with 33.
  rewrite (matchseqs_loop_cycles fuel 1) by discriminate. reflexivity.
Qed.

(** C1: [reassign_matchseqs] does not return the offset of the candidate.
    (1) On the consensus [A^64 T^32], which has no ambiguous position, the
    candidate [A^32 T^32] is the subsequence at offset 32 and at no other
    offset, and [reassign_matchseqs] returns 0 for every fuel, not 32: the
    seek step finds the candidate's first word at offset 0, and
    [reassign_cmpseqs], whose loop compares one word less than the
    candidate has and whose last word is checked only when it is partial,
    accepts that offset although the bases differ from position 32 on.
    (2) On a consensus of 70 bases with the ambiguous position 34, a
    candidate whose only placement is at offset 34, on the ambiguous
    position, is reported at 34 and not rejected.  (3) On the consensus
    [C^70] the candidate [G^33], which occurs nowhere, is never answered,
    whatever the fuel. *)
Theorem C1_matcher_incorrect :
  (occurs_at a64t32 a32t32 32 /\ N_free a64t32 32 (32 + seqlen a32t32) /\
   (forall m, 0 <= m -> occurs_at a64t32 a32t32 m -> m = 32) /\
   reassign_cmpseqs (seq a64t32) (seq a32t32) (seqlen a32t32) 0 = 0 /\
   forall fuel, (0 < fuel)%nat -> reassign_matchseqs fuel a64t32 a32t32 = Some 0) /\
  (occurs_at n_at_start a_g32 34 /\
   (forall m, 0 <= m -> occurs_at n_at_start a_g32 m -> m = 34) /\
   In 34 (N n_at_start) /\
   forall fuel, (0 < fuel)%nat -> reassign_matchseqs fuel n_at_start a_g32 = Some 34) /\
  (forall m, 0 <= m -> ~ occurs_at c70 g33 m) /\
  (forall fuel, reassign_matchseqs fuel c70 g33 = None).
Proof.
  assert (Hb : forall c q i m,
             0 <= i < seqlen q -> getNuc (seq q) i <> 0 ->
             32 * Z.of_nat (length (seq c)) <= 128 ->
             0 <= m -> occurs_at c q m -> In m (zrange 128)).
  { intros c q i m Hi Hq Hw Hm Hocc. apply zrange_In. split; [exact Hm|].
    destruct (Z.lt_ge_cases m 128) as [Hlt|Hge]; [exact Hlt|]. exfalso.
    apply Hq. rewrite <- (Hocc i Hi). apply getNuc_outside. lia. }
  split; [|split; [|split]].
  - split; [apply occurs_atb_iff; vm_compute; reflexivity|].
    split; [apply N_freeb_true; vm_compute; reflexivity|].
    split; [|split; [vm_compute; reflexivity|]].
    + intros m Hm Hocc.
      assert (Hin : In m (filter (occurs_atb a64t32 a32t32) (zrange 128))).
      { refine (proj2 (filter_In _ m _) (conj _ (proj2 (occurs_atb_iff _ _ _) Hocc))).
        apply (Hb a64t32 a32t32 32 m); auto; [simpl; lia|vm_compute; discriminate|].
        simpl; lia. }
      vm_compute in Hin. destruct Hin as [<-|[]]. reflexivity.
    + intros fuel Hf.
      apply (matchseqs_mono a64t32 a32t32 1 fuel 0); [lia|vm_compute; reflexivity].
  - split; [apply occurs_atb_iff; vm_compute; reflexivity|].
    split; [|split; [now left|]].
    + intros m Hm Hocc.
      assert (Hin : In m (filter (occurs_atb n_at_start a_g32) (zrange 128))).
      { refine (proj2 (filter_In _ m _) (conj _ (proj2 (occurs_atb_iff _ _ _) Hocc))).
        apply (Hb n_at_start a_g32 1 m); auto; [simpl; lia|vm_compute; discriminate|].
        simpl; lia. }
      vm_compute in Hin. destruct Hin as [<-|[]]. reflexivity.
    + intros fuel Hf.
      apply (matchseqs_mono n_at_start a_g32 1 fuel 34); [lia|vm_compute; reflexivity].
  - intros m Hm Hocc.
    assert (Hin : In m (filter (occurs_atb c70 g33) (zrange 128))).
    { refine (proj2 (filter_In _ m _) (conj _ (proj2 (occurs_atb_iff _ _ _) Hocc))).
      apply (Hb c70 g33 0 m); auto; [simpl; lia|vm_compute; discriminate|].
      simpl; lia. }
    vm_compute in Hin. destruct Hin.
  - apply matchseqs_cycles.
Qed.

(** X26 ([reassign_matchseqs]): for well-formed packed sequences with
    ascending ambiguous positions and enough fuel, (1) when the candidate
    has at least 32 bases and its length is not a multiple of 32: if it
    equals the bases of the consensus at offset [k], no ambiguous position
    lies in [[k, k + seqlen q)], and every earlier offset at which it also
    occurs has an ambiguous position strictly inside, then
    [reassign_matchseqs] returns [k]; and if every offset at which it occurs
    has an ambiguous position strictly inside and the consensus is at most
    twice as long as the candidate, then [reassign_matchseqs] returns -1;
    (2) for any candidate, if every window of [seqlen q] bases of the
    consensus holds an ambiguous position, then [reassign_matchseqs]
    returns -1. *)
Theorem matchseqs_first_clean_occurrence (c q : CompDNA) (fuel : nat) :
  wf_words (seq c) -> wf_words (seq q) -> padded q ->
  StronglySorted Z.le (N c) -> Forall (fun p => 0 <= p < seqlen c) (N c) ->
  (Z.to_nat (seqlen c) < fuel)%nat ->
  (32 <= seqlen q < 2 ^ 31 -> seqlen q mod 32 <> 0 ->
   (forall k, 0 <= k -> k + seqlen q <= seqlen c ->
      occurs_at c q k -> N_free c k (k + seqlen q) ->
      (forall m, 0 <= m < k -> occurs_at c q m -> N_inside c m (m + seqlen q)) ->
      reassign_matchseqs fuel c q = Some k) /\
   ((forall m, 0 <= m -> occurs_at c q m -> N_inside c m (m + seqlen q)) ->
    seqlen c <= 2 * seqlen q ->
    reassign_matchseqs fuel c q = Some (-1))) /\
  ((forall m, 0 <= m -> m + seqlen q <= seqlen c ->
      exists p, In p (N c) /\ m <= p < m + seqlen q) ->
   reassign_matchseqs fuel c q = Some (-1)).
Proof.
  intros Hc Hq Hpad HN HNr Hfuel. split; [intros Hlen Hrem; split|].
  - intros k Hk0 Hk1 Hocc Hfree Hfirst.
    apply matchseqs_found; auto. lia.
  - intros Hall Hshort. apply matchseqs_blocked; auto.
  - intros Hwin. apply matchseqs_infeasible; auto.
Qed.

Lemma matchseqs_first_clean_occurrence_witness :
  reassign_matchseqs 74 masked_then_clean cand33 = Some 40 /\
  reassign_matchseqs 41 masked_only cand33 = Some (-1) /\
  reassign_matchseqs 41 a40_two_N cand33 = Some (-1).
Proof.
  assert (Hq : wf_words (seq cand33)) by (apply wf_wordsb_true; vm_compute; reflexivity).
  assert (Hpad : padded cand33)
    by (apply paddedb_true; [simpl; lia|vm_compute; reflexivity]).
  assert (Hlen : 32 <= seqlen cand33 < 2 ^ 31) by (simpl; lia).
  assert (Hrem : seqlen cand33 mod 32 <> 0) by (vm_compute; discriminate).
  split; [|split].
  - refine (proj1 (proj1 (matchseqs_first_clean_occurrence masked_then_clean cand33 74
                            _ Hq Hpad _ _ _) Hlen Hrem) 40 _ _ _ _ _).
    + apply wf_wordsb_true; vm_compute; reflexivity.
    + apply ascendingb_true; vm_compute; reflexivity.
    + repeat (first [apply Forall_nil|apply Forall_cons; [simpl; lia|]]).
    + vm_compute; lia.
    + lia.
    + vm_compute; discriminate.
    + apply occurs_atb_iff; vm_compute; reflexivity.
    + apply N_freeb_true; vm_compute; reflexivity.
    + apply blockedb_true; vm_compute; reflexivity.
  - refine (proj2 (proj1 (matchseqs_first_clean_occurrence masked_only cand33 41
                            _ Hq Hpad _ _ _) Hlen Hrem) _ _).
    + apply wf_wordsb_true; vm_compute; reflexivity.
    + apply ascendingb_true; vm_compute; reflexivity.
    + repeat (first [apply Forall_nil|apply Forall_cons; [simpl; lia|]]).
    + vm_compute; lia.
    + intros m Hm Hocc.
      assert (Hb : m < 32 * Z.of_nat (length (seq masked_only))).
      { apply (occurs_bound masked_only cand33 m);
          [simpl; lia|vm_compute; discriminate|exact Hm|exact Hocc]. }
      apply (blockedb_true masked_only cand33 96);
        [vm_compute; reflexivity|simpl in Hb; lia|exact Hocc].
    + vm_compute; discriminate.
  - refine (proj2 (matchseqs_first_clean_occurrence a40_two_N cand33 41 _ Hq Hpad _ _ _) _).
    + apply wf_wordsb_true; vm_compute; reflexivity.
    + apply ascendingb_true; vm_compute; reflexivity.
    + repeat (first [apply Forall_nil|apply Forall_cons; [simpl; lia|]]).
    + vm_compute; lia.
    + intros m Hm Hfit. exists 10. split; [now left|].
      change (seqlen a40_two_N) with 40 in Hfit.
      change (seqlen cand33) with 33 in Hfit |- *. lia.
Defined.

(** C10: soundness fails when the candidate's length is a multiple of 32.
    On a consensus of 64 bases [A] and a candidate of 32 [A] followed by 32
    [T], [reassign_matchseqs] returns offset 0 for every fuel, although the
    bases differ from position 32 on: the loop of [reassign_cmpseqs]
    compares one word less than the candidate has, and its last word is
    checked only when it is partial. *)
Theorem C10_last_word_unchecked :
  (forall fuel, (0 < fuel)%nat -> reassign_matchseqs fuel a64 a32t32 = Some 0) /\
  0 < seqlen a32t32 /\
  getNuc (seq a64) (0 + 32) = 0 /\ getNuc (seq a32t32) 32 = 3.
Proof.
  split; [|vm_compute; auto].
  intros fuel Hf.
  apply (matchseqs_mono a64 a32t32 1 fuel 0); [lia|vm_compute; reflexivity].
Qed.

(** C8, as stated, fails: on the consensus [G^38 CC], its reverse
    complement and the candidate [C^33], the forward call returns -1, not
    zero, and [reassign_matchseqs_rc] does evaluate the reverse-complement
    match, returning its offset 2 instead of 0. *)
Lemma C8_counterexample :
  reassign_matchseqs 1 g38cc c33 = Some (-1) /\
  reassign_matchseqs 1 ggc38 c33 = Some 2 /\
  reassign_matchseqs_rc 1 g38cc ggc38 c33 = Some 2.
Proof. vm_compute. auto. Qed.

(** C8 (amended): [reassign_matchseqs_rc] first evaluates
    [reassign_matchseqs(consensus, candidate)]; when that call returns 0 it
    returns 0 without the reverse-complement match, and when that call
    returns -1 (no match) it returns
    [reassign_matchseqs(consensus_rc, candidate)]. *)
Theorem C8_strand_fallback (fuel : nat) (consensus consensus_rc candidate : CompDNA)
    (r : Z) :
  reassign_matchseqs fuel consensus candidate = Some r ->
  (r = 0 -> reassign_matchseqs_rc fuel consensus consensus_rc candidate = Some 0) /\
  (r = -1 ->
   reassign_matchseqs_rc fuel consensus consensus_rc candidate
   = reassign_matchseqs fuel consensus_rc candidate).
Proof.
  intros H. unfold reassign_matchseqs_rc. rewrite H.
  split; intros ->; reflexivity.
Qed.

Lemma C8_strand_fallback_witness :
  reassign_matchseqs_rc 1 g38cc ggc38 c33 = reassign_matchseqs 1 ggc38 c33 /\
  reassign_matchseqs_rc 1 twice33 ggc38 cand33 = Some 0.
Proof.
  split.
  - apply (proj2 (C8_strand_fallback 1 g38cc ggc38 c33 (-1)
                    ltac:(vm_compute; reflexivity)) eq_refl).
  - apply (proj1 (C8_strand_fallback 1 twice33 ggc38 cand33 0
                    ltac:(vm_compute; reflexivity)) eq_refl).
Defined.

End MatcherResults.

(** ** The heap routines return *)

Section HeapFacts.

Variable B : list Z.
Variable L : list Z.

Lemma rd_outside (mem : list Z) (i : Z) : Z.of_nat (length mem) <= i -> rd mem i = 0.
Proof.
  intros H; unfold rd. destruct (Z.ltb_spec i 0); auto.
  apply nth_overflow; lia.
Qed.

Lemma rd_wr_cases (mem : list Z) (i j v : Z) :
  rd (wr mem j v) i = rd mem i \/ (i = j /\ rd (wr mem j v) i = v).
Proof.
  destruct (Z.eq_dec j i) as [->|Hne]; [|left; now apply rd_wr_other].
  destruct (Z.lt_ge_cases i 0) as [Hn|Hn].
  - left. unfold wr. destruct (Z.ltb_spec i 0); [reflexivity|lia].
  - destruct (Z.lt_ge_cases i (Z.of_nat (length mem))) as [Hl|Hl].
    + right. split; auto. apply rd_wr_same; lia.
    + left. rewrite !rd_outside; auto. now rewrite length_wr.
Qed.

Lemma cells_ok_wr (mem : list Z) (j v : Z) :
  cells_ok B mem -> v = 0 \/ In v B -> cells_ok B (wr mem j v).
Proof.
  intros H Hv i Hi.
  destruct (rd_wr_cases mem i j v) as [->|[_ ->]]; auto.
Qed.

Lemma heapify_total (fuel : nat) :
  forall mem b idx,
    0 <= b -> 0 <= idx -> (1 <= fuel)%nat ->
    Z.of_nat (length mem) - (b + idx) <= Z.of_nat fuel ->
    cells_ok B mem ->
    exists mem' k,
      reassign_heapify fuel mem b L idx = Some (mem', k) /\
      length mem' = length mem /\ rd mem' 0 = rd mem 0 /\ cells_ok B mem'.
Proof.
  induction fuel as [|fuel IH]; intros mem b idx Hb Hi Hf Hd Hok; [lia|].
  cbn [reassign_heapify]. rewrite Z.shiftl_mul_pow2 by lia. change (2 ^ 1) with 2.
  set (n := rd mem b).
  set (c1 := (idx * 2 + 1 <? n) &&
             (rd L (NORM (rd mem (b + 1 + idx)))
              <? rd L (NORM (rd mem (b + 1 + (idx * 2 + 1)))))).
  set (r1 := if c1 then idx * 2 + 1 else idx).
  set (c2 := (idx * 2 + 1 + 1 <? n) &&
             (rd L (NORM (rd mem (b + 1 + r1)))
              <? rd L (NORM (rd mem (b + 1 + (idx * 2 + 1 + 1)))))).
  set (r2 := if c2 then idx * 2 + 1 + 1 else r1).
  assert (Hr2 : r2 = idx \/ (idx < r2 /\ b + 1 + idx < Z.of_nat (length mem))).
  { destruct (Z.lt_ge_cases (b + 1 + idx) (Z.of_nat (length mem))) as [Hin|Hout].
    - destruct c2, c1; subst r2 r1; lia.
    - left. assert (E1 : c1 = false).
      { subst c1. rewrite !(rd_outside mem) by lia.
        now rewrite Z.ltb_irrefl, andb_false_r. }
      assert (E2 : c2 = false).
      { subst c2 r1. rewrite E1. rewrite !(rd_outside mem) by lia.
        now rewrite Z.ltb_irrefl, andb_false_r. }
      subst r2 r1. now rewrite E2, E1. }
  destruct (Z.eqb_spec r2 idx) as [E|E]; cbn [negb].
  - exists mem, 0. repeat split; auto.
  - destruct Hr2 as [Hr2|[Hgt Hin]]; [contradiction|].
    set (mem2 := wr (wr mem (b + 1 + idx) (rd mem (b + 1 + r2))) (b + 1 + r2)
                    (rd mem (b + 1 + idx))).
    assert (Hl2 : length mem2 = length mem) by (subst mem2; now rewrite !length_wr).
    assert (H02 : rd mem2 0 = rd mem 0)
      by (subst mem2; rewrite !rd_wr_other by lia; reflexivity).
    assert (Hok2 : cells_ok B mem2).
    { subst mem2. apply cells_ok_wr; [apply cells_ok_wr; auto|]; apply Hok; lia. }
    destruct (IH mem2 (b + 1) r2) as (mem' & k & Em & Hl' & H0' & Hok'); auto;
      try lia.
    rewrite Em. exists mem', (1 + k). repeat split; auto; congruence.
Qed.



End HeapFacts.

(** ** The rewriter: what it publishes when it returns *)

Section RewriterFacts.

Lemma offset_main_exit (fuel : nat) (tseq : list Z) (t_len : Z) :
  forall st st', offset_main fuel tseq t_len st = Some st' -> r_aln_len st' = t_len.
Proof.
  induction fuel as [|fuel IH]; intros st st' H; cbn [offset_main] in H.
  - destruct (Z.eqb_spec (r_aln_len st) t_len) as [E|E]; cbn [negb] in H;
      [injection H as <-; exact E|discriminate].
  - destruct (Z.eqb_spec (r_aln_len st) t_len) as [E|E]; cbn [negb] in H;
      [injection H as <-; exact E|].
    match type of H with
    | match ?X with Some _ => _ | None => None end = _ =>
        destruct X as [st1|]; [|discriminate]
    end.
    apply IH in H. exact H.
Qed.

(** Whenever [reassign_matrix_offset] returns, the consensus record holds
    [aln_len = len = cover = t_len]. *)
Lemma matrix_offset_publishes (fuel : nat) (matrix : AssemInfo) (assem : Assem)
    (offset : Z) (tseq : list Z) (t_len : Z) mx am ins :
  reassign_matrix_offset fuel matrix assem offset tseq t_len = Some (mx, am, ins) ->
  aln_len am = t_len /\ a_len am = t_len /\ cover am = t_len.
Proof.
  unfold reassign_matrix_offset. intros H.
  destruct (offset_loop _ _ _ _ _ _) as [[ci pos]|]; [|discriminate].
  destruct (reassign_matrix_bias _ _) as [[matrix1 bias]|]; [|discriminate].
  destruct (offset_main _ _ _ _) as [st|] eqn:E; [|discriminate].
  apply offset_main_exit in E.
  destruct (r_ni st); [|discriminate].
  injection H as <- <- <-. cbn [aln_len a_len cover]. auto.
Qed.

End RewriterFacts.

(** * Further properties of the code *)

(** ** The matcher's building blocks *)

Section MatcherBlocks.

Import Vectors.

Lemma getoffset_hit (c : CompDNA) (kmer start k : Z) :
  0 <= kmer < 2 ^ 64 -> start <= k < seqlen c -> getKmer (seq c) k 0 = kmer ->
  exists m, reassign_getoffset c kmer start = m /\ start <= m <= k /\
            getKmer (seq c) m 0 = kmer /\
            forall j, start <= j < m -> getKmer (seq c) j 0 <> kmer.
Proof.
  intros Hkm Hk Ek. unfold reassign_getoffset.
  assert (Hq : (kmer + 1) mod 2 ^ 64 <> kmer).
  { destruct (Z.eq_dec (kmer + 1) (2 ^ 64)) as [E|E].
    - rewrite E, Z.mod_same by lia. lia.
    - rewrite Z.mod_small by lia. lia. }
  destruct (getoffset_loop_finds c kmer k ltac:(lia) Ek
              (Z.to_nat (seqlen c - (start - 1))) (start - 1) _ Hq ltac:(lia) ltac:(lia))
    as (m & Em & Hm & Hkm' & Hfirst).
  rewrite Em, Z.eqb_refl. exists m. repeat split; auto; try lia.
  intros j Hj. apply Hfirst. lia.
Qed.

(** X1 ([reassign_getoffset]): for a 64-bit [kmer] and a start position
    that is not negative, the result is either [-1], and then no offset in
    [[start, seqlen)] has [kmer] as its 32-mer, or it is the first offset in
    [[start, seqlen)] whose 32-mer is [kmer]. *)
Theorem getoffset_first_match (c : CompDNA) (kmer start : Z) :
  0 <= kmer < 2 ^ 64 -> 0 <= start ->
  (reassign_getoffset c kmer start = -1 /\
   forall j, start <= j < seqlen c -> getKmer (seq c) j 0 <> kmer) \/
  (start <= reassign_getoffset c kmer start < seqlen c /\
   getKmer (seq c) (reassign_getoffset c kmer start) 0 = kmer /\
   forall j, start <= j < reassign_getoffset c kmer start ->
             getKmer (seq c) j 0 <> kmer).
Proof.
  intros Hk Hs.
  destruct (getoffset_range c kmer start Hk) as [E|[Hr Hm]].
  - left. split; [exact E|]. intros j Hj Ej.
    destruct (getoffset_hit c kmer start j Hk Hj Ej) as (m & Em & Hm & _). lia.
  - right. split; [exact Hr|]. split; [exact Hm|].
    destruct (getoffset_hit c kmer start _ Hk Hr Hm) as (m & Em & _ & _ & Hfirst).
    rewrite Em. exact Hfirst.
Qed.

Lemma getoffset_first_match_witness :
  0 <= 5 < 2 ^ 64 /\ 0 <= 1 /\
  ((reassign_getoffset cga_fw 5 1 = -1 /\
    forall j, 1 <= j < seqlen cga_fw -> getKmer (seq cga_fw) j 0 <> 5) \/
   (1 <= reassign_getoffset cga_fw 5 1 < seqlen cga_fw /\
    getKmer (seq cga_fw) (reassign_getoffset cga_fw 5 1) 0 = 5 /\
    forall j, 1 <= j < reassign_getoffset cga_fw 5 1 ->
              getKmer (seq cga_fw) j 0 <> 5)).
Proof.
  split; [lia|]. split; [lia|]. apply (getoffset_first_match cga_fw 5 1); lia.
Defined.

(** X2 ([reassign_testNs]): on ascending positions and a start that is not
    negative, the result is zero exactly when no ambiguous position lies
    strictly between [start] and [end]; otherwise it is the first listed
    position strictly between them. *)
Theorem testNs_first_inside (Ns : list Z) (start end_ : Z) :
  StronglySorted Z.le Ns -> 0 <= start ->
  (reassign_testNs Ns start end_ = 0 <->
   forall p, In p Ns -> ~ (start < p < end_)) /\
  (reassign_testNs Ns start end_ <> 0 ->
   In (reassign_testNs Ns start end_) Ns /\
   start < reassign_testNs Ns start end_ < end_ /\
   forall p, In p Ns -> start < p < end_ -> reassign_testNs Ns start end_ <= p).
Proof.
  intros HS Hs. split.
  - split.
    + intros E p Hp Hr. apply (testNs_finds Ns start end_ HS Hs); [|exact E].
      exists p. now split.
    + apply testNs_none.
  - intros Hnz. destruct (testNs_sound Ns start end_) as [E|[Hin Hr]]; [contradiction|].
    split; [exact Hin|]. split; [exact Hr|]. clear Hin Hr.
    induction HS as [|x Ns HS IH Hall]; [intros p []|].
    intros p Hp Hr. cbn [reassign_testNs] in *. rewrite Forall_forall in Hall.
    destruct (Z.ltb_spec x end_) as [Hx|Hx]; [|contradiction].
    destruct (Z.ltb_spec start x) as [Hsx|Hsx]; cbn [andb] in *.
    + destruct Hp as [->|Hp]; [lia|]. apply Hall; exact Hp.
    + destruct Hp as [->|Hp]; [lia|]. apply IH; auto.
Qed.

Lemma testNs_first_inside_witness :
  StronglySorted Z.le [10; 30] /\ 0 <= 10 /\
  (reassign_testNs [10; 30] 10 30 = 0 <->
   forall p, In p [10; 30] -> ~ (10 < p < 30)).
Proof.
  assert (HS : StronglySorted Z.le [10; 30]) by (apply ascendingb_true; reflexivity).
  split; [exact HS|]. split; [lia|].
  exact (proj1 (testNs_first_inside [10; 30] 10 30 HS ltac:(lia))).
Defined.

End MatcherBlocks.

Section CmpseqsExact.

Variables c q : CompDNA.
Hypothesis Hc : wf_words (seq c).
Hypothesis Hq : wf_words (seq q).

Lemma len_parts :
  0 <= seqlen q < 2 ^ 31 ->
  Z.shiftr (seqlen q) 5 = seqlen q / 32 /\ Z.land (seqlen q) 31 = seqlen q mod 32 /\
  0 <= seqlen q mod 32 <= 31 /\ 0 <= seqlen q / 32 < 2 ^ 26 /\
  seqlen q = 32 * (seqlen q / 32) + seqlen q mod 32.
Proof.
  intros Hlen. change 31 with (Z.ones 5) at 1.
  rewrite Z.land_ones, Z.shiftr_div_pow2 by lia. change (2 ^ 5) with 32.
  pose proof (Z.mod_pos_bound (seqlen q) 32 ltac:(lia)).
  pose proof (Z.div_mod (seqlen q) 32 ltac:(lia)).
  assert (0 <= seqlen q / 32) by (apply Z.div_pos; lia).
  repeat split; lia.
Qed.

(** The whole words compared by the loop, read as bases. *)
Lemma full_words_eq (m f : Z) :
  0 <= m -> 0 <= f ->
  (forall j, 0 <= j < Z.of_nat (Z.to_nat f) ->
             word (seq q) (0 + j) = getKmer (seq c) (m + 32 * j) 0)
  <-> forall i, 0 <= i < 32 * f -> getNuc (seq c) (m + i) = getNuc (seq q) i.
Proof.
  intros Hm Hf. split.
  - intros H i Hi.
    pose proof (Z.div_mod i 32 ltac:(lia)) as Hdi.
    pose proof (Z.mod_pos_bound i 32 ltac:(lia)) as Hmi.
    assert (Hj : 0 <= i / 32 < Z.of_nat (Z.to_nat f)).
    { rewrite Z2Nat.id by lia. split; [apply Z.div_pos; lia|].
      apply Z.div_lt_upper_bound; lia. }
    specialize (H _ Hj). rewrite Z.add_0_l in H.
    pose proof (proj1 (full_word_eq (seq c) (seq q) Hc Hq (m + 32 * (i / 32))
                         (i / 32) ltac:(lia) ltac:(lia)) H (i mod 32) Hmi) as H'.
    replace (m + 32 * (i / 32) + i mod 32) with (m + i) in H' by lia.
    replace (32 * (i / 32) + i mod 32) with i in H' by lia. exact H'.
  - intros H j Hj. rewrite Z2Nat.id in Hj by lia. rewrite Z.add_0_l.
    apply (proj2 (full_word_eq (seq c) (seq q) Hc Hq (m + 32 * j) j
                    ltac:(lia) ltac:(lia))).
    intros i Hi. replace (m + 32 * j + i) with (m + (32 * j + i)) by lia.
    apply H. lia.
Qed.

Lemma cmpseqs_negative (m : Z) :
  m < 0 -> reassign_cmpseqs (seq c) (seq q) (seqlen q) m = -1.
Proof.
  intros Hm. unfold reassign_cmpseqs. destruct (Z.ltb_spec m 0); [reflexivity|lia].
Qed.

Lemma cmpseqs_loop_sign (n : nat) :
  forall ti off r,
    cmpseqs_loop n (seq c) (seq q) ti off = inl r -> r = -1 \/ r = 1.
Proof.
  induction n as [|n IH]; intros ti off r E; cbn [cmpseqs_loop] in E; [discriminate|].
  destruct (negb _); [|now apply IH in E].
  injection E as <-. destruct (_ <? _); [now left|now right].
Qed.

Lemma cmpseqs_sign (m : Z) :
  reassign_cmpseqs (seq c) (seq q) (seqlen q) m = -1 \/
  reassign_cmpseqs (seq c) (seq q) (seqlen q) m = 0 \/
  reassign_cmpseqs (seq c) (seq q) (seqlen q) m = 1.
Proof.
  unfold reassign_cmpseqs. destruct (m <? 0); [now left|].
  destruct (cmpseqs_loop _ _ _ 0 m) as [r|[ti off]] eqn:E.
  - apply cmpseqs_loop_sign in E. destruct E; [now left|right; now right].
  - destruct (negb _); [|right; now left].
    destruct (negb _); [|right; now left].
    destruct (_ <? _); [now left|right; now right].
Qed.

Lemma cmpseqs_exact (m : Z) :
  padded q -> 1 <= seqlen q < 2 ^ 31 -> seqlen q mod 32 <> 0 -> 0 <= m ->
  (reassign_cmpseqs (seq c) (seq q) (seqlen q) m = 0 <-> occurs_at c q m).
Proof.
  intros Hpad Hlen Hrem Hm.
  destruct (len_parts ltac:(lia)) as (Ef & Er & Hr & Hf & Hd).
  unfold reassign_cmpseqs. rewrite Ef, Er.
  set (f := seqlen q / 32) in *. set (r := seqlen q mod 32) in *.
  destruct (Z.ltb_spec m 0) as [Hm0|Hm0]; [lia|].
  destruct (Z.eqb_spec r 0) as [Hr0'|Hr0']; [lia|]. cbn [negb].
  replace ((f + 1 - 1) mod 2 ^ 32) with f by (rewrite Z.mod_small; lia).
  pose proof (full_words_eq m f Hm ltac:(lia)) as Hfull.
  assert (Hlast : word (seq q) f
                  = shl64 (getKmer (seq c) (m + 32 * f) (64 - 2 * r)) (64 - 2 * r)
                  <-> forall i, 0 <= i < r ->
                        getNuc (seq c) (m + (32 * f + i)) = getNuc (seq q) (32 * f + i)).
  { rewrite (last_word_eq (seq c) (seq q) Hc Hq (m + 32 * f) f r) by
      (try lia; intros i Hi; apply Hpad; lia).
    split; intros H i Hi; specialize (H i Hi);
      [replace (m + (32 * f + i)) with (m + 32 * f + i) by lia
      |replace (m + 32 * f + i) with (m + (32 * f + i)) by lia]; exact H. }
  destruct (cmpseqs_loop_spec (seq c) (seq q) (Z.to_nat f) 0 m)
    as [(r0 & E0 & Hr0 & Hn)|[E0 Hall]]; rewrite E0.
  - split; [intros; contradiction|].
    intros Hocc. exfalso. apply Hn, Hfull. intros i Hi. apply Hocc. lia.
  - rewrite Z2Nat.id by lia. rewrite Z.add_0_l.
    rewrite Z.shiftl_mul_pow2 by lia. change (2 ^ 1) with 2.
    replace (r * 2) with (2 * r) by lia.
    destruct (Z.eqb_spec (word (seq q) f)
                (shl64 (getKmer (seq c) (m + 32 * f) (64 - 2 * r)) (64 - 2 * r)))
      as [E|E]; cbn [negb].
    + split; [intros _|reflexivity].
      intros i Hi. destruct (Z.lt_ge_cases i (32 * f)) as [Hlt|Hge].
      * apply (proj1 Hfull Hall). lia.
      * pose proof (proj1 Hlast E (i - 32 * f) ltac:(lia)) as H.
        replace (32 * f + (i - 32 * f)) with i in H by lia. exact H.
    + split.
      * destruct (word (seq q) f <? _); lia.
      * intros Hocc. exfalso. apply E, Hlast. intros i Hi. apply Hocc. lia.
Qed.

Lemma cmpseqs_whole_words (m : Z) :
  32 <= seqlen q < 2 ^ 31 -> seqlen q mod 32 = 0 -> 0 <= m ->
  (reassign_cmpseqs (seq c) (seq q) (seqlen q) m = 0 <->
   forall i, 0 <= i < seqlen q - 32 -> getNuc (seq c) (m + i) = getNuc (seq q) i).
Proof.
  intros Hlen Hrem Hm.
  destruct (len_parts ltac:(lia)) as (Ef & Er & Hr & Hf & Hd).
  unfold reassign_cmpseqs. rewrite Ef, Er.
  set (f := seqlen q / 32) in *. rewrite Hrem in *.
  destruct (Z.ltb_spec m 0) as [Hm0|Hm0]; [lia|]. cbn [Z.eqb negb].
  replace ((f + 0 - 1) mod 2 ^ 32) with (f - 1) by (rewrite Z.mod_small; lia).
  pose proof (full_words_eq m (f - 1) Hm ltac:(lia)) as Hfull.
  replace (32 * (f - 1)) with (seqlen q - 32) in Hfull by lia.
  destruct (cmpseqs_loop_spec (seq c) (seq q) (Z.to_nat (f - 1)) 0 m)
    as [(r0 & E0 & Hr0 & Hn)|[E0 Hall]]; rewrite E0.
  - split; [intros; contradiction|].
    intros Hocc. exfalso. apply Hn, Hfull, Hocc.
  - split; [intros _; apply Hfull, Hall|reflexivity].
Qed.

End CmpseqsExact.

Section CmpseqsResults.

Import Vectors.

(** X3 ([reassign_cmpseqs]): on every input the result is -1, 0 or 1, and
    it is -1 at a negative offset.  For well-formed words and a candidate of
    at least one base whose length is not a multiple of 32 and whose last
    word is zero behind the last base, the result at an offset that is not
    negative is zero exactly when the candidate's bases equal the consensus
    bases from that offset on. *)
Theorem cmpseqs_zero_iff_occurs (c q : CompDNA) (m : Z) :
  (reassign_cmpseqs (seq c) (seq q) (seqlen q) m = -1 \/
   reassign_cmpseqs (seq c) (seq q) (seqlen q) m = 0 \/
   reassign_cmpseqs (seq c) (seq q) (seqlen q) m = 1) /\
  (m < 0 -> reassign_cmpseqs (seq c) (seq q) (seqlen q) m = -1) /\
  (wf_words (seq c) -> wf_words (seq q) -> padded q ->
   1 <= seqlen q < 2 ^ 31 -> seqlen q mod 32 <> 0 -> 0 <= m ->
   (reassign_cmpseqs (seq c) (seq q) (seqlen q) m = 0 <-> occurs_at c q m)).
Proof.
  split; [apply cmpseqs_sign|]. split; [apply cmpseqs_negative|].
  intros Hc Hq Hpad Hlen Hrem Hm. now apply cmpseqs_exact.
Qed.

Lemma cmpseqs_zero_iff_occurs_witness :
  wf_words (seq ggc38) /\ wf_words (seq c33) /\ padded c33 /\
  1 <= seqlen c33 < 2 ^ 31 /\ seqlen c33 mod 32 <> 0 /\ 0 <= 2 /\
  (reassign_cmpseqs (seq ggc38) (seq c33) (seqlen c33) 2 = 0 <-> occurs_at ggc38 c33 2) /\
  reassign_cmpseqs (seq ggc38) (seq c33) (seqlen c33) (-1) = -1.
Proof.
  assert (H1 : wf_words (seq ggc38)) by (apply wf_wordsb_true; vm_compute; reflexivity).
  assert (H2 : wf_words (seq c33)) by (apply wf_wordsb_true; vm_compute; reflexivity).
  assert (H3 : padded c33)
    by (apply paddedb_true; [simpl; lia|vm_compute; reflexivity]).
  assert (H4 : 1 <= seqlen c33 < 2 ^ 31) by (simpl; lia).
  assert (H5 : seqlen c33 mod 32 <> 0) by (vm_compute; discriminate).
  assert (H6 : 0 <= 2) by lia.
  repeat (split; [assumption|]). split.
  - exact (proj2 (proj2 (cmpseqs_zero_iff_occurs ggc38 c33 2)) H1 H2 H3 H4 H5 H6).
  - exact (proj1 (proj2 (cmpseqs_zero_iff_occurs ggc38 c33 (-1))) ltac:(lia)).
Defined.

(** X4 ([reassign_cmpseqs]): for a candidate whose length is a multiple of
    32, the result at an offset that is not negative is zero exactly when
    the candidate's bases but the last 32 equal the consensus bases from
    that offset on: the last word is not compared. *)
Theorem cmpseqs_multiple_of_32 (c q : CompDNA) (m : Z) :
  wf_words (seq c) -> wf_words (seq q) ->
  32 <= seqlen q < 2 ^ 31 -> seqlen q mod 32 = 0 -> 0 <= m ->
  (reassign_cmpseqs (seq c) (seq q) (seqlen q) m = 0 <->
   forall i, 0 <= i < seqlen q - 32 -> getNuc (seq c) (m + i) = getNuc (seq q) i).
Proof.
  intros Hc Hq. now apply cmpseqs_whole_words.
Qed.

Lemma cmpseqs_multiple_of_32_witness :
  wf_words (seq a64) /\ wf_words (seq a32t32) /\
  32 <= seqlen a32t32 < 2 ^ 31 /\ seqlen a32t32 mod 32 = 0 /\ 0 <= 0 /\
  (reassign_cmpseqs (seq a64) (seq a32t32) (seqlen a32t32) 0 = 0 <->
   forall i, 0 <= i < seqlen a32t32 - 32 ->
             getNuc (seq a64) (0 + i) = getNuc (seq a32t32) i).
Proof.
  assert (H1 : wf_words (seq a64)) by (apply wf_wordsb_true; vm_compute; reflexivity).
  assert (H2 : wf_words (seq a32t32)) by (apply wf_wordsb_true; vm_compute; reflexivity).
  assert (H3 : 32 <= seqlen a32t32 < 2 ^ 31) by (simpl; lia).
  assert (H4 : seqlen a32t32 mod 32 = 0) by reflexivity.
  repeat (split; [assumption|]). split; [lia|].
  exact (cmpseqs_multiple_of_32 a64 a32t32 0 H1 H2 H3 H4 ltac:(lia)).
Defined.

End CmpseqsResults.

Section MatcherSoundness.

Variables c q : CompDNA.

Lemma matchseqs_loop_done (fuel : nat) (s : Z) :
  matchseqs_loop fuel c q s 0 = Some (s, 0).
Proof. destruct fuel; reflexivity. Qed.

(** A match reported by the loop was accepted by [reassign_cmpseqs] and by
    [reassign_testNs] at the reported offset. *)
Lemma matchseqs_loop_accepts (fuel : nat) :
  0 <= seqlen q ->
  forall start match_ s,
    match_ <> 0 ->
    matchseqs_loop fuel c q start match_ = Some (s, 0) ->
    0 <= s /\ reassign_cmpseqs (seq c) (seq q) (seqlen q) s = 0 /\
    reassign_testNs (N c) s (s + seqlen q) = 0.
Proof.
  intros Hlen. induction fuel as [|fuel IH]; intros start match_ s Hm E.
  - rewrite matchseqs_loop_O in E.
    destruct (Z.eqb_spec match_ 0); [contradiction|]. cbn [negb] in E.
    destruct (_ && _); [discriminate|]. injection E as _ E. contradiction.
  - rewrite matchseqs_loop_eq in E.
    destruct (Z.eqb_spec match_ 0); [contradiction|]. cbn [negb] in E.
    destruct (_ && _); [|injection E as _ E; contradiction].
    cbv zeta in E.
    set (m := reassign_getoffset c (word (seq q) 0) (start + 1)) in *.
    set (st := if 0 <=? m then m else seqlen q) in *.
    assert (Hst : 0 <= st).
    { unfold st. destruct (Z.leb_spec 0 m); lia. }
    destruct (Z.eqb_spec (reassign_cmpseqs (seq c) (seq q) (seqlen q) st) 0) as [Ec|Ec].
    + destruct (Z.eqb_spec (reassign_testNs (N c) st (st + seqlen q)) 0) as [Et|Et];
        cbn [negb] in E.
      * rewrite matchseqs_loop_done in E. injection E as <-. auto.
      * apply (IH _ _ _ Et E).
    + apply (IH _ _ _ Ec E).
Qed.

End MatcherSoundness.

Section MatcherSoundnessResult.

Import Vectors.

(** X5 ([reassign_matchseqs]): for a candidate of at least one base whose
    length is not a multiple of 32, every result other than -1 is an offset
    that is not negative, at which the candidate's bases equal the stored
    consensus bases (words behind the end of the consensus read as they are
    stored) and which has no ambiguous position strictly inside the
    placement. *)
Theorem matchseqs_sound (c q : CompDNA) (fuel : nat) (r : Z) :
  wf_words (seq c) -> wf_words (seq q) -> padded q ->
  1 <= seqlen q < 2 ^ 31 -> seqlen q mod 32 <> 0 ->
  StronglySorted Z.le (N c) ->
  reassign_matchseqs fuel c q = Some r ->
  r = -1 \/ (0 <= r /\ occurs_at c q r /\ ~ N_inside c r (r + seqlen q)).
Proof.
  intros Hc Hq Hpad Hlen Hrem HN E. unfold reassign_matchseqs in E.
  destruct (matchseqs_Ns _ _ _ 0) as [start|]; [|injection E as <-; now left].
  destruct (matchseqs_loop fuel c q (start - 1) 1) as [[s m]|] eqn:El; [|discriminate].
  injection E as <-.
  destruct (Z.eqb_spec m 0) as [->|Hm]; cbn [negb]; [|now left].
  right.
  destruct (matchseqs_loop_accepts c q fuel ltac:(lia) (start - 1) 1 s ltac:(lia) El)
    as (Hs & Ec & Et).
  split; [exact Hs|]. split.
  - now apply (cmpseqs_exact c q Hc Hq s Hpad Hlen Hrem Hs).
  - intros Hin. now apply (testNs_finds (N c) s (s + seqlen q) HN Hs Hin).
Qed.

Lemma matchseqs_sound_witness :
  wf_words (seq masked_then_clean) /\ wf_words (seq cand33) /\ padded cand33 /\
  1 <= seqlen cand33 < 2 ^ 31 /\ seqlen cand33 mod 32 <> 0 /\
  StronglySorted Z.le (N masked_then_clean) /\
  reassign_matchseqs 10 masked_then_clean cand33 = Some 40 /\
  (40 = -1 \/ (0 <= 40 /\ occurs_at masked_then_clean cand33 40 /\
               ~ N_inside masked_then_clean 40 (40 + seqlen cand33))).
Proof.
  assert (H1 : wf_words (seq masked_then_clean))
    by (apply wf_wordsb_true; vm_compute; reflexivity).
  assert (H2 : wf_words (seq cand33)) by (apply wf_wordsb_true; vm_compute; reflexivity).
  assert (H3 : padded cand33)
    by (apply paddedb_true; [simpl; lia|vm_compute; reflexivity]).
  assert (H4 : 1 <= seqlen cand33 < 2 ^ 31) by (simpl; lia).
  assert (H5 : seqlen cand33 mod 32 <> 0) by (vm_compute; discriminate).
  assert (H6 : StronglySorted Z.le (N masked_then_clean))
    by (apply ascendingb_true; reflexivity).
  assert (H7 : reassign_matchseqs 10 masked_then_clean cand33 = Some 40)
    by (vm_compute; reflexivity).
  repeat (split; [assumption|]).
  exact (matchseqs_sound masked_then_clean cand33 10 40 H1 H2 H3 H4 H5 H6 H7).
Defined.

End MatcherSoundnessResult.

(** ** The matcher returns on a short consensus *)

Section MatcherReturns.

Variables c q : CompDNA.
Hypothesis Hq : wf_words (seq q).
Hypothesis Hlen : 0 <= seqlen q.
Hypothesis Hshort : seqlen c <= 2 * seqlen q.

Lemma matchseqs_loop_returns (fuel : nat) :
  forall start match_,
    -1 <= start -> seqlen c - start <= Z.of_nat fuel ->
    exists s m, matchseqs_loop fuel c q start match_ = Some (s, m).
Proof.
  induction fuel as [|fuel IH]; intros start match_ Hs Hf.
  - destruct (Z.eq_dec match_ 0) as [->|Hm].
    + rewrite matchseqs_loop_done. eauto.
    + rewrite matchseqs_loop_exit by (auto; lia). eauto.
  - destruct (Z.eq_dec match_ 0) as [->|Hm]; [rewrite matchseqs_loop_done; eauto|].
    destruct (Z.lt_ge_cases (seqlen c - (start + 1)) (seqlen q)) as [Hx|Hx].
    { rewrite matchseqs_loop_exit by auto. eauto. }
    rewrite matchseqs_loop_eq.
    destruct (Z.eqb_spec match_ 0); [contradiction|]. cbn [negb].
    destruct (Z.leb_spec 0 (start + 1)); [|lia].
    destruct (Z.leb_spec (seqlen q) (seqlen c - (start + 1))); [|lia]. cbn [andb].
    cbv zeta.
    set (m := reassign_getoffset c (word (seq q) 0) (start + 1)).
    set (st := if 0 <=? m then m else seqlen q).
    assert (Hst : 0 <= st /\ (start + 1 <= st < seqlen c \/ st = seqlen q)).
    { unfold st.
      destruct (getoffset_range c (word (seq q) 0) (start + 1) (word_range _ _ Hq))
        as [E|[Hr _]]; fold m in E || fold m in Hr.
      - rewrite E. cbn. split; [lia|now right].
      - destruct (Z.leb_spec 0 m); [|lia]. split; [lia|now left]. }
    destruct Hst as (Hst0 & Hcase).
    destruct (Z.eqb_spec (reassign_cmpseqs (seq c) (seq q) (seqlen q) st) 0) as [E|E].
    + destruct (testNs_sound (N c) st (st + seqlen q)) as [E0|[_ Hr]].
      * rewrite E0. cbn [Z.eqb negb]. rewrite matchseqs_loop_done. eauto.
      * set (t := reassign_testNs (N c) st (st + seqlen q)) in *.
        destruct (Z.eqb_spec t 0); [lia|]. cbn [negb].
        destruct Hcase as [Hin|Heq].
        -- apply IH; lia.
        -- rewrite matchseqs_loop_exit by (auto; lia). eauto.
    + destruct Hcase as [Hin|Heq].
      * apply IH; lia.
      * rewrite matchseqs_loop_exit by (auto; lia). eauto.
Qed.

End MatcherReturns.

Section MatcherReturnsResult.

Import Vectors.

(** X6 ([reassign_matchseqs]): when the consensus is at most twice as long
    as the candidate, the search returns, and its result is -1 or an offset
    that is not negative. *)
Theorem matchseqs_returns_on_short_consensus (c q : CompDNA) (fuel : nat) :
  wf_words (seq q) -> 0 <= seqlen q -> seqlen c <= 2 * seqlen q ->
  Forall (fun p => 0 <= p) (N c) -> seqlen c + 1 <= Z.of_nat fuel ->
  exists r, reassign_matchseqs fuel c q = Some r /\ (r = -1 \/ 0 <= r).
Proof.
  intros Hq Hlen Hshort HN Hfuel. unfold reassign_matchseqs.
  destruct (matchseqs_Ns (N c) (seqlen c) (seqlen q) 0) as [start|] eqn:En;
    [|exists (-1); split; [reflexivity|now left]].
  pose proof (matchseqs_Ns_nonneg c q (N c) 0 start HN ltac:(lia) En) as Hs.
  destruct (matchseqs_loop_returns c q Hq Hlen Hshort fuel (start - 1) 1
              ltac:(lia) ltac:(lia)) as (s & m & El).
  rewrite El. eexists. split; [reflexivity|].
  destruct (Z.eqb_spec m 0) as [->|Hm]; cbn [negb]; [right|now left].
  now destruct (matchseqs_loop_accepts c q fuel Hlen (start - 1) 1 s ltac:(lia) El).
Qed.

Lemma matchseqs_returns_on_short_consensus_witness :
  wf_words (seq c33) /\ seqlen g38cc <= 2 * seqlen c33 /\
  exists r, reassign_matchseqs 41 g38cc c33 = Some r /\ (r = -1 \/ 0 <= r).
Proof.
  assert (H1 : wf_words (seq c33)) by (apply wf_wordsb_true; vm_compute; reflexivity).
  assert (H2 : seqlen g38cc <= 2 * seqlen c33) by (simpl; lia).
  split; [exact H1|]. split; [exact H2|].
  apply (matchseqs_returns_on_short_consensus g38cc c33 41 H1);
    [simpl; lia|exact H2|constructor|simpl; lia].
Defined.

End MatcherReturnsResult.

(** ** The scanner: score accounting and the candidate list *)

Section ScannerAccounting.

Lemma rd_wr (mem : list Z) (i j v : Z) :
  0 <= i < Z.of_nat (length mem) ->
  rd (wr mem i v) j = if j =? i then v else rd mem j.
Proof.
  intros Hi. destruct (Z.eqb_spec j i) as [->|Hne].
  - now apply rd_wr_same.
  - apply rd_wr_other. congruence.
Qed.

Lemma flush_adds (v : list Z) (r : Z) :
  forall Sc B u,
    (forall t, In t v -> 0 <= t < Z.of_nat (length Sc)) ->
    rd (fst (flush v r (Sc, B))) u
    = rd Sc u + r * Z.of_nat (count_occ Z.eq_dec v u).
Proof.
  induction v as [|t v IH]; intros Sc B u Hv.
  - cbn. lia.
  - rewrite flush_cons. cbn [bump].
    rewrite IH by (intros t' Ht'; rewrite length_wr; apply Hv; now right).
    rewrite rd_wr by (apply Hv; now left).
    cbn [count_occ]. destruct (Z.eq_dec t u) as [->|Hne].
    + rewrite Z.eqb_refl. lia.
    + destruct (Z.eqb_spec u t); [congruence|]. lia.
Qed.

(** X7 ([reassign_kmers], the flush of a value vector): when every id of
    the vector indexes the [Score] array, the flush with weight [reps] adds
    [reps] to the score of an id once for each of its occurrences in the
    vector, leaves every other score as it was and keeps the size of the
    array. *)
Theorem flush_score_accounting (v : list Z) (r : Z) (Sc B : list Z) (u : Z) :
  (forall t, In t v -> 0 <= t < Z.of_nat (length Sc)) ->
  rd (fst (flush v r (Sc, B))) u = rd Sc u + r * Z.of_nat (count_occ Z.eq_dec v u) /\
  (~ In u v -> rd (fst (flush v r (Sc, B))) u = rd Sc u) /\
  length (fst (flush v r (Sc, B))) = length Sc.
Proof.
  intros Hv. split; [now apply flush_adds|]. split; [|apply flush_length].
  intros Hn. rewrite flush_adds by exact Hv.
  rewrite (proj1 (count_occ_not_In Z.eq_dec v u) Hn). lia.
Qed.

Lemma flush_score_accounting_witness :
  (forall t, In t [1; 2; 1] -> 0 <= t < Z.of_nat (length [0; 5; 0])) /\
  rd (fst (flush [1; 2; 1] 3 ([0; 5; 0], []))) 1
  = rd [0; 5; 0] 1 + 3 * Z.of_nat (count_occ Z.eq_dec [1; 2; 1] 1).
Proof.
  assert (H : forall t, In t [1; 2; 1] -> 0 <= t < Z.of_nat (length [0; 5; 0]))
    by (intros t [<-|[<-|[<-|[]]]]; simpl; lia).
  split; [exact H|].
  exact (proj1 (flush_score_accounting [1; 2; 1] 3 [0; 5; 0] [] 1 H)).
Defined.

End ScannerAccounting.

Section CandidateList.

Variable T : HashMapKMA.
Variable M : Minimizer.

Lemma survivors_In thr B Sc x : In x (survivors thr (B, Sc)) -> In x B.
Proof. unfold survivors. cbn [fst snd]. intros H. now apply filter_In in H. Qed.

Lemma survivors_NoDup thr B Sc : NoDup B -> NoDup (survivors thr (B, Sc)).
Proof. unfold survivors. cbn [fst]. apply NoDup_filter. Qed.

Lemma good_in_range (n : nat) (Sc B : list Z) (x : Z) :
  good n (Sc, B) -> In x B -> 0 <= x < Z.of_nat n.
Proof.
  intros (Hl & _ & _ & Hin) Hx. cbn [fst snd] in *.
  apply Hin in Hx. rewrite <- Hl. apply rd_in_range. lia.
Qed.

Lemma NoDup_range_length (n : nat) (l : list Z) :
  NoDup l -> (forall x, In x l -> 0 <= x < Z.of_nat n) -> (length l <= n)%nat.
Proof.
  intros Hd Hr.
  replace n with (length (zrange (Z.of_nat n))).
  - apply NoDup_incl_length; [exact Hd|]. intros x Hx. apply zrange_In. now apply Hr.
  - unfold zrange. rewrite length_map, length_seq. lia.
Qed.

Lemma NoDup_strands (F R : list Z) :
  NoDup F -> NoDup R -> (forall x, In x F -> 0 < x) -> (forall x, In x R -> 0 < x) ->
  NoDup (F ++ map Z.opp R).
Proof.
  intros HF HR HpF HpR. apply NoDup_app; [exact HF| |].
  - clear HpR. induction HR as [|y R Hy HR IH]; cbn [map]; constructor; [|exact IH].
    intros H. apply in_map_iff in H. destruct H as (y' & E & Hy').
    assert (y' = y) by lia. subst y'. contradiction.
  - intros x Hx Hy. apply in_map_iff in Hy. destruct Hy as (y & <- & Hy).
    specialize (HpF _ Hx). specialize (HpR _ Hy). lia.
Qed.

(** The candidates of one sweep: listed once, each an index of the
    [Score] array. *)
Lemma sweep_candidates (n : nat) thr (Sc B : list Z) :
  good n (Sc, B) ->
  NoDup (fst (sweep thr B Sc [])) /\
  forall x, In x (fst (sweep thr B Sc [])) -> 0 <= x < Z.of_nat n.
Proof.
  intros Hg. pose proof Hg as (_ & _ & Hd & _). cbn [snd] in Hd.
  rewrite sweep_filter by exact Hd. cbn [app]. split.
  - now apply survivors_NoDup.
  - intros x Hx. apply survivors_In in Hx. now apply (good_in_range n Sc B).
Qed.

(** An id that no value vector holds keeps its score through the scans. *)
Section Untouched.

Variable n : nat.
Hypothesis Hids : ids_in_range T n.
Variable z : Z.
Hypothesis Hz : forall p, ~ In z (values T p).

Lemma flush_untouched (p r : Z) (Sc B : list Z) :
  length Sc = n -> rd (fst (flush (values T p) r (Sc, B))) z = rd Sc z.
Proof.
  intros Hl. rewrite flush_adds by (rewrite Hl; apply Hids).
  rewrite (proj1 (count_occ_not_In Z.eq_dec (values T p) z) (Hz p)). lia.
Qed.

Lemma accumulate_untouched (v : Z) (a : Acc) (u : unit) :
  v <> 0 -> untouched n z a u -> untouched n z (accumulate T v a) u.
Proof.
  intros Hv (Hg & H0). split; [now apply (accumulate_good T n Hids v a u)|].
  unfold accumulate.
  destruct (v =? last a); [exact H0|].
  destruct (negb (last a =? 0)); [|exact H0].
  pose proof (flush_untouched (last a) (reps a) (Scores a) (bests a)
                (proj1 (proj1 Hg))) as E.
  destruct (flush _ _ _) as [Sc1 B1]. cbn [Scores fst] in *. congruence.
Qed.

Lemma flush_last_untouched (a : Acc) (u : unit) :
  untouched n z a u ->
  good n (Scores (flush_last T a), bests (flush_last T a)) /\
  rd (Scores (flush_last T a)) z = 0.
Proof.
  intros (Hg & H0). split; [now apply flush_last_good|].
  unfold flush_last.
  destruct (negb (last a =? 0)); [|exact H0].
  pose proof (flush_untouched (last a) (reps a) (Scores a) (bests a)
                (proj1 (proj1 Hg))) as E.
  destruct (flush _ _ _) as [Sc1 B1]. cbn [Scores fst] in *. congruence.
Qed.

Lemma untouched_init (Sc B : list Z) :
  good n (Sc, B) -> rd Sc z = 0 -> untouched n z (mkAcc 0 0 Sc B) tt.
Proof. intros Hg H0. split; [now apply good_init|exact H0]. Qed.

Lemma prefix_scan_untouched (Score : list Z) (fw rc : CompDNA) :
  Forall (eq 0) Score -> length Score = n ->
  ~ In z (fst (prefix_scan T M Score fw rc)).
Proof.
  intros H0 Hl.
  pose proof (prefix_scan_good T M n Hids Score fw rc H0 Hl) as Hg.
  enough (E : rd (snd (prefix_scan T M Score fw rc)) z = 0).
  { destruct Hg as (_ & _ & _ & Hin). cbn [fst snd] in Hin.
    intros H. apply Hin in H. lia. }
  clear Hg. unfold prefix_scan.
  destruct (prefix_pass_R T M (accumulate T) no_hit (untouched n z)
              accumulate_untouched fw (0, 0, kmersize T) _ tt
              (untouched_init _ _ (good_zero n Score H0 Hl) (rd_all_zero Score z H0)))
    as (ms1 & a1 & u1 & EA & _ & HR).
  rewrite EA. apply flush_last_untouched in HR. destruct HR as (Hg1 & Hz1).
  destruct (prefix_pass_R T M (accumulate T) no_hit (untouched n z)
              accumulate_untouched rc ms1 _ tt (untouched_init _ _ Hg1 Hz1))
    as (ms2 & a2 & u2 & EA2 & _ & HR2).
  rewrite EA2. apply flush_last_untouched in HR2. cbn [snd]. apply HR2.
Qed.

Lemma plain_scan_untouched (Score : list Z) (qseq : CompDNA) (seqend : Z) (ms : MState) :
  Forall (eq 0) Score -> length Score = n ->
  ~ In z (fst (snd (plain_scan T M Score qseq seqend ms))).
Proof.
  intros H0 Hl.
  pose proof (plain_scan_good T M n Hids Score qseq seqend ms H0 Hl) as Hg.
  enough (E : rd (snd (snd (plain_scan T M Score qseq seqend ms))) z = 0).
  { destruct Hg as (_ & _ & _ & Hin). cbn [fst snd] in Hin.
    intros H. apply Hin in H. lia. }
  clear Hg. unfold plain_scan.
  destruct (plain_pass_R T M (accumulate T) no_hit (untouched n z)
              accumulate_untouched qseq seqend ms _ tt
              (untouched_init _ _ (good_zero n Score H0 Hl) (rd_all_zero Score z H0)))
    as (ms1 & a1 & u1 & EA & _ & HR).
  rewrite EA. apply flush_last_untouched in HR. cbn [snd]. apply HR.
Qed.

End Untouched.

End CandidateList.

Section CandidateListResult.

Import Vectors.

(** The list that [reassign_kmers] returns: forward survivors, followed by
    the negated reverse survivors. *)
Lemma kmers_strands (T : HashMapKMA) (M : Minimizer) (Score TL : list Z)
    (fw rc : CompDNA) :
  Forall (eq 0) Score ->
  ids_in_range T (length Score) ->
  exists F R,
    fst (reassign_kmers T M Score TL fw rc) = F ++ map Z.opp R /\
    NoDup F /\ NoDup R /\
    (forall x, In x F \/ In x R -> 0 <= x < Z.of_nat (length Score)) /\
    (forall z, (forall p, ~ In z (values T p)) -> ~ In z F /\ ~ In z R).
Proof.
  intros Hz Hids. unfold reassign_kmers.
  destruct (negb (prefix_len T =? 0)).
  - pose proof (prefix_scan_good T M _ Hids Score fw rc Hz eq_refl) as Hg.
    pose proof (fun z Hn => prefix_scan_untouched T M _ Hids z Hn Score fw rc Hz eq_refl)
      as Hu.
    destruct (prefix_scan T M Score fw rc) as [B Sc]. cbn [fst snd] in Hg, Hu.
    destruct (sweep_candidates _ (fun t => rd TL (DB_size T + t)) Sc B Hg) as (Hd & Hr).
    pose proof Hg as (_ & _ & HdB & _). cbn [snd] in HdB.
    pose proof (sweep_filter (fun t => rd TL (DB_size T + t)) B Sc [] HdB) as EF.
    cbn [app] in EF.
    exists (fst (sweep (fun t => rd TL (DB_size T + t)) B Sc [])), [].
    cbn [map]. rewrite app_nil_r. split; [reflexivity|].
    split; [exact Hd|]. split; [constructor|]. split.
    + intros x [Hx|[]]. now apply Hr.
    + intros z Hn. split; [|intros []]. rewrite EF. intros Hx.
      apply survivors_In in Hx. now apply (Hu z Hn).
  - cbv zeta.
    pose proof (plain_scan_good T M _ Hids Score fw
                  (seqlen fw - kmersize T + 1) (0, 0, kmersize T) Hz eq_refl) as Hg.
    pose proof (fun z Hn => plain_scan_untouched T M _ Hids z Hn Score fw
                  (seqlen fw - kmersize T + 1) (0, 0, kmersize T) Hz eq_refl) as Hu.
    destruct (plain_scan T M Score fw _ _) as [ms [B Sc]]. cbn [fst snd] in Hg, Hu.
    pose proof (sweep_good_zero _ (fun t => rd TL t - kmersize T + 1) Sc B Hg)
      as (Hz1 & Hl1).
    destruct (sweep_candidates _ (fun t => rd TL t - kmersize T + 1) Sc B Hg) as (Hd & Hr).
    pose proof Hg as (_ & _ & HdB & _). cbn [snd] in HdB.
    pose proof (sweep_filter (fun t => rd TL t - kmersize T + 1) B Sc [] HdB) as EF.
    cbn [app] in EF.
    destruct (sweep _ B Sc []) as [B_fw Sc1]. cbn [fst snd] in EF, Hz1, Hl1, Hd, Hr.
    assert (HuF : forall z, (forall p, ~ In z (values T p)) -> ~ In z B_fw).
    { intros z Hn Hx. rewrite EF in Hx. apply survivors_In in Hx. now apply (Hu z Hn). }
    destruct (negb (prefix T =? 0)).
    + exists B_fw, []. cbn [map fst]. rewrite app_nil_r. split; [reflexivity|].
      split; [exact Hd|]. split; [constructor|]. split.
      * intros x [Hx|[]]. now apply Hr.
      * intros z Hn. split; [now apply HuF|intros []].
    + assert (Hids1 : ids_in_range T (length Sc1)) by (now rewrite Hl1).
      pose proof (plain_scan_good T M _ Hids1 Sc1 rc
                    (seqlen fw - kmersize T + 1) ms Hz1 eq_refl) as Hg2.
      pose proof (fun z Hn => plain_scan_untouched T M _ Hids1 z Hn Sc1 rc
                    (seqlen fw - kmersize T + 1) ms Hz1 eq_refl) as Hu2.
      destruct (plain_scan T M Sc1 rc _ ms) as [ms2 [B2 Sc2]].
      cbn [fst snd] in Hg2, Hu2.
      destruct (sweep_candidates _ (fun t => rd TL t - kmersize T + 1) Sc2 B2 Hg2)
        as (Hd2 & Hr2).
      pose proof Hg2 as (_ & _ & HdB2 & _). cbn [snd] in HdB2.
      pose proof (sweep_filter (fun t => rd TL t - kmersize T + 1) B2 Sc2 [] HdB2) as EF2.
      cbn [app] in EF2.
      destruct (sweep _ B2 Sc2 []) as [B_rc Sc3]. cbn [fst snd] in EF2, Hd2, Hr2 |- *.
      exists B_fw, B_rc. split; [reflexivity|].
      split; [exact Hd|]. split; [exact Hd2|]. split.
      * intros x [Hx|Hx]; [now apply Hr|]. rewrite <- Hl1. now apply Hr2.
      * intros z Hn. split; [now apply HuF|].
        intros Hx. rewrite EF2 in Hx. apply survivors_In in Hx. now apply (Hu2 z Hn).
Qed.

(** X8 ([reassign_kmers]): on a zeroed [Score] array of [n] cells whose
    value vectors hold ids in [[0, n)], every candidate left in
    [bestTemplates] has an absolute value in [[0, n)]; an id that no value
    vector holds is not a candidate on either strand; and, when no vector
    holds the id 0, no candidate is listed twice and there are at most
    [2 n] of them. *)
Theorem kmers_candidates_distinct (T : HashMapKMA) (M : Minimizer) (Score TL : list Z)
    (fw rc : CompDNA) :
  Forall (eq 0) Score ->
  ids_in_range T (length Score) ->
  (forall x, In x (fst (reassign_kmers T M Score TL fw rc)) ->
             0 <= NORM x < Z.of_nat (length Score)) /\
  (forall z, 0 <= z -> (forall p, ~ In z (values T p)) ->
             ~ In z (fst (reassign_kmers T M Score TL fw rc)) /\
             ~ In (- z) (fst (reassign_kmers T M Score TL fw rc))) /\
  ((forall p, ~ In 0 (values T p)) ->
   NoDup (fst (reassign_kmers T M Score TL fw rc)) /\
   (length (fst (reassign_kmers T M Score TL fw rc)) <= 2 * length Score)%nat).
Proof.
  intros Hz Hids.
  destruct (kmers_strands T M Score TL fw rc Hz Hids)
    as (F & R & E & HdF & HdR & Hr & Hu).
  rewrite E. split; [|split].
  - intros x Hx. apply in_app_iff in Hx. unfold NORM.
    destruct Hx as [Hx|Hx].
    + specialize (Hr x (or_introl Hx)). lia.
    + apply in_map_iff in Hx. destruct Hx as (y & <- & Hy).
      specialize (Hr y (or_intror Hy)). lia.
  - intros z Hz0 Hn. destruct (Hu z Hn) as (HF & HR).
    split; intros Hx; apply in_app_iff in Hx; destruct Hx as [Hx|Hx].
    + contradiction.
    + apply in_map_iff in Hx. destruct Hx as (y & Ey & Hy).
      specialize (Hr y (or_intror Hy)). assert (y = z) by lia. subst y. contradiction.
    + specialize (Hr _ (or_introl Hx)). assert (- z = z) as Ez by lia.
      rewrite Ez in Hx. contradiction.
    + apply in_map_iff in Hx. destruct Hx as (y & Ey & Hy).
      assert (y = z) by lia. subst y. contradiction.
  - intros H0. destruct (Hu 0 H0) as (HF & HR).
    assert (HpF : forall x, In x F -> 0 < x).
    { intros x Hx. specialize (Hr x (or_introl Hx)).
      destruct (Z.eq_dec x 0) as [->|]; [contradiction|lia]. }
    assert (HpR : forall x, In x R -> 0 < x).
    { intros x Hx. specialize (Hr x (or_intror Hx)).
      destruct (Z.eq_dec x 0) as [->|]; [contradiction|lia]. }
    split; [now apply NoDup_strands|].
    rewrite length_app, length_map.
    pose proof (NoDup_range_length (length Score) F HdF
                  (fun x Hx => Hr x (or_introl Hx))).
    pose proof (NoDup_range_length (length Score) R HdR
                  (fun x Hx => Hr x (or_intror Hx))).
    lia.
Qed.

Lemma kmers_candidates_distinct_witness :
  Forall (eq 0) [0; 0] /\ ids_in_range idx_plain (length [0; 0]) /\
  (forall x, In x (fst (reassign_kmers idx_plain no_minimizer [0; 0] [0; 10] cga_fw cga_fw)) ->
             0 <= NORM x < Z.of_nat (length [0; 0])).
Proof.
  assert (H1 : Forall (eq 0) [0; 0]) by (repeat constructor).
  split; [exact H1|]. split; [exact idx_plain_in_range|].
  exact (proj1 (kmers_candidates_distinct idx_plain no_minimizer [0; 0] [0; 10]
                  cga_fw cga_fw H1 idx_plain_in_range)).
Defined.

End CandidateListResult.

(** ** The scanner: a query shorter than one k-mer *)

Section ShortQuery.

Variable T : HashMapKMA.
Variable M : Minimizer.

Lemma prefix_outer_short {A : Type} (hit : Z -> A -> A) (sq : list Z) (Ns : list Z) :
  forall j ms (a : A),
    0 <= j -> 1 <= prefix_len T -> Forall (fun p => p <= kmersize T) Ns ->
    exists j', prefix_outer T M hit Ns sq j ms a = (j', ms, a) /\ 0 <= j'.
Proof.
  induction Ns as [|p Ns IH]; intros j ms a Hj Hp HN; cbn [prefix_outer].
  - now exists j.
  - inversion HN as [|? ? Hpk HN']; subst.
    replace (Z.to_nat (p - kmersize T - (j + (prefix_len T - 1)))) with 0%nat by lia.
    cbn [prefix_inner]. apply IH; auto; lia.
Qed.

Lemma prefix_pass_short {A : Type} (hit : Z -> A -> A) (qseq : CompDNA) ms (a : A) :
  1 <= prefix_len T -> seqlen qseq <= kmersize T ->
  Forall (fun p => p <= kmersize T) (N qseq) ->
  prefix_pass T M hit qseq ms a = (ms, a).
Proof.
  intros Hp Hl HN. unfold prefix_pass.
  destruct (prefix_outer_short hit (seq qseq) (N qseq ++ [seqlen qseq]) 0 ms a
              ltac:(lia) Hp) as (j' & E & _).
  { apply Forall_app. split; [exact HN|]. constructor; [exact Hl|constructor]. }
  now rewrite E.
Qed.

Lemma plain_pass_short {A : Type} (hit : Z -> A -> A) (qseq : CompDNA) seqend ms (a : A) :
  seqend <= 0 -> plain_pass T M hit qseq seqend ms a = (ms, a).
Proof.
  intros Hs. unfold plain_pass.
  destruct (N qseq ++ [seqlen qseq]) as [|p Ns]; cbn [plain_outer]; [reflexivity|].
  destruct (Z.ltb_spec 0 seqend); [lia|reflexivity].
Qed.

End ShortQuery.

Section ShortQueryResult.

Import Vectors.

(** X9 ([reassign_kmers]): when both strands of the query are shorter than
    one k-mer, no k-mer is looked up: the candidate list is empty and the
    [Score] array is left as it is, in prefix mode (with a prefix of at
    least one base) and in plain mode alike. *)
Theorem kmers_short_query (T : HashMapKMA) (M : Minimizer) (Score TL : list Z)
    (fw rc : CompDNA) :
  seqlen fw < kmersize T -> seqlen rc < kmersize T ->
  Forall (fun p => p <= kmersize T) (N fw) ->
  Forall (fun p => p <= kmersize T) (N rc) ->
  0 <= prefix_len T ->
  reassign_kmers T M Score TL fw rc = ([], Score).
Proof.
  intros Hfw Hrc HNfw HNrc Hp. unfold reassign_kmers.
  destruct (Z.eqb_spec (prefix_len T) 0) as [E0|E0]; cbn [negb].
  - cbv zeta. unfold plain_scan.
    rewrite plain_pass_short by lia. cbn [flush_last last Z.eqb negb bests Scores sweep].
    destruct (negb (prefix T =? 0)); [reflexivity|].
    rewrite plain_pass_short by lia. cbn [flush_last last Z.eqb negb bests Scores sweep].
    reflexivity.
  - unfold prefix_scan.
    rewrite prefix_pass_short by (auto; lia).
    cbn [flush_last last Z.eqb negb bests Scores].
    rewrite prefix_pass_short by (auto; lia).
    cbn [flush_last last Z.eqb negb bests Scores sweep]. reflexivity.
Qed.

Lemma kmers_short_query_witness :
  seqlen (mkCompDNA 2 [pack [C_; G_]; 0] []) < kmersize idx_prefix /\
  reassign_kmers idx_prefix no_minimizer [0; 7] [0; 3; 0; 4]
    (mkCompDNA 2 [pack [C_; G_]; 0] []) (mkCompDNA 2 [pack [C_; G_]; 0] [])
  = ([], [0; 7]).
Proof.
  assert (H : seqlen (mkCompDNA 2 [pack [C_; G_]; 0] []) < kmersize idx_prefix)
    by (simpl; lia).
  split; [exact H|].
  apply (kmers_short_query idx_prefix no_minimizer [0; 7] [0; 3; 0; 4]
           (mkCompDNA 2 [pack [C_; G_]; 0] []) (mkCompDNA 2 [pack [C_; G_]; 0] []) H H);
    [constructor|constructor|simpl; lia].
Defined.

End ShortQueryResult.

(** ** The heap: what one call of the sift guarantees *)

Section HeapLocal.

Variable L : list Z.

(** A call at [index] leaves every cell before the one at [index]
    untouched, the count among them. *)
Lemma heapify_frame (fuel : nat) :
  forall mem b idx mem' k,
    reassign_heapify fuel mem b L idx = Some (mem', k) -> 0 <= idx ->
    length mem' = length mem /\
    forall j, j < b + 1 + idx -> rd mem' j = rd mem j.
Proof.
  induction fuel as [|fuel IH]; intros mem b idx mem' k H Hi; [discriminate|].
  cbn [reassign_heapify] in H. rewrite Z.shiftl_mul_pow2 in H by lia.
  change (2 ^ 1) with 2 in H.
  set (n := rd mem b) in *.
  set (c1 := (idx * 2 + 1 <? n) &&
             (rd L (NORM (rd mem (b + 1 + idx)))
              <? rd L (NORM (rd mem (b + 1 + (idx * 2 + 1)))))) in *.
  set (r1 := if c1 then idx * 2 + 1 else idx) in *.
  set (c2 := (idx * 2 + 1 + 1 <? n) &&
             (rd L (NORM (rd mem (b + 1 + r1)))
              <? rd L (NORM (rd mem (b + 1 + (idx * 2 + 1 + 1)))))) in *.
  set (r2 := if c2 then idx * 2 + 1 + 1 else r1) in *.
  assert (Hr2 : idx <= r2) by (destruct c2, c1; subst r2 r1; lia).
  destruct (Z.eqb_spec r2 idx) as [E|E]; cbn [negb] in H.
  - injection H as <- <-. auto.
  - match type of H with
    | match reassign_heapify _ ?m _ _ _ with _ => _ end = _ => set (mem2 := m) in *
    end.
    destruct (reassign_heapify fuel mem2 (b + 1) L r2) as [[m3 k3]|] eqn:Er;
      [|discriminate].
    injection H as <- <-.
    destruct (IH _ _ _ _ _ Er ltac:(lia)) as (Hl & Hfr).
    split.
    + rewrite Hl. subst mem2. now rewrite !length_wr.
    + intros j Hj. rewrite Hfr by lia. subst mem2.
      rewrite !rd_wr_other by lia. reflexivity.
Qed.

End HeapLocal.

Section HeapLocalResult.

Import Vectors.

(** X10 ([reassign_heapify]): when the call at [index] returns on a buffer
    that holds its [n] counted cells, the cells before the one at [index]
    are unchanged, the count among them, and the candidate left at [index]
    is at least as long as the candidate that was there and as each of its
    children [2 index + 1] and [2 index + 2] below [n]. *)
Theorem heapify_lifts_longest (fuel : nat) (mem : list Z) (b : Z) (L : list Z)
    (idx : Z) (mem' : list Z) (k : Z) :
  reassign_heapify fuel mem b L idx = Some (mem', k) ->
  0 <= b -> 0 <= idx -> b + rd mem b < Z.of_nat (length mem) ->
  let key := fun (m : list Z) (j : Z) => rd L (NORM (rd m (b + 1 + j))) in
  (forall j, j < b + 1 + idx -> rd mem' j = rd mem j) /\
  length mem' = length mem /\
  key mem idx <= key mem' idx /\
  (2 * idx + 1 < rd mem b -> key mem (2 * idx + 1) <= key mem' idx) /\
  (2 * idx + 2 < rd mem b -> key mem (2 * idx + 2) <= key mem' idx).
Proof.
  intros H Hb Hi Hn key.
  destruct (heapify_frame L fuel mem b idx mem' k H Hi) as (Hl & Hfr).
  split; [exact Hfr|]. split; [exact Hl|].
  destruct fuel as [|fuel]; [discriminate|].
  cbn [reassign_heapify] in H. rewrite Z.shiftl_mul_pow2 in H by lia.
  change (2 ^ 1) with 2 in H.
  set (n := rd mem b) in *.
  replace (idx * 2 + 1 + 1) with (2 * idx + 2) in H by lia.
  replace (idx * 2 + 1) with (2 * idx + 1) in H by lia.
  fold (key mem idx) in H. fold (key mem (2 * idx + 1)) in H.
  fold (key mem (2 * idx + 2)) in H.
  set (c1 := (2 * idx + 1 <? n) && (key mem idx <? key mem (2 * idx + 1))) in *.
  set (r1 := if c1 then 2 * idx + 1 else idx) in *.
  fold (key mem r1) in H.
  set (c2 := (2 * idx + 2 <? n) && (key mem r1 <? key mem (2 * idx + 2))) in *.
  set (r2 := if c2 then 2 * idx + 2 else r1) in *.
  (* the longest of the three is at [r2] *)
  assert (Hmax : key mem idx <= key mem r2 /\
                 (2 * idx + 1 < n -> key mem (2 * idx + 1) <= key mem r2) /\
                 (2 * idx + 2 < n -> key mem (2 * idx + 2) <= key mem r2) /\
                 (r2 = idx \/ (idx < r2 < n))).
  { subst r2 c2 r1 c1.
    destruct (Z.ltb_spec (2 * idx + 1) n);
      destruct (Z.ltb_spec (key mem idx) (key mem (2 * idx + 1))); cbn [andb];
      destruct (Z.ltb_spec (2 * idx + 2) n); cbn [andb];
      try (destruct (Z.ltb_spec (key mem (2 * idx + 1)) (key mem (2 * idx + 2))));
      try (destruct (Z.ltb_spec (key mem idx) (key mem (2 * idx + 2))));
      cbn [andb]; repeat split; try lia. }
  destruct Hmax as (H1 & H2 & H3 & Hr).
  destruct (Z.eqb_spec r2 idx) as [E|E]; cbn [negb] in H.
  - injection H as <- <-. rewrite E in *. auto.
  - destruct Hr as [Hr|Hr]; [contradiction|].
    match type of H with
    | match reassign_heapify _ ?m _ _ _ with _ => _ end = _ => set (mem2 := m) in *
    end.
    destruct (reassign_heapify fuel mem2 (b + 1) L r2) as [[m3 k3]|] eqn:Er;
      [|discriminate].
    injection H as <- <-.
    destruct (heapify_frame L fuel mem2 (b + 1) r2 m3 k3 Er ltac:(lia)) as (_ & Hf2).
    assert (Ek : key m3 idx = key mem r2).
    { unfold key. rewrite Hf2 by lia. subst mem2.
      rewrite rd_wr_other by lia. rewrite rd_wr_same by lia. reflexivity. }
    rewrite Ek. auto.
Qed.

Lemma heapify_lifts_longest_witness :
  exists mem' k,
    reassign_heapify 10 heap_bests 0 heap_lengths 0 = Some (mem', k) /\
    0 + rd heap_bests 0 < Z.of_nat (length heap_bests) /\
    rd heap_lengths (NORM (rd heap_bests (0 + 1 + (2 * 0 + 1))))
    <= rd heap_lengths (NORM (rd mem' (0 + 1 + 0))).
Proof.
  destruct (reassign_heapify 10 heap_bests 0 heap_lengths 0) as [[mem' k]|] eqn:E;
    [|vm_compute in E; discriminate E].
  exists mem', k. split; [reflexivity|].
  assert (Hn : 0 + rd heap_bests 0 < Z.of_nat (length heap_bests)) by reflexivity.
  split; [exact Hn|].
  destruct (heapify_lifts_longest 10 heap_bests 0 heap_lengths 0 mem' k E
              ltac:(lia) ltac:(lia) Hn) as (_ & _ & _ & H & _).
  apply H. reflexivity.
Defined.

(** X11 ([reassign_popheap]): on an empty heap the call returns 0 and
    leaves the buffer as it is; otherwise it returns the candidate of slot
    1, lowers the count by one and keeps the size of the buffer. *)
Theorem popheap_takes_root (fuel : nat) (mem : list Z) (L : list Z) :
  (length mem < fuel)%nat -> 0 <= rd mem 0 ->
  exists mem',
    reassign_popheap fuel mem 0 L
    = Some (mem', if rd mem 0 =? 0 then 0 else rd mem 1) /\
    length mem' = length mem /\
    (rd mem 0 = 0 -> mem' = mem) /\
    (rd mem 0 <> 0 -> rd mem' 0 = rd mem 0 - 1).
Proof.
  intros Hf Hc. unfold reassign_popheap. cbn [Z.add].
  destruct (Z.eqb_spec (rd mem 0) 0) as [E|E].
  - exists mem. repeat split; auto. intros; contradiction.
  - rewrite (rd_wr_other mem 1 0) by lia.
    set (mem1 := wr (wr mem 1 (rd mem (rd mem 0))) 0 (rd mem 0 - 1)).
    assert (Hl1 : length mem1 = length mem) by (subst mem1; now rewrite !length_wr).
    assert (Hlen : (0 < length mem)%nat).
    { destruct mem; [|simpl; lia]. exfalso; apply E. reflexivity. }
    assert (H01 : rd mem1 0 = rd mem 0 - 1).
    { subst mem1. apply rd_wr_same. rewrite length_wr. lia. }
    assert (Hok1 : cells_ok mem1 mem1).
    { intros i Hi. unfold rd. destruct (Z.ltb_spec i 0); [now left|].
      destruct (Nat.lt_ge_cases (Z.to_nat i) (length mem1)) as [Hlt|Hge].
      - right. now apply nth_In.
      - left. now apply nth_overflow. }
    destruct (heapify_total mem1 L fuel mem1 0 0) as (mem2 & k & Em & Hl2 & H02 & _);
      auto; try lia.
    rewrite Em. exists mem2. split; [reflexivity|]. split; [congruence|].
    split; [intros; contradiction|intros _; congruence].
Qed.

Lemma popheap_takes_root_witness :
  (length heap_bests < 10)%nat /\ 0 <= rd heap_bests 0 /\
  exists mem',
    reassign_popheap 10 heap_bests 0 heap_lengths
    = Some (mem', if rd heap_bests 0 =? 0 then 0 else rd heap_bests 1) /\
    length mem' = length heap_bests.
Proof.
  assert (H1 : (length heap_bests < 10)%nat) by (simpl; lia).
  assert (H2 : 0 <= rd heap_bests 0) by (vm_compute; discriminate).
  split; [exact H1|]. split; [exact H2|].
  destruct (popheap_takes_root 10 heap_bests heap_lengths H1 H2) as (mem' & E & Hl & _).
  exists mem'. split; [exact E|exact Hl].
Defined.

End HeapLocalResult.

(** ** The orchestrator: the packed query and the returned template *)

Section QueryConversion.

Import Vectors.

Lemma skipn_nth_cons (l : list Z) (i : nat) :
  (i < length l)%nat -> skipn i l = nth i l 0 :: skipn (S i) l.
Proof.
  revert i; induction l as [|x l IH]; intros [|i] H; simpl in *; try lia; auto.
  apply IH. lia.
Qed.

(** The loop keeps, in order, the nibbles of the source bytes that are at
    most 4. *)
Lemma consensus2qseq_loop_filter (trans : Z -> Z) (src : list Z) (n : nat) :
  forall i : nat,
    (i + n <= length src)%nat ->
    consensus2qseq_loop n src (Z.of_nat i) trans
    = filter (fun x => x <=? 4) (map trans (firstn n (skipn i src))).
Proof.
  induction n as [|n IH]; intros i Hi; [reflexivity|].
  cbn [consensus2qseq_loop].
  rewrite (skipn_nth_cons src i) by lia. cbn [firstn map filter].
  replace (Z.of_nat i + 1) with (Z.of_nat (S i)) by lia.
  rewrite (IH (S i)) by lia.
  unfold rd. destruct (Z.ltb_spec (Z.of_nat i) 0); [lia|]. rewrite Nat2Z.id.
  reflexivity.
Qed.

(** X12 ([consensus2qseq]): for a length within the source, the bytes
    written to the destination are, in order, the nibbles at most 4 of the
    first [len] source bytes; the returned count is their number, it is
    stored as the destination's length, it is at most [len], and the
    destination's capacity is at least [len] afterwards. *)
Theorem consensus2qseq_keeps_bases (src : list Z) (len : Z) (dest : Qseqs)
    (trans : Z -> Z) :
  0 <= len <= Z.of_nat (length src) ->
  let r := consensus2qseq src len dest trans in
  firstn (Z.to_nat (snd r)) (qs_seq (fst r))
  = filter (fun x => x <=? 4) (map trans (firstn (Z.to_nat len) src)) /\
  qs_len (fst r) = snd r /\ 0 <= snd r <= len /\ len <= qs_size (fst r).
Proof.
  intros Hlen. unfold consensus2qseq. cbv zeta. cbn [fst snd qs_seq qs_len qs_size].
  pose proof (consensus2qseq_loop_filter trans src (Z.to_nat len) 0 ltac:(lia)) as E.
  cbn [Z.of_nat skipn] in E. rewrite E.
  set (w := filter _ _).
  assert (Hw : (length w <= Z.to_nat len)%nat).
  { unfold w. etransitivity; [apply filter_length_le|].
    rewrite length_map, length_firstn. lia. }
  rewrite Nat2Z.id. split.
  - rewrite firstn_app, Nat.sub_diag, firstn_all. cbn [firstn]. apply app_nil_r.
  - split; [reflexivity|]. split; [lia|].
    destruct (Z.ltb_spec (qs_size dest) len); lia.
Qed.

Lemma consensus2qseq_keeps_bases_witness :
  0 <= 5 <= Z.of_nat (length [65; 45; 45; 84; 67; 0]) /\
  firstn (Z.to_nat (snd (consensus2qseq [65; 45; 45; 84; 67; 0] 5 (mkQseqs [] 0 0) nibble)))
    (qs_seq (fst (consensus2qseq [65; 45; 45; 84; 67; 0] 5 (mkQseqs [] 0 0) nibble)))
  = [0; 3; 1].
Proof.
  assert (H : 0 <= 5 <= Z.of_nat (length [65; 45; 45; 84; 67; 0])) by (simpl; lia).
  split; [exact H|].
  exact (proj1 (consensus2qseq_keeps_bases [65; 45; 45; 84; 67; 0] 5
                  (mkQseqs [] 0 0) nibble H)).
Defined.

End QueryConversion.

(** ** The candidate buffer as the scan leaves it *)

Section BufferFacts.





End BufferFacts.

Section BufferFit.



End BufferFit.

Section BufferImage.

Variable T : HashMapKMA.
Variable M : Minimizer.



End BufferImage.

(** ** The orchestrator: the returned template *)

Section ReturnedTemplate.

Variable B : list Z.
Variable L : list Z.

(** Whatever the sift exchanges, a cell behind the count holds zero or a
    candidate. *)
Lemma heapify_cells_ok (fuel : nat) :
  forall mem b idx mem' k,
    reassign_heapify fuel mem b L idx = Some (mem', k) -> 0 <= b -> 0 <= idx ->
    cells_ok B mem -> cells_ok B mem'.
Proof.
  induction fuel as [|fuel IH]; intros mem b idx mem' k H Hb Hi Hok; [discriminate|].
  cbn [reassign_heapify] in H. rewrite Z.shiftl_mul_pow2 in H by lia.
  change (2 ^ 1) with 2 in H.
  match type of H with
  | (if negb (?r =? idx) then _ else _) = _ => set (r2 := r) in *
  end.
  assert (Hr2 : idx <= r2).
  { subst r2.
    repeat match goal with |- context [if ?c then _ else _] => destruct c end; lia. }
  destruct (Z.eqb_spec r2 idx) as [E|E]; cbn [negb] in H.
  - injection H as <- <-. exact Hok.
  - match type of H with
    | match reassign_heapify _ ?m _ _ _ with _ => _ end = _ => set (mem2 := m) in *
    end.
    destruct (reassign_heapify fuel mem2 (b + 1) L r2) as [[m3 k3]|] eqn:Er;
      [|discriminate].
    injection H as <- <-.
    apply (IH _ _ _ _ _ Er); try lia.
    subst mem2. apply cells_ok_wr; [apply cells_ok_wr; auto|]; apply Hok; lia.
Qed.

Lemma popheap_cells_ok (fuel : nat) (mem mem' : list Z) (t : Z) :
  reassign_popheap fuel mem 0 L = Some (mem', t) ->
  cells_ok B mem -> cells_ok B mem' /\ (t = 0 \/ In t B).
Proof.
  unfold reassign_popheap. cbn [Z.add]. intros H Hok.
  destruct (Z.eqb_spec (rd mem 0) 0) as [E|E].
  - injection H as <- <-. split; [exact Hok|now left].
  - match type of H with
    | match reassign_heapify _ ?m _ _ _ with _ => _ end = _ => set (mem1 := m) in *
    end.
    destruct (reassign_heapify fuel mem1 0 L 0) as [[m2 k2]|] eqn:Er; [|discriminate].
    injection H as <- <-. split; [|apply Hok; lia].
    apply (heapify_cells_ok _ _ _ _ _ _ Er); try lia.
    subst mem1. intros i Hi. rewrite rd_wr_other by lia.
    revert i Hi. apply cells_ok_wr; auto.
    destruct (Z.le_gt_cases 1 (rd mem 0)); [apply Hok; lia|left].
    unfold rd at 1. destruct (Z.ltb_spec (rd mem 0) 0); [reflexivity|lia].
Qed.

Lemma buildheap_loop_cells_ok (fuel : nat) (i : nat) :
  forall mem n mem' k,
    buildheap_loop fuel i mem 0 L n = Some (mem', k) ->
    cells_ok B mem -> cells_ok B mem'.
Proof.
  induction i as [|i IH]; intros mem n mem' k H Hok; cbn [buildheap_loop] in H.
  - injection H as <- <-. exact Hok.
  - destruct (reassign_heapify fuel mem 0 L (Z.of_nat i)) as [[m1 k1]|] eqn:Er;
      [|discriminate].
    apply (IH _ _ _ _ H).
    apply (heapify_cells_ok _ _ _ _ _ _ Er); auto; lia.
Qed.

End ReturnedTemplate.

Section ReturnedTemplateLoop.

Variable T : HashMapKMA.
Variable E : Externals.
Variable TL : list Z.
Variable B : list Z.
Variables qc qrc : CompDNA.
Variables hf mf : nat.

Lemma candidates_loop_accepted (fuel : nat) :
  forall mem tseq template match_ mem' tseq' t' m',
    candidates_loop fuel hf mf T E TL qc qrc mem tseq template match_
    = Some (mem', tseq', t', m') ->
    cells_ok B mem ->
    match_ < 0 \/ accepted T E TL B qc qrc mf template match_ ->
    t' = 0 \/ accepted T E TL B qc qrc mf t' m'.
Proof.
  induction fuel as [|fuel IH];
    intros mem tseq template match_ mem' tseq' t' m' H Hok Hin;
    cbn [candidates_loop] in H.
  - destruct (Z.ltb_spec match_ 0) as [Hm|Hm]; [discriminate|].
    injection H as <- <- <- <-. right. destruct Hin as [Hin|Hin]; [lia|exact Hin].
  - destruct (Z.ltb_spec match_ 0) as [Hm|Hm].
    + destruct (reassign_popheap hf mem 0 TL) as [[mem1 t1]|] eqn:Ep; [|discriminate].
      destruct (popheap_cells_ok B TL hf mem mem1 t1 Ep Hok) as (Hok1 & Ht1).
      destruct (Z.eqb_spec t1 0) as [E0|E0].
      * injection H as <- <- <- <-. left. exact E0.
      * destruct (candidate_match mf T E TL qc qrc t1) as [ts [m|]] eqn:Ec;
          [|discriminate].
        apply (IH _ _ _ _ _ _ _ _ H Hok1).
        destruct (Z.lt_ge_cases m 0) as [Hlt|Hge]; [now left|right].
        destruct Ht1 as [Ht1|Ht1]; [contradiction|].
        repeat split; auto. now rewrite Ec.
    + injection H as <- <- <- <-. right. destruct Hin as [Hin|Hin]; [lia|exact Hin].
Qed.

End ReturnedTemplateLoop.

Section ReturnedTemplateResult.

Import Vectors.

(** Every cell behind the count cell holds zero or one of the values of
    these cells. *)
Lemma cells_ok_tl (mem : list Z) : cells_ok (tl mem) mem.
Proof.
  intros i Hi. unfold rd. destruct (Z.ltb_spec i 0); [lia|].
  destruct mem as [|c mem]; [left; now destruct (Z.to_nat i)|].
  destruct (Z.to_nat i) as [|j] eqn:Ei; [lia|]. cbn [nth tl].
  destruct (Nat.lt_ge_cases j (length mem)) as [Hl|Hl].
  - right. now apply nth_In.
  - left. now apply nth_overflow.
Qed.

(** The two outcomes of a call that returns. *)
Lemma reassign_template_outcome (fuel : nat) (T : HashMapKMA) (E : Externals)
    (template_lengths : list Z) (st st' : State) (r : Z) :
  reassign_template fuel T E template_lengths st = Some (st', r) ->
  (r = 0 /\ st_assem st' = st_assem st /\ st_matrix st' = st_matrix st) \/
  (exists x m,
     In x (tl (candidate_buffer T E template_lengths st)) /\ x <> 0 /\ r = NORM x /\
     0 <= m /\
     snd (candidate_match fuel T E template_lengths
            (fst (packed_consensus E st)) (snd (packed_consensus E st)) x) = Some m).
Proof.
  unfold candidate_buffer, packed_consensus, reassign_template.
  destruct (consensus2qseq _ _ _ _) as [qseq n0]. cbn [fst snd].
  destruct (reassign_kmers _ _ _ _ _ _) as [C Score].
  set (mem0 := reassign_kmers_buffer _ _ _ _ _ _ _).
  intros H. unfold reassign_buildheap in H.
  destruct (buildheap_loop _ _ _ _ _ _) as [[mem k]|] eqn:Eb; [|discriminate].
  pose proof (buildheap_loop_cells_ok (tl mem0) template_lengths _ _ _ _ _ _ Eb
                (cells_ok_tl mem0)) as Hok.
  destruct (candidates_loop _ _ _ _ _ _ _ _ _ _ _ _) as [[[[mem1 tseq] t1] m1]|] eqn:El;
    [|discriminate].
  pose proof (candidates_loop_accepted T E template_lengths (tl mem0) _ _ fuel fuel fuel
                _ _ _ _ _ _ _ _ El Hok ltac:(left; lia)) as Hacc.
  destruct (Z.eqb_spec t1 0) as [E0|E0].
  - injection H as <- <-. left. auto.
  - destruct Hacc as [Hacc|(Hx & Hin & Hm & Hc)]; [contradiction|].
    right. exists t1, m1.
    assert (Er : r = NORM t1).
    { destruct (Z.ltb_spec t1 0) as [Hneg|Hpos];
        destruct (reassign_matrix_offset _ _ _ _ _ _) as [[[mx am] ins]|];
        try discriminate;
        destruct (getExtendedFeatures _ _ _ _ _ _ _) as [am'|]; try discriminate;
        injection H as _ <-; unfold NORM; lia. }
    repeat split; auto.
Qed.

(** X13 ([reassign_template]): whenever the call returns, either the
    result is 0 and the consensus record and the matrix are the ones passed
    in, or the result is the absolute value of an id other than 0 that the
    scan left in a cell of [bestTemplates] behind the count cell (a listed
    candidate, or an id lying behind the listed ones), and the matcher
    placed the sequence of that id at an offset that is not negative. *)
Theorem reassign_template_result (fuel : nat) (T : HashMapKMA) (E : Externals)
    (template_lengths : list Z) (st st' : State) (r : Z) :
  reassign_template fuel T E template_lengths st = Some (st', r) ->
  (r = 0 /\ st_assem st' = st_assem st /\ st_matrix st' = st_matrix st) \/
  (exists x m,
     In x (tl (candidate_buffer T E template_lengths st)) /\ x <> 0 /\ r = NORM x /\
     0 <= m /\
     snd (candidate_match fuel T E template_lengths
            (fst (packed_consensus E st)) (snd (packed_consensus E st)) x) = Some m).
Proof. apply reassign_template_outcome. Qed.

Lemma reassign_template_result_witness :
  exists st' r,
    reassign_template 8 idx_plain env_t10 [0; 10] cga_state = Some (st', r) /\
    ((r = 0 /\ st_assem st' = st_assem cga_state /\ st_matrix st' = st_matrix cga_state) \/
     (exists x m,
        In x (tl (candidate_buffer idx_plain env_t10 [0; 10] cga_state)) /\ x <> 0 /\
        r = NORM x /\ 0 <= m /\
        snd (candidate_match 8 idx_plain env_t10 [0; 10]
               (fst (packed_consensus env_t10 cga_state))
               (snd (packed_consensus env_t10 cga_state)) x) = Some m)).
Proof.
  destruct (reassign_template 8 idx_plain env_t10 [0; 10] cga_state)
    as [[st' r]|] eqn:E; [|vm_compute in E; discriminate E].
  exists st', r. split; [reflexivity|].
  exact (reassign_template_result 8 idx_plain env_t10 [0; 10] cga_state st' r E).
Defined.

End ReturnedTemplateResult.

(** ** The orchestrator: the path without reassignment *)

Section NoReassignment.

Variable T : HashMapKMA.
Variable E : Externals.
Variable TL : list Z.
Variables qc qrc : CompDNA.



End NoReassignment.

Section NoReassignmentResult.

Import Vectors.



(** X27 ([reassign_template]): the candidates that the heap gives out are
    not the ones that the scanner lists.  On an index of 15 templates that
    knows the 16-mer [T^16] for the templates 2, 11, 12, 13, 14 and 15, and
    the consensus [C^32 T^38], the scanner lists the candidates 2, 11 and
    12 and drops 13, 14 and 15, whose ids stay in the buffer behind the
    three listed; the matcher rejects every listed candidate; the heap,
    whose recursive step reads the buffer one cell further at each level,
    gives out 11 and then the dropped id 15, and the call returns 15; the
    listed candidate 12 is never tried. *)
Theorem swept_candidate_reassigned :
  candidates idx_t16 env_t16 lengths16 c32t38_state = [2; 11; 12] /\
  firstn 7 (candidate_buffer idx_t16 env_t16 lengths16 c32t38_state)
  = [3; 2; 11; 12; 13; 14; 15] /\
  (forall x, In x [2; 11; 12] ->
     snd (candidate_match 80 idx_t16 env_t16 lengths16
            (fst (packed_consensus env_t16 c32t38_state))
            (snd (packed_consensus env_t16 c32t38_state)) x) = Some (-1)) /\
  popped 80 idx_t16 env_t16 lengths16 c32t38_state = [11; 15; 2] /\
  exists st', reassign_template 80 idx_t16 env_t16 lengths16 c32t38_state = Some (st', 15).
Proof.
  split; [vm_compute; reflexivity|]. split; [vm_compute; reflexivity|].
  split; [|split; [vm_compute; reflexivity|]].
  - intros x [<-|[<-|[<-|[]]]]; vm_compute; reflexivity.
  - destruct (reassign_template 80 idx_t16 env_t16 lengths16 c32t38_state)
      as [[st' r]|] eqn:E; [|vm_compute in E; discriminate E].
    exists st'. f_equal. f_equal.
    assert (Er : option_map snd (Some (st', r)) = Some 15)
      by (rewrite <- E; vm_compute; reflexivity).
    now injection Er.
Qed.

End NoReassignmentResult.

(** ** The matrix rewriter: arena operations *)

Section ArenaFacts.

Lemma length_upd_node (a : list Assembly) (i : nat) (v : Assembly) :
  length (upd_node a i v) = length a.
Proof.
  revert i; induction a as [|x a IH]; intros [|i]; simpl; auto.
Qed.

Lemma length_set_node (a : list Assembly) (i : Z) (v : Assembly) :
  length (set_node a i v) = length a.
Proof.
  unfold set_node. destruct (i <? 0); [reflexivity|apply length_upd_node].
Qed.

Lemma length_set_next (a : list Assembly) (i nx : Z) :
  length (set_next a i nx) = length a.
Proof. apply length_set_node. Qed.

Lemma nth_upd_node_same (a : list Assembly) (i : nat) (v : Assembly) :
  (i < length a)%nat -> nth i (upd_node a i v) node0 = v.
Proof.
  revert i; induction a as [|x a IH]; intros [|i] H; simpl in *; try lia; auto.
  apply IH; lia.
Qed.

Lemma nth_upd_node_other (a : list Assembly) (i j : nat) (v : Assembly) :
  i <> j -> nth j (upd_node a i v) node0 = nth j a node0.
Proof.
  revert i j; induction a as [|x a IH]; intros [|i] [|j] H; simpl; auto; try lia.
Qed.

Lemma node_set_node_same (a : list Assembly) (i : Z) (v : Assembly) :
  0 <= i < Z.of_nat (length a) -> node (set_node a i v) i = v.
Proof.
  intros H. unfold node, set_node. destruct (Z.ltb_spec i 0); [lia|].
  apply nth_upd_node_same; lia.
Qed.

Lemma node_set_node_other (a : list Assembly) (i j : Z) (v : Assembly) :
  i <> j -> node (set_node a i v) j = node a j.
Proof.
  intros H. unfold node, set_node.
  destruct (Z.ltb_spec i 0); [reflexivity|].
  destruct (Z.ltb_spec j 0); [reflexivity|].
  apply nth_upd_node_other; lia.
Qed.

Lemma node_set_node (a : list Assembly) (i j : Z) (v : Assembly) :
  0 <= i < Z.of_nat (length a) ->
  node (set_node a i v) j = if j =? i then v else node a j.
Proof.
  intros H. destruct (Z.eqb_spec j i) as [->|Hne].
  - now apply node_set_node_same.
  - apply node_set_node_other. congruence.
Qed.

Lemma node_outside (a : list Assembly) (i : Z) :
  Z.of_nat (length a) <= i -> node a i = node0.
Proof.
  intros H. unfold node. destruct (Z.ltb_spec i 0); [reflexivity|].
  apply nth_overflow. lia.
Qed.

Lemma length_resize (a : list Assembly) (n : Z) :
  Z.of_nat (length a) <= n -> Z.of_nat (length (resize a n)) = n.
Proof.
  intros H. unfold resize. rewrite length_app, length_firstn, repeat_length. lia.
Qed.

(** Growing the arena keeps every node. *)
Lemma node_resize (a : list Assembly) (n i : Z) :
  Z.of_nat (length a) <= n -> node (resize a n) i = node a i.
Proof.
  intros H. unfold resize.
  rewrite firstn_all2 by lia.
  unfold node. destruct (Z.ltb_spec i 0); [reflexivity|].
  destruct (Nat.lt_ge_cases (Z.to_nat i) (length a)) as [Hl|Hl].
  - now rewrite app_nth1.
  - rewrite app_nth2 by exact Hl. rewrite nth_repeat.
    symmetry. now apply nth_overflow.
Qed.

(** With more iterations than nodes below [asm_ptr], the loop reads before
    the arena. *)
Lemma bias_loop_before_arena (bias : Z) (n : nat) :
  forall a ni ai, 0 <= ai < Z.of_nat n -> bias_loop n a ni ai bias = None.
Proof.
  induction n as [|n IH]; intros a ni ai Hai; [lia|].
  cbn [bias_loop]. destruct (Z.ltb_spec (ai - 1) 0) as [Hlt|Hge]; [reflexivity|].
  apply IH. lia.
Qed.

End ArenaFacts.

Section ArenaResults.

Import Vectors.

(** X14 ([reassign_matrix_bias]): for every positive [bias], on a matrix
    with [len >= 0] columns in use, the copying loop is entered with the new
    length [len + bias] as trip count, so that after [len] copies it steps
    [asm_ptr] below the first node and reads before the arena: the call has
    no defined result.  With a [bias] that is not positive and room left in
    the arena, the call returns 0 and leaves the matrix as it is. *)
Theorem matrix_bias_reads_before_arena (matrix : AssemInfo) (bias : Z) :
  0 <= len matrix ->
  (0 < bias -> reassign_matrix_bias matrix bias = None) /\
  (bias <= 0 -> len matrix + bias < size matrix ->
   reassign_matrix_bias matrix bias = Some (matrix, 0)).
Proof.
  intros Hlen. unfold reassign_matrix_bias. split.
  - intros Hb. destruct (Z.leb_spec bias 0) as [H0|H0]; [lia|]. rewrite andb_false_r.
    rewrite bias_loop_before_arena by lia. reflexivity.
  - intros Hb Hroom.
    destruct (Z.leb_spec (size matrix) (len matrix + bias)) as [H1|H1]; [lia|].
    destruct (Z.leb_spec bias 0) as [H0|H0]; [reflexivity|lia].
Qed.

Lemma matrix_bias_reads_before_arena_witness :
  0 <= len rw_matrix /\ 0 < 2 /\ reassign_matrix_bias rw_matrix 2 = None.
Proof.
  assert (H1 : 0 <= len rw_matrix) by (simpl; lia).
  assert (H2 : 0 < 2) by lia.
  split; [exact H1|]. split; [exact H2|].
  exact (proj1 (matrix_bias_reads_before_arena rw_matrix 2 H1) H2).
Defined.

(** X15 ([reassign_matrix_insertions]): on an arena of [size] cells of which
    [len] are in use, the call returns the index [len] of the first free
    cell, takes it into use with its link cleared, grows the arena by 1024
    cells exactly when it was full, so that the cells in use still fit, and
    keeps every other node of the old arena; the tallies of the cell taken
    are kept as well when that cell lies in the old arena (in a grown arena
    they are what [realloc] returns, of which nothing is stated). *)
Theorem matrix_insertions_allocates (matrix : AssemInfo) :
  0 <= len matrix <= size matrix ->
  Z.of_nat (length (assmb matrix)) = size matrix ->
  let r := reassign_matrix_insertions matrix in
  snd r = len matrix /\
  len (fst r) = len matrix + 1 /\
  size (fst r) = (if size matrix =? len matrix then size matrix + 1024 else size matrix) /\
  len (fst r) <= size (fst r) /\
  Z.of_nat (length (assmb (fst r))) = size (fst r) /\
  next (node (assmb (fst r)) (len matrix)) = 0 /\
  (len matrix < size matrix ->
   counts (node (assmb (fst r)) (len matrix)) = counts (node (assmb matrix) (len matrix))) /\
  forall i, 0 <= i < size matrix -> i <> len matrix ->
    node (assmb (fst r)) i = node (assmb matrix) i.
Proof.
  intros Hlen Hsz. unfold reassign_matrix_insertions. cbv zeta.
  cbn [fst snd len size assmb].
  set (realloc := size matrix =? len matrix).
  set (sz := if realloc then size matrix + 1024 else size matrix).
  set (a := if realloc then resize (assmb matrix) sz else assmb matrix).
  assert (Hsz' : len matrix + 1 <= sz).
  { unfold sz, realloc. destruct (Z.eqb_spec (size matrix) (len matrix)); lia. }
  assert (Hla : Z.of_nat (length a) = sz).
  { unfold a, sz, realloc.
    destruct (Z.eqb_spec (size matrix) (len matrix)); [|exact Hsz].
    apply length_resize. lia. }
  assert (Hna : forall i, node a i = node (assmb matrix) i).
  { intros i. unfold a, sz, realloc.
    destruct (Z.eqb_spec (size matrix) (len matrix)); [|reflexivity].
    apply node_resize. lia. }
  split; [reflexivity|]. split; [reflexivity|]. split; [reflexivity|].
  split; [exact Hsz'|]. split; [now rewrite length_set_next|].
  unfold set_next. rewrite node_set_node_same by lia. cbn [next counts].
  split; [reflexivity|]. split; [intros _; now rewrite Hna|].
  intros i _ Hi. rewrite node_set_node_other by congruence. apply Hna.
Qed.

Lemma matrix_insertions_allocates_witness :
  0 <= len cga_matrix <= size cga_matrix /\
  Z.of_nat (length (assmb cga_matrix)) = size cga_matrix /\
  snd (reassign_matrix_insertions cga_matrix) = len cga_matrix /\
  size (fst (reassign_matrix_insertions cga_matrix)) = 14 + 1024.
Proof.
  assert (H1 : 0 <= len cga_matrix <= size cga_matrix) by (simpl; lia).
  assert (H2 : Z.of_nat (length (assmb cga_matrix)) = size cga_matrix) by reflexivity.
  split; [exact H1|]. split; [exact H2|].
  destruct (matrix_insertions_allocates cga_matrix H1 H2) as (E1 & _ & E3 & _).
  split; [exact E1|exact E3].
Defined.

End ArenaResults.

(** ** The consensus printer *)

Section SpanFacts.

Lemma span_S (a : Z) (k : nat) : span a (S k) = a :: span (a + 1) k.
Proof.
  unfold span. cbn [List.seq map]. f_equal; [lia|].
  rewrite <- seq_shift, map_map. apply map_ext. intros i. lia.
Qed.

Lemma span_ge (a : Z) (k : nat) (i : Z) : In i (span a k) -> a <= i < a + Z.of_nat k.
Proof.
  unfold span. intros H. apply in_map_iff in H. destruct H as (j & <- & Hj).
  apply in_seq in Hj. lia.
Qed.

Lemma length_span (a : Z) (k : nat) : length (span a k) = k.
Proof. unfold span. now rewrite length_map, length_seq. Qed.

Lemma span_app (a : Z) (k1 k2 : nat) :
  span a (k1 + k2) = span a k1 ++ span (a + Z.of_nat k1) k2.
Proof.
  revert a; induction k1 as [|k1 IH]; intros a.
  - cbn [Nat.add span List.seq map app]. unfold span. apply map_ext. intros; lia.
  - cbn [Nat.add]. rewrite !span_S, IH. cbn [app]. do 2 f_equal. f_equal. lia.
Qed.

Lemma rd_wr_self (mem : list Z) (b i : Z) : rd (wr mem b (rd mem i)) i = rd mem i.
Proof.
  destruct (rd_wr_cases mem i b (rd mem i)) as [E|[_ E]]; exact E.
Qed.

End SpanFacts.

Section TrimFacts.

Lemma kept_columns_ext (ts qs ts' qs' : list Z) (a : Z) (k : nat) :
  (forall i, a <= i -> rd ts' i = rd ts i /\ rd qs' i = rd qs i) ->
  kept_columns ts' qs' a k = kept_columns ts qs a k.
Proof.
  intros H. unfold kept_columns. apply filter_ext_in. intros i Hi.
  apply span_ge in Hi. unfold both_gap.
  destruct (H i ltac:(lia)) as (-> & ->). reflexivity.
Qed.

Lemma map_rd_ext (m m' : list Z) (l : list Z) :
  (forall i, In i l -> rd m' i = rd m i) -> map (rd m') l = map (rd m) l.
Proof. intros H. apply map_ext_in. exact H. Qed.

Lemma trim_loop_spec (n : nat) :
  forall ts ss qs ri wi ln,
    0 <= wi <= ri ->
    ri + Z.of_nat n <= Z.of_nat (length ts) ->
    ri + Z.of_nat n <= Z.of_nat (length ss) ->
    ri + Z.of_nat n <= Z.of_nat (length qs) ->
    exists ts' ss' qs',
      let K := kept_columns ts qs ri n in
      trim_loop n ts ss qs ri wi ln
      = (ts', ss', qs', wi + Z.of_nat (length K),
         ln - (Z.of_nat n - Z.of_nat (length K))) /\
      length ts' = length ts /\ length ss' = length ss /\ length qs' = length qs /\
      (forall j, j < wi \/ ri + Z.of_nat n <= j ->
                 rd ts' j = rd ts j /\ rd ss' j = rd ss j /\ rd qs' j = rd qs j) /\
      bytes ts' wi (length K) = map (rd ts) K /\
      bytes ss' wi (length K) = map (rd ss) K /\
      bytes qs' wi (length K) = map (rd qs) K.
Proof.
  induction n as [|n IH]; intros ts ss qs ri wi ln Hw Ht Hs Hq.
  - exists ts, ss, qs. cbv zeta. unfold kept_columns, bytes, span.
    cbn [List.seq map filter length trim_loop Z.of_nat].
    replace (wi + 0) with wi by lia. replace (ln - (0 - 0)) with ln by lia.
    repeat split; auto.
  - cbn [trim_loop]. unfold kept_columns. rewrite span_S. cbn [filter].
    fold (kept_columns ts qs (ri + 1) n).
    change ((rd ts ri =? dash) && (rd qs ri =? dash)) with (both_gap ts qs ri).
    destruct (both_gap ts qs ri) eqn:Eg; cbn [negb].
    + destruct (IH ts ss qs (ri + 1) wi (ln - 1) ltac:(lia) ltac:(lia) ltac:(lia)
                  ltac:(lia)) as (ts' & ss' & qs' & E & Lt & Ls & Lq & Hfr & Bt & Bs & Bq).
      cbv zeta in E. exists ts', ss', qs'. cbv zeta. rewrite E.
      split; [f_equal; lia|]. repeat split; auto; apply Hfr; lia.
    + set (ts1 := wr ts wi (rd ts ri)). set (ss1 := wr ss wi (rd ss ri)).
      set (qs1 := wr qs wi (rd qs ri)).
      assert (Hoth : forall j, j <> wi ->
                rd ts1 j = rd ts j /\ rd ss1 j = rd ss j /\ rd qs1 j = rd qs j).
      { intros j Hj. unfold ts1, ss1, qs1. rewrite !rd_wr_other by congruence. auto. }
      assert (Hsame : rd ts1 wi = rd ts ri /\ rd ss1 wi = rd ss ri /\
                      rd qs1 wi = rd qs ri).
      { unfold ts1, ss1, qs1. rewrite !rd_wr_same by lia. auto. }
      destruct (IH ts1 ss1 qs1 (ri + 1) (wi + 1) ln ltac:(lia)
                  ltac:(unfold ts1; rewrite length_wr; lia)
                  ltac:(unfold ss1; rewrite length_wr; lia)
                  ltac:(unfold qs1; rewrite length_wr; lia))
        as (ts' & ss' & qs' & E & Lt & Ls & Lq & Hfr & Bt & Bs & Bq).
      cbv zeta in E, Bt, Bs, Bq.
      assert (EK : kept_columns ts1 qs1 (ri + 1) n = kept_columns ts qs (ri + 1) n).
      { apply kept_columns_ext. intros i Hi.
        destruct (Hoth i ltac:(lia)) as (H1 & _ & H3). auto. }
      rewrite EK in E, Bt, Bs, Bq.
      set (K := kept_columns ts qs (ri + 1) n) in *.
      assert (HK : forall i, In i K -> i <> wi).
      { intros i Hi. unfold K, kept_columns in Hi. apply filter_In in Hi.
        destruct Hi as (Hi & _). apply span_ge in Hi. lia. }
      exists ts', ss', qs'. cbv zeta. rewrite E. cbn [length].
      split; [f_equal; [f_equal|]; lia|].
      unfold ts1, ss1, qs1 in Lt, Ls, Lq. rewrite length_wr in Lt, Ls, Lq.
      split; [exact Lt|]. split; [exact Ls|]. split; [exact Lq|]. split.
      { intros j Hj.
        destruct (Hfr j ltac:(lia)) as (H1 & H2 & H3).
        destruct (Hoth j ltac:(lia)) as (H4 & H5 & H6).
        repeat split; congruence. }
      destruct (Hfr wi ltac:(lia)) as (H1 & H2 & H3).
      destruct Hsame as (H4 & H5 & H6).
      unfold bytes in *. rewrite !span_S. cbn [map].
      rewrite Bt, Bs, Bq, H1, H2, H3, H4, H5, H6.
      repeat split; f_equal; apply map_rd_ext; intros i Hi;
        destruct (Hoth i (HK i Hi)) as (H7 & H8 & H9); assumption.
Qed.

End TrimFacts.

Section UngapFacts.

Lemma ungap_loop_spec (n : nat) :
  forall qs i bias,
    0 <= bias <= i -> i + Z.of_nat n <= Z.of_nat (length qs) ->
    exists qs',
      let K := filter (fun j => is_base (rd qs j)) (span i n) in
      ungap_loop n qs i bias = (qs', bias + Z.of_nat (length K)) /\
      length qs' = length qs /\
      (forall j, j < bias -> rd qs' j = rd qs j) /\
      bytes qs' bias (length K) = map (rd qs) K.
Proof.
  induction n as [|n IH]; intros qs i bias Hb Hl.
  - exists qs. cbv zeta. unfold bytes, span.
    cbn [List.seq map filter length ungap_loop Z.of_nat].
    replace (bias + 0) with bias by lia. repeat split; auto.
  - cbn [ungap_loop]. rewrite rd_wr_self. rewrite span_S. cbn [filter].
    set (qs1 := wr qs bias (rd qs i)).
    assert (Hoth : forall j, j <> bias -> rd qs1 j = rd qs j).
    { intros j Hj. unfold qs1. rewrite rd_wr_other by congruence. reflexivity. }
    assert (EK : filter (fun j => is_base (rd qs1 j)) (span (i + 1) n)
                 = filter (fun j => is_base (rd qs j)) (span (i + 1) n)).
    { apply filter_ext_in. intros j Hj. apply span_ge in Hj.
      rewrite Hoth by lia. reflexivity. }
    assert (Eb : is_base (rd qs i) = negb (rd qs i =? dash)) by reflexivity.
    rewrite !Eb. clear Eb.
    destruct (Z.eqb_spec (rd qs i) dash) as [Ed|Ed]; cbn [negb].
    + replace (bias - 1 + 1) with bias by lia.
      destruct (IH qs1 (i + 1) bias ltac:(lia)
                  ltac:(unfold qs1; rewrite length_wr; lia))
        as (qs' & E & Lq & Hfr & Bq).
      cbv zeta in E, Bq. rewrite EK in E, Bq.
      set (K := filter (fun j => is_base (rd qs j)) (span (i + 1) n)) in *.
      exists qs'. cbv zeta. rewrite E. split; [reflexivity|].
      unfold qs1 in Lq. rewrite length_wr in Lq. split; [exact Lq|]. split.
      * intros j Hj. rewrite Hfr by lia. apply Hoth. lia.
      * rewrite Bq. apply map_rd_ext. intros j Hj. apply Hoth.
        unfold K in Hj. apply filter_In in Hj. destruct Hj as (Hj & _).
        apply span_ge in Hj. lia.
    + destruct (IH qs1 (i + 1) (bias + 1) ltac:(lia)
                  ltac:(unfold qs1; rewrite length_wr; lia))
        as (qs' & E & Lq & Hfr & Bq).
      cbv zeta in E, Bq. rewrite EK in E, Bq.
      set (K := filter (fun j => is_base (rd qs j)) (span (i + 1) n)) in *.
      exists qs'. cbv zeta. rewrite E. cbn [length].
      split; [f_equal; lia|].
      unfold qs1 in Lq. rewrite length_wr in Lq. split; [exact Lq|]. split.
      * intros j Hj. rewrite Hfr by lia. apply Hoth. lia.
      * unfold bytes in *. rewrite span_S. cbn [map]. rewrite Bq.
        rewrite (Hfr bias) by lia. unfold qs1 at 1. rewrite rd_wr_same by lia.
        f_equal. apply map_rd_ext. intros j Hj. apply Hoth.
        unfold K in Hj. apply filter_In in Hj. destruct Hj as (Hj & _).
        apply span_ge in Hj. lia.
Qed.

Lemma mask_loop_spec (n : nat) :
  forall qs i,
    0 <= i -> i + Z.of_nat n <= Z.of_nat (length qs) ->
    length (mask_loop n qs i) = length qs /\
    (forall j, j < i \/ i + Z.of_nat n <= j -> rd (mask_loop n qs i) j = rd qs j) /\
    bytes (mask_loop n qs i) i n
    = map (fun c => if c =? dash then 110 else c) (bytes qs i n).
Proof.
  induction n as [|n IH]; intros qs i Hi Hl.
  - cbn [mask_loop]. repeat split; auto.
  - cbn [mask_loop].
    set (qs1 := if rd qs i =? dash then wr qs i 110 else qs).
    assert (Hl1 : length qs1 = length qs).
    { unfold qs1. destruct (rd qs i =? dash); [apply length_wr|reflexivity]. }
    assert (Hoth : forall j, j <> i -> rd qs1 j = rd qs j).
    { intros j Hj. unfold qs1. destruct (rd qs i =? dash); [|reflexivity].
      apply rd_wr_other. congruence. }
    assert (Hsame : rd qs1 i = if rd qs i =? dash then 110 else rd qs i).
    { unfold qs1. destruct (rd qs i =? dash); [|reflexivity].
      apply rd_wr_same. lia. }
    destruct (IH qs1 (i + 1) ltac:(lia) ltac:(lia)) as (Lq & Hfr & Bq).
    split; [congruence|]. split.
    + intros j Hj. rewrite Hfr by lia. apply Hoth. lia.
    + unfold bytes in *. rewrite span_S. cbn [map]. rewrite Bq, (Hfr i) by lia.
      rewrite Hsame. f_equal. rewrite !map_map. apply map_ext_in.
      intros j Hj. apply span_ge in Hj. rewrite Hoth by lia. reflexivity.
Qed.

End UngapFacts.

Section LineFacts.

Lemma length_str_prefix (n : nat) (str : list Z) :
  forall i, (length (str_prefix n str i) <= n)%nat.
Proof.
  induction n as [|n IH]; intros i; cbn [str_prefix length]; [lia|].
  destruct (rd str i =? 0); cbn [length]; [lia|]. specialize (IH (i + 1)). lia.
Qed.

(** On a string of [k] bytes before its NUL, [%.ns] prints the first
    [min n k] bytes. *)
Lemma str_prefix_bytes (str : list Z) (n : nat) :
  forall i (k : nat),
    (forall j, i <= j < i + Z.of_nat k -> rd str j <> 0) ->
    rd str (i + Z.of_nat k) = 0 ->
    str_prefix n str i = bytes str i (Nat.min n k).
Proof.
  induction n as [|n IH]; intros i k Hnz Hz; [reflexivity|].
  cbn [str_prefix]. destruct k as [|k].
  - replace (i + Z.of_nat 0) with i in Hz by lia. rewrite Hz. reflexivity.
  - destruct (Z.eqb_spec (rd str i) 0) as [E|E]; [exfalso; apply (Hnz i); [lia|exact E]|].
    cbn [Nat.min]. unfold bytes. rewrite span_S. cbn [map]. f_equal.
    apply (IH (i + 1) k).
    + intros j Hj. apply Hnz. lia.
    + replace (i + 1 + Z.of_nat k) with (i + Z.of_nat (S k)) by lia. exact Hz.
Qed.

Lemma blocks_Forall (P : list Z -> Prop) (line : Z -> list (list Z)) (m : nat) :
  (forall i, Forall P (line i)) -> forall i, Forall P (blocks m i line).
Proof.
  intros H. induction m as [|m IH]; intros i; cbn [blocks]; [constructor|].
  apply Forall_app. split; [apply H|apply IH].
Qed.

Lemma length_blocks1 (f : Z -> list Z) (m : nat) :
  forall i, length (blocks m i (fun i => [f i])) = m.
Proof.
  induction m as [|m IH]; intros i; cbn [blocks app length]; [reflexivity|].
  now rewrite IH.
Qed.

Lemma bytes_app (str : list Z) (a : Z) (k1 k2 : nat) :
  bytes str a (k1 + k2) = bytes str a k1 ++ bytes str (a + Z.of_nat k1) k2.
Proof. unfold bytes. now rewrite span_app, map_app. Qed.

(** The lines of 60 columns, put end to end, are the string. *)
Lemma blocks_concat (str : list Z) (m : nat) :
  forall i (r : nat),
    60 * Z.of_nat m - 60 < Z.of_nat r <= 60 * Z.of_nat m ->
    (forall j, i <= j < i + Z.of_nat r -> rd str j <> 0) ->
    rd str (i + Z.of_nat r) = 0 ->
    concat (blocks m i (fun i => [str_prefix 60 str i])) = bytes str i r.
Proof.
  induction m as [|m IH]; intros i r Hr Hnz Hz.
  - assert (r = 0)%nat by lia. subst r. reflexivity.
  - cbn [blocks app concat].
    rewrite (str_prefix_bytes str 60 i r Hnz Hz).
    destruct (Nat.le_gt_cases r 60) as [Hle|Hgt].
    + rewrite Nat.min_r by exact Hle.
      assert (m = 0)%nat by lia. subst m. cbn [blocks concat]. apply app_nil_r.
    + rewrite Nat.min_l by lia.
      rewrite (IH (i + 60) (r - 60)%nat).
      * replace (bytes str i r) with (bytes str i (60 + (r - 60)))
          by (f_equal; lia).
        rewrite bytes_app. reflexivity.
      * lia.
      * intros j Hj. apply Hnz. lia.
      * replace (i + 60 + Z.of_nat (r - 60)) with (i + Z.of_nat r) by lia. exact Hz.
Qed.

Lemma block_count_bounds (r : nat) :
  60 * Z.of_nat (block_count (Z.of_nat r)) - 60 < Z.of_nat r
  <= 60 * Z.of_nat (block_count (Z.of_nat r)).
Proof.
  unfold block_count.
  pose proof (Z.div_mod (Z.of_nat r + 59) 60 ltac:(lia)).
  pose proof (Z.mod_pos_bound (Z.of_nat r + 59) 60 ltac:(lia)).
  assert (0 <= (Z.of_nat r + 59) / 60) by (apply Z.div_pos; lia).
  rewrite Z2Nat.id by lia. lia.
Qed.

Lemma nth_bytes (str : list Z) (a : Z) (n k : nat) :
  (k < n)%nat -> nth k (bytes str a n) 0 = rd str (a + Z.of_nat k).
Proof.
  intros H. unfold bytes, span. rewrite map_map.
  rewrite (nth_indep _ 0 (rd str (a + Z.of_nat 0))) by (rewrite length_map, length_seq; lia).
  rewrite (map_nth (fun i => rd str (a + Z.of_nat i)) (List.seq 0 n) 0%nat k).
  now rewrite seq_nth.
Qed.

Lemma length_bytes (str : list Z) (a : Z) (n : nat) : length (bytes str a n) = n.
Proof. unfold bytes. now rewrite length_map, length_span. Qed.

Lemma bytes_ext (m m' : list Z) (a : Z) (n : nat) :
  (forall j, a <= j < a + Z.of_nat n -> rd m' j = rd m j) ->
  bytes m' a n = bytes m a n.
Proof.
  intros H. unfold bytes. apply map_rd_ext. intros j Hj. apply span_ge in Hj. now apply H.
Qed.

End LineFacts.

Section PrinterFacts.

Lemma length_kept_columns (ts qs : list Z) (a : Z) (k : nat) :
  (length (kept_columns ts qs a k) <= k)%nat.
Proof.
  unfold kept_columns. etransitivity; [apply filter_length_le|].
  now rewrite length_span.
Qed.

Lemma rd_of_bytes (str src : list Z) (K : list Z) (i : Z) :
  bytes str 0 (length K) = map (rd src) K ->
  0 <= i < Z.of_nat (length K) ->
  rd str i = rd src (nth (Z.to_nat i) K 0) /\ In (nth (Z.to_nat i) K 0) K.
Proof.
  intros E Hi. split; [|apply nth_In; lia].
  rewrite <- (Z2Nat.id i) at 1 by lia.
  rewrite <- (Z.add_0_l (Z.of_nat (Z.to_nat i))).
  rewrite <- (nth_bytes str 0 (length K)) by lia. rewrite E.
  rewrite (nth_indep _ 0 (rd src 0)) by (rewrite length_map; lia).
  apply map_nth.
Qed.

(** The gaps that the trim removes are gaps of the query. *)
Lemma bases_of_kept (ts qs : list Z) (l : list Z) :
  filter is_base (map (rd qs) (filter (fun i => negb (both_gap ts qs i)) l))
  = filter is_base (map (rd qs) l).
Proof.
  induction l as [|i l IH]; [reflexivity|]. cbn [filter map].
  unfold both_gap at 1, is_base at 2.
  destruct (rd qs i =? dash) eqn:E; cbn [negb].
  - destruct (rd ts i =? dash); cbn [andb negb map filter]; [exact IH|].
    unfold is_base at 1. rewrite E. cbn [negb]. exact IH.
  - rewrite andb_false_r. cbn [negb map filter]. unfold is_base at 1. rewrite E.
    cbn [negb]. now rewrite IH.
Qed.

Lemma filter_map_rd (P : Z -> bool) (str : list Z) (l : list Z) :
  map (rd str) (filter (fun j => P (rd str j)) l) = filter P (map (rd str) l).
Proof.
  induction l as [|i l IH]; [reflexivity|]. cbn [filter map].
  destruct (P (rd str i)); cbn [map]; now rewrite IH.
Qed.

End PrinterFacts.

Section TrimResult.

Variable am : Assem.
Hypothesis Hlen : 0 <= a_len am.
Hypothesis Ht : a_len am < Z.of_nat (length (t am)).
Hypothesis Hs : a_len am < Z.of_nat (length (s am)).
Hypothesis Hq : a_len am < Z.of_nat (length (q am)).

(** The record after the trim: the kept columns, in order, then a NUL. *)
Lemma trim_alignment_columns :
  let K := kept_columns (t am) (q am) 0 (Z.to_nat (a_len am)) in
  let am' := trim_alignment am in
  a_len am' = Z.of_nat (length K) /\
  length (t am') = length (t am) /\ length (s am') = length (s am) /\
  length (q am') = length (q am) /\
  bytes (t am') 0 (length K) = map (rd (t am)) K /\
  bytes (s am') 0 (length K) = map (rd (s am)) K /\
  bytes (q am') 0 (length K) = map (rd (q am)) K /\
  rd (t am') (Z.of_nat (length K)) = 0 /\
  rd (s am') (Z.of_nat (length K)) = 0 /\
  rd (q am') (Z.of_nat (length K)) = 0.
Proof.
  cbv zeta. unfold trim_alignment.
  destruct (trim_loop_spec (Z.to_nat (a_len am)) (t am) (s am) (q am) 0 0 (a_len am)
              ltac:(lia) ltac:(lia) ltac:(lia) ltac:(lia))
    as (ts' & ss' & qs' & E & Lt & Ls & Lq & _ & Bt & Bs & Bq).
  cbv zeta in E, Bt, Bs, Bq. rewrite E.
  pose proof (length_kept_columns (t am) (q am) 0 (Z.to_nat (a_len am))) as HK.
  set (K := kept_columns (t am) (q am) 0 (Z.to_nat (a_len am))) in *.
  cbn [a_len t s q]. rewrite !length_wr. rewrite Z.add_0_l.
  split; [lia|]. split; [exact Lt|]. split; [exact Ls|]. split; [exact Lq|].
  split; [|split; [|split]].
  - rewrite <- Bt. apply bytes_ext. intros j Hj. apply rd_wr_other. lia.
  - rewrite <- Bs. apply bytes_ext. intros j Hj. apply rd_wr_other. lia.
  - rewrite <- Bq. apply bytes_ext. intros j Hj. apply rd_wr_other. lia.
  - repeat split; apply rd_wr_same; lia.
Qed.

End TrimResult.

Section PrinterResults.

Import Vectors.

(** X16 ([printConsensus], the trim): on an alignment of [len] columns
    whose streams have room for the NUL, the trim keeps, in order and in
    all three streams, exactly the columns that are not a gap in both the
    template and the query; [len] becomes their number, each stream ends
    with a NUL there, and no column that is left is a gap in both. *)
Theorem trim_keeps_informative_columns (am : Assem) :
  0 <= a_len am ->
  a_len am < Z.of_nat (length (t am)) ->
  a_len am < Z.of_nat (length (s am)) ->
  a_len am < Z.of_nat (length (q am)) ->
  let K := kept_columns (t am) (q am) 0 (Z.to_nat (a_len am)) in
  let am' := trim_alignment am in
  a_len am' = Z.of_nat (length K) /\ a_len am' <= a_len am /\
  bytes (t am') 0 (length K) = map (rd (t am)) K /\
  bytes (s am') 0 (length K) = map (rd (s am)) K /\
  bytes (q am') 0 (length K) = map (rd (q am)) K /\
  rd (t am') (a_len am') = 0 /\ rd (s am') (a_len am') = 0 /\
  rd (q am') (a_len am') = 0 /\
  forall i, 0 <= i < a_len am' -> both_gap (t am') (q am') i = false.
Proof.
  intros Hlen Ht Hs Hq.
  pose proof (trim_alignment_columns am Hlen Ht Hs Hq) as H. cbv zeta in H |- *.
  pose proof (length_kept_columns (t am) (q am) 0 (Z.to_nat (a_len am))) as HK.
  set (K := kept_columns (t am) (q am) 0 (Z.to_nat (a_len am))) in *.
  destruct H as (El & _ & _ & _ & Bt & Bs & Bq & Zt & Zs & Zq).
  rewrite El. repeat split; auto; try lia.
  intros i Hi.
  destruct (rd_of_bytes _ _ K i Bt Hi) as (E1 & Hin).
  destruct (rd_of_bytes _ _ K i Bq Hi) as (E2 & _).
  unfold both_gap. rewrite E1, E2.
  unfold K, kept_columns in Hin. apply filter_In in Hin. destruct Hin as (_ & Hin).
  unfold both_gap in Hin. now destruct (_ && _).
Qed.

Lemma trim_keeps_informative_columns_witness :
  0 <= a_len rw_assem /\
  a_len rw_assem < Z.of_nat (length (t rw_assem)) /\
  a_len (trim_alignment rw_assem) = 3 /\
  bytes (t (trim_alignment rw_assem)) 0 3 = [65; 45; 67] /\
  bytes (q (trim_alignment rw_assem)) 0 3 = [65; 84; 67].
Proof.
  assert (H0 : 0 <= a_len rw_assem) by (simpl; lia).
  assert (H1 : a_len rw_assem < Z.of_nat (length (t rw_assem))) by (simpl; lia).
  assert (H2 : a_len rw_assem < Z.of_nat (length (s rw_assem))) by (simpl; lia).
  assert (H3 : a_len rw_assem < Z.of_nat (length (q rw_assem))) by (simpl; lia).
  split; [exact H0|]. split; [exact H1|].
  destruct (trim_keeps_informative_columns rw_assem H0 H1 H2 H3)
    as (E & _ & Bt & _ & Bq & _).
  split; [exact E|]. split; [exact Bt|exact Bq].
Defined.

(** X17 ([printConsensus], [ref_fsa = 0]): when the query stream has no NUL
    within its [len] columns, the FASTA record is the line [>header]
    followed by the query without its gaps, broken into lines of at most
    60 bytes: the lines put end to end are the bytes of the query that are
    not a gap, in order, there are [ceil(n / 60)] of them for [n] such
    bytes, and all this whether the alignment is printed or not. *)
Theorem consensus_fasta_without_gaps (am : Assem) (header : list Z)
    (alignment_out : bool) :
  0 <= a_len am ->
  a_len am < Z.of_nat (length (t am)) ->
  a_len am < Z.of_nat (length (s am)) ->
  a_len am < Z.of_nat (length (q am)) ->
  (forall i, 0 <= i < a_len am -> rd (q am) i <> 0) ->
  let fsa := snd (printConsensus am header alignment_out 0) in
  let bases := filter is_base (bytes (q am) 0 (Z.to_nat (a_len am))) in
  hd [] fsa = 62 :: header /\
  concat (tl fsa) = bases /\
  Forall (fun l => (length l <= 60)%nat) (tl fsa) /\
  length (tl fsa) = block_count (Z.of_nat (length bases)).
Proof.
  intros Hlen Ht Hs Hq Hnz. cbv zeta. unfold printConsensus.
  pose proof (trim_alignment_columns am Hlen Ht Hs Hq) as H. cbv zeta in H.
  pose proof (length_kept_columns (t am) (q am) 0 (Z.to_nat (a_len am))) as HK.
  set (K := kept_columns (t am) (q am) 0 (Z.to_nat (a_len am))) in *.
  set (am' := trim_alignment am) in *.
  destruct H as (El & _ & _ & Lq & _ & _ & Bq & _ & _ & _).
  unfold prepare_consensus. cbn [Z.eqb]. rewrite El, Nat2Z.id.
  destruct (ungap_loop_spec (length K) (q am') 0 0 ltac:(lia) ltac:(lia))
    as (qs2 & E & L2 & _ & B2).
  cbv zeta in E, B2. rewrite E. cbn [snd hd tl].
  rewrite filter_map_rd in B2. fold (bytes (q am') 0 (length K)) in B2.
  rewrite Bq in B2. unfold K at 2, kept_columns in B2. rewrite bases_of_kept in B2.
  fold (bytes (q am) 0 (Z.to_nat (a_len am))) in B2.
  pose proof (filter_length_le (fun j => is_base (rd (q am') j)) (span 0 (length K)))
    as HK2. rewrite length_span in HK2.
  set (n2 := length (filter (fun j => is_base (rd (q am') j)) (span 0 (length K)))) in *.
  set (bases := filter is_base (bytes (q am) 0 (Z.to_nat (a_len am)))) in *.
  rewrite Z.add_0_l in *.
  assert (En : length bases = n2).
  { rewrite <- B2. apply length_bytes. }
  set (qsF := wr qs2 (Z.of_nat n2) 0).
  assert (BF : bytes qsF 0 n2 = bases).
  { rewrite <- B2. apply bytes_ext. intros j Hj. apply rd_wr_other. lia. }
  assert (ZF : rd qsF (0 + Z.of_nat n2) = 0).
  { apply rd_wr_same. lia. }
  assert (NF : forall j, 0 <= j < 0 + Z.of_nat n2 -> rd qsF j <> 0).
  { intros j Hj.
    assert (Hin : In (rd qsF j) bases).
    { rewrite <- BF. rewrite <- (Z2Nat.id j) by lia.
      rewrite <- (Z.add_0_l (Z.of_nat (Z.to_nat j))).
      rewrite <- (nth_bytes qsF 0 n2) by lia.
      apply nth_In. rewrite length_bytes. lia. }
    unfold bases in Hin. apply filter_In in Hin. destruct Hin as (Hin & _).
    unfold bytes in Hin. apply in_map_iff in Hin. destruct Hin as (i & <- & Hi).
    apply span_ge in Hi. apply Hnz. lia. }
  split; [reflexivity|]. split; [|split].
  - rewrite (blocks_concat qsF (block_count (Z.of_nat n2)) 0 n2
               (block_count_bounds n2) NF ZF). exact BF.
  - apply blocks_Forall. intros i. constructor; [|constructor].
    apply length_str_prefix.
  - rewrite length_blocks1. now rewrite En.
Qed.

Lemma consensus_fasta_without_gaps_witness :
  0 <= a_len rw_assem /\
  (forall i, 0 <= i < a_len rw_assem -> rd (q rw_assem) i <> 0) /\
  concat (tl (snd (printConsensus rw_assem [120] true 0))) = [65; 84; 67].
Proof.
  assert (H0 : 0 <= a_len rw_assem) by (simpl; lia).
  assert (H1 : a_len rw_assem < Z.of_nat (length (t rw_assem))) by (simpl; lia).
  assert (H2 : a_len rw_assem < Z.of_nat (length (s rw_assem))) by (simpl; lia).
  assert (H3 : a_len rw_assem < Z.of_nat (length (q rw_assem))) by (simpl; lia).
  assert (H4 : forall i, 0 <= i < a_len rw_assem -> rd (q rw_assem) i <> 0).
  { intros i Hi. simpl in Hi.
    assert (i = 0 \/ i = 1 \/ i = 2 \/ i = 3 \/ i = 4) as [-> | [-> | [-> | [-> | ->]]]]
      by lia; vm_compute; discriminate. }
  split; [exact H0|]. split; [exact H4|].
  exact (proj1 (proj2 (consensus_fasta_without_gaps rw_assem [120] true H0 H1 H2 H3 H4))).
Defined.

(** X18 ([printConsensus], [ref_fsa = 1]): when the query stream has no NUL
    within its [len] columns, the lines of the FASTA record behind
    [>header], put end to end, are the query bytes of the columns that the
    trim keeps, in order, with every gap turned into [n]; no line has more
    than 60 bytes, and there are [ceil(k / 60)] lines for [k] kept
    columns. *)
Theorem consensus_fasta_masked_gaps (am : Assem) (header : list Z)
    (alignment_out : bool) :
  0 <= a_len am ->
  a_len am < Z.of_nat (length (t am)) ->
  a_len am < Z.of_nat (length (s am)) ->
  a_len am < Z.of_nat (length (q am)) ->
  (forall i, 0 <= i < a_len am -> rd (q am) i <> 0) ->
  let fsa := snd (printConsensus am header alignment_out 1) in
  let K := kept_columns (t am) (q am) 0 (Z.to_nat (a_len am)) in
  hd [] fsa = 62 :: header /\
  concat (tl fsa) = map (fun c => if c =? dash then 110 else c) (map (rd (q am)) K) /\
  ~ In dash (concat (tl fsa)) /\
  Forall (fun l => (length l <= 60)%nat) (tl fsa) /\
  length (tl fsa) = block_count (Z.of_nat (length K)).
Proof.
  intros Hlen Ht Hs Hq Hnz. cbv zeta. unfold printConsensus.
  pose proof (trim_alignment_columns am Hlen Ht Hs Hq) as H. cbv zeta in H.
  pose proof (length_kept_columns (t am) (q am) 0 (Z.to_nat (a_len am))) as HK.
  set (K := kept_columns (t am) (q am) 0 (Z.to_nat (a_len am))) in *.
  set (am' := trim_alignment am) in *.
  destruct H as (El & _ & _ & Lq & _ & _ & Bq & _ & _ & Zq).
  unfold prepare_consensus.
  change (1 =? 0) with false. change (1 =? 1) with true. cbv iota.
  rewrite El, Nat2Z.id.
  destruct (mask_loop_spec (length K) (q am') 0 ltac:(lia) ltac:(lia))
    as (L2 & Hfr & B2).
  set (qsF := mask_loop (length K) (q am') 0) in *. cbn [snd hd tl].
  rewrite Bq in B2. rewrite Z.add_0_l in *.
  assert (ZF : rd qsF (0 + Z.of_nat (length K)) = 0).
  { rewrite Z.add_0_l. rewrite Hfr by lia. exact Zq. }
  assert (HinK : forall c, In c (map (rd (q am)) K) -> c <> 0).
  { intros c Hc. apply in_map_iff in Hc. destruct Hc as (i & <- & Hi).
    unfold K, kept_columns in Hi. apply filter_In in Hi. destruct Hi as (Hi & _).
    apply span_ge in Hi. apply Hnz. lia. }
  assert (NF : forall j, 0 <= j < 0 + Z.of_nat (length K) -> rd qsF j <> 0).
  { intros j Hj.
    assert (Hin : In (rd qsF j) (bytes qsF 0 (length K))).
    { rewrite <- (Z2Nat.id j) by lia.
      rewrite <- (Z.add_0_l (Z.of_nat (Z.to_nat j))).
      rewrite <- (nth_bytes qsF 0 (length K)) by lia.
      apply nth_In. rewrite length_bytes. lia. }
    rewrite B2 in Hin. apply in_map_iff in Hin. destruct Hin as (c & <- & Hc).
    specialize (HinK c Hc). destruct (c =? dash); [discriminate|exact HinK]. }
  rewrite (blocks_concat qsF (block_count (Z.of_nat (length K))) 0 (length K)
             (block_count_bounds (length K)) NF ZF).
  split; [reflexivity|]. split; [exact B2|]. split; [|split].
  - rewrite B2. intros Hin. apply in_map_iff in Hin. destruct Hin as (c & E & _).
    destruct (Z.eqb_spec c dash); [discriminate|]. congruence.
  - apply blocks_Forall. intros i. constructor; [|constructor].
    apply length_str_prefix.
  - apply length_blocks1.
Qed.

Lemma consensus_fasta_masked_gaps_witness :
  0 <= a_len rw_assem /\
  (forall i, 0 <= i < a_len rw_assem -> rd (q rw_assem) i <> 0) /\
  concat (tl (snd (printConsensus rw_assem [120] true 1)))
  = map (fun c => if c =? dash then 110 else c)
      (map (rd (q rw_assem))
         (kept_columns (t rw_assem) (q rw_assem) 0 (Z.to_nat (a_len rw_assem)))).
Proof.
  assert (H0 : 0 <= a_len rw_assem) by (simpl; lia).
  assert (H1 : a_len rw_assem < Z.of_nat (length (t rw_assem))) by (simpl; lia).
  assert (H2 : a_len rw_assem < Z.of_nat (length (s rw_assem))) by (simpl; lia).
  assert (H3 : a_len rw_assem < Z.of_nat (length (q rw_assem))) by (simpl; lia).
  assert (H4 : forall i, 0 <= i < a_len rw_assem -> rd (q rw_assem) i <> 0).
  { intros i Hi. simpl in Hi.
    assert (i = 0 \/ i = 1 \/ i = 2 \/ i = 3 \/ i = 4) as [-> | [-> | [-> | [-> | ->]]]]
      by lia; vm_compute; discriminate. }
  split; [exact H0|]. split; [exact H4|].
  exact (proj1 (proj2 (consensus_fasta_masked_gaps rw_assem [120] true H0 H1 H2 H3 H4))).
Defined.

End PrinterResults.

(** ** The matrix rewriter: the walk to the offset *)

Section OffsetWalk.

Variable a : list Assembly.
Variable qs : list Z.

Lemma offset_loop_walk (fuel : nat) :
  forall offset ci pos ci' pos',
    offset_loop fuel a qs offset ci pos = Some (ci', pos') ->
    0 <= offset /\
    exists k : nat,
      ci' = ci + Z.of_nat k /\ pos' = follow a k pos /\
      Z.of_nat (length (filter is_base (bytes qs ci k))) = offset /\
      (offset = 0 -> k = 0%nat) /\
      (0 < offset -> rd qs (ci' - 1) <> dash).
Proof.
  induction fuel as [|fuel IH]; intros offset ci pos ci' pos' H; cbn [offset_loop] in H.
  - destruct (Z.eqb_spec offset 0) as [->|Hne]; [|discriminate].
    injection H as <- <-. split; [lia|]. exists 0%nat.
    repeat split; try reflexivity; lia.
  - destruct (Z.eqb_spec offset 0) as [->|Hne].
    + injection H as <- <-. split; [lia|]. exists 0%nat.
      repeat split; try reflexivity; lia.
    + apply IH in H. destruct H as (H0 & k & -> & -> & Hc & Hk & Hlast).
      unfold bytes in *.
      destruct (Z.eqb_spec (rd qs ci) dash) as [Ed|Ed]; cbn [negb] in *.
      * split; [lia|]. exists (S k). rewrite span_S. cbn [map filter follow].
        unfold is_base at 1. rewrite Ed. change (dash =? dash) with true. cbn [negb].
        split; [lia|]. split; [reflexivity|]. split; [exact Hc|].
        split; [intros; contradiction|].
        intros Hpos. apply Hlast. lia.
      * split; [lia|]. exists (S k). rewrite span_S. cbn [map filter follow].
        unfold is_base at 1. destruct (Z.eqb_spec (rd qs ci) dash); [contradiction|].
        cbn [negb length]. split; [lia|]. split; [reflexivity|]. split; [lia|].
        split; [intros; contradiction|].
        intros _. destruct (Z.eq_dec (offset - 1) 0) as [E0|E0].
        -- rewrite (Hk E0). replace (ci + 1 + Z.of_nat 0 - 1) with ci by lia. exact Ed.
        -- apply Hlast. lia.
Qed.

End OffsetWalk.

Section OffsetWalkResult.

Import Vectors.

(** X19 ([reassign_matrix_offset], "get to offset in matrix"): whenever the
    walk to the offset returns, the offset is not negative, the walk has
    passed columns of the query that hold exactly [offset] bases, the last
    of them a base when the offset is positive, and it has followed one
    link of the matrix for each column passed. *)
Theorem offset_walk_skips_bases (fuel : nat) (a : list Assembly) (qs : list Z)
    (offset ci pos ci' pos' : Z) :
  offset_loop fuel a qs offset ci pos = Some (ci', pos') ->
  0 <= offset /\ ci <= ci' /\
  Z.of_nat (length (filter is_base (bytes qs ci (Z.to_nat (ci' - ci))))) = offset /\
  pos' = follow a (Z.to_nat (ci' - ci)) pos /\
  (0 < offset -> rd qs (ci' - 1) <> dash).
Proof.
  intros H. destruct (offset_loop_walk a qs fuel _ _ _ _ _ H)
    as (H0 & k & -> & -> & Hc & _ & Hlast).
  replace (ci + Z.of_nat k - ci) with (Z.of_nat k) by lia. rewrite Nat2Z.id.
  repeat split; auto; lia.
Qed.

Lemma offset_walk_skips_bases_witness :
  exists ci' pos',
    offset_loop 10 (assmb rw_matrix) (q rw_assem) 2 0 0 = Some (ci', pos') /\
    Z.of_nat (length (filter is_base (bytes (q rw_assem) 0 (Z.to_nat (ci' - 0))))) = 2 /\
    pos' = follow (assmb rw_matrix) (Z.to_nat (ci' - 0)) 0.
Proof.
  destruct (offset_loop 10 (assmb rw_matrix) (q rw_assem) 2 0 0) as [[ci' pos']|] eqn:E;
    [|vm_compute in E; discriminate E].
  exists ci', pos'. split; [reflexivity|].
  destruct (offset_walk_skips_bases 10 (assmb rw_matrix) (q rw_assem) 2 0 0 ci' pos' E)
    as (_ & _ & Hc & Hp & _).
  split; [exact Hc|exact Hp].
Defined.

End OffsetWalkResult.

(** ** The matrix rewriter: the rewritten consensus *)

Section RewriterStreams.

Variable tseq : list Z.
Variable t_len : Z.

Lemma offset_main_spelled (nt ns nq : nat) (fuel : nat) :
  t_len < Z.of_nat nt -> t_len < Z.of_nat ns -> t_len < Z.of_nat nq ->
  forall st st',
    offset_main fuel tseq t_len st = Some st' ->
    spelled tseq t_len nt ns nq st -> spelled tseq t_len nt ns nq st'.
Proof.
  intros Hnt Hns Hnq.
  induction fuel as [|fuel IH]; intros st st' H HI; cbn [offset_main] in H.
  - destruct (Z.eqb_spec (r_aln_len st) t_len) as [E|E]; cbn [negb] in H;
      [injection H as <-; exact HI|discriminate].
  - destruct (Z.eqb_spec (r_aln_len st) t_len) as [E|E]; cbn [negb] in H;
      [injection H as <-; exact HI|].
    match type of H with
    | match ?X with Some _ => _ | None => None end = _ =>
        destruct X as [st1|] eqn:Es; [|discriminate]
    end.
    apply IH in H; [exact H|]. clear H IH.
    destruct HI as (Ha & Lt & Ls & Lq & Hcells).
    unfold spelled. cbn [r_aln_len r_t r_s r_q].
    destruct (Z.eqb_spec (rd (r_q st) (r_ci st)) dash) as [Eq|Eq]; cbn [negb] in Es.
    + (* a gap of the query: the streams are left alone *)
      repeat match type of Es with
             | context [if ?c then _ else _] => destruct c
             | context [let '(_, _) := ?p in _] => destruct p
             | context [match ?o with Some _ => _ | None => _ end] => destruct o
             end; try discriminate; injection Es as <-;
        cbn [r_aln_len r_t r_s r_q]; auto.
    + (* a base of the query: one column is written *)
      match type of Es with
      | context [if ?c then _ else _] => destruct c
      end; injection Es as <-; cbn [r_aln_len r_t r_s r_q];
        rewrite !length_wr; (split; [lia|]); repeat (split; [assumption|]);
        intros i Hi;
        (destruct (Z.eq_dec i (r_aln_len st)) as [->|Hne];
         [rewrite !rd_wr_same by lia; auto
         |rewrite !rd_wr_other by congruence; apply Hcells; lia]).
Qed.

End RewriterStreams.

Section RewriterStreamsResult.

Import Vectors.

(** X20 ([reassign_matrix_offset]): whenever the call returns on streams of
    more than [t_len] bytes, the consensus record holds
    [aln_len = len = cover = t_len], the template stream spells the new
    template base by base, the match stream is a bar in every column, the
    query stream has no gap in any column, and the three streams end with a
    NUL at [t_len]. *)
Theorem matrix_offset_rewrites_streams (fuel : nat) (matrix : AssemInfo) (assem : Assem)
    (offset : Z) (tseq : list Z) (t_len : Z) mx am ins :
  reassign_matrix_offset fuel matrix assem offset tseq t_len = Some (mx, am, ins) ->
  0 <= t_len ->
  t_len < Z.of_nat (length (t assem)) ->
  t_len < Z.of_nat (length (s assem)) ->
  t_len < Z.of_nat (length (q assem)) ->
  aln_len am = t_len /\ a_len am = t_len /\ cover am = t_len /\
  (forall i, 0 <= i < t_len ->
     rd (t am) i = rd bases (getNuc tseq i) /\ rd (s am) i = bar /\ rd (q am) i <> dash) /\
  rd (t am) t_len = 0 /\ rd (s am) t_len = 0 /\ rd (q am) t_len = 0.
Proof.
  unfold reassign_matrix_offset. intros H H0 Ht Hs Hq.
  destruct (offset_loop _ _ _ _ _ _) as [[ci pos]|]; [|discriminate].
  destruct (reassign_matrix_bias _ _) as [[matrix1 bias]|]; [|discriminate].
  destruct (offset_main _ _ _ _) as [st|] eqn:E; [|discriminate].
  pose proof (offset_main_exit _ _ _ _ _ E) as Hx.
  apply (offset_main_spelled tseq t_len _ _ _ fuel Ht Hs Hq) in E.
  2:{ unfold spelled. cbn [r_aln_len r_t r_s r_q]. repeat split; auto; lia. }
  destruct E as (Ha & Lt & Ls & Lq & Hcells).
  destruct (r_ni st); [|discriminate].
  injection H as <- <- <-. cbn [aln_len a_len cover t s q]. rewrite Hx in *.
  repeat split; auto.
  - rewrite rd_wr_other by lia. now apply Hcells.
  - rewrite rd_wr_other by lia. now apply Hcells.
  - rewrite rd_wr_other by lia. now apply Hcells.
  - apply rd_wr_same. lia.
  - apply rd_wr_same. lia.
  - apply rd_wr_same. lia.
Qed.

Lemma matrix_offset_rewrites_streams_witness :
  exists mx am ins,
    reassign_matrix_offset 20 rw_matrix rw_assem 0 atc 3 = Some (mx, am, ins) /\
    0 <= 3 /\ 3 < Z.of_nat (length (t rw_assem)) /\
    (forall i, 0 <= i < 3 ->
       rd (t am) i = rd bases (getNuc atc i) /\ rd (s am) i = bar /\ rd (q am) i <> dash).
Proof.
  destruct (reassign_matrix_offset 20 rw_matrix rw_assem 0 atc 3)
    as [[[mx am] ins]|] eqn:E; [|vm_compute in E; discriminate E].
  exists mx, am, ins. split; [reflexivity|]. split; [lia|]. split; [simpl; lia|].
  apply (matrix_offset_rewrites_streams 20 rw_matrix rw_assem 0 atc 3 mx am ins E);
    simpl; lia.
Defined.

End RewriterStreamsResult.

(** ** The statistics on a matrix without insertion columns *)

Section StatsWalk.

Variable assembly : list Assembly.
Variable sq : list Z.
Variable above : Z -> bool.
Variable t_len : Z.
Hypothesis Hlen : 1 <= t_len <= 8112.
Hypothesis Hnext : forall i, 0 <= i < t_len - 1 -> next (node assembly i) = i + 1.
Hypothesis Hcounts :
  forall i k, 0 <= i < t_len - 1 -> 0 <= count (node assembly i) k < 2 ^ 16.

Lemma getNuc_range (W : list Z) (p : Z) : 0 <= getNuc W p < 4.
Proof.
  unfold getNuc, shl64.
  set (x := Z.shiftl _ _ mod 2 ^ 64).
  assert (0 <= x < 2 ^ 64) by (apply Z.mod_pos_bound; lia).
  rewrite Z.shiftr_div_pow2 by lia. split.
  - apply Z.div_pos; lia.
  - apply Z.div_lt_upper_bound; lia.
Qed.

(** A base tally is one of the five summands of the depth. *)
Lemma count_le_depth (nd : Assembly) (k : Z) :
  (forall j, 0 <= count nd j) -> 0 <= k < 4 ->
  count nd k <= count nd 0 + count nd 1 + count nd 2 + count nd 3 + count nd 4.
Proof.
  intros Hp Hk.
  pose proof (Hp 0). pose proof (Hp 1). pose proof (Hp 2). pose proof (Hp 3).
  pose proof (Hp 4).
  assert (k = 0 \/ k = 1 \/ k = 2 \/ k = 3) as [-> | [-> | [-> | ->]]] by lia; lia.
Qed.

Lemma chunk_walk_sums (k : nat) :
  forall (fuel : nat) (s : nat) (l : Local),
    Z.of_nat s + Z.of_nat k = t_len - 1 -> (k <= fuel)%nat ->
    0 <= l_deletionSum l <= Z.of_nat s * 2 ^ 16 ->
    0 <= l_snpSum l <= Z.of_nat s * (5 * 2 ^ 16) ->
    exists l',
      chunk_walk fuel assembly sq above t_len (Z.of_nat s) (t_len - 1) l = Some l' /\
      (l_deletionSum l', l_snpSum l')
      = fold_left
          (fun acc p =>
             let nd := node assembly p in
             let d := count nd 0 + count nd 1 + count nd 2 + count nd 3 + count nd 4 in
             (fst acc + count nd 5, snd acc + (d - count nd (getNuc sq p))))
          (map Z.of_nat (List.seq s k)) (l_deletionSum l, l_snpSum l) /\
      l_insertSum l' = l_insertSum l /\
      0 <= l_deletionSum l' <= t_len * 2 ^ 16 /\
      0 <= l_snpSum l' <= t_len * (5 * 2 ^ 16).
Proof.
  induction k as [|k IH]; intros fuel s l Hs Hf Hd Hsn.
  - exists l. split; [|repeat split; try reflexivity; lia].
    destruct fuel; cbn [chunk_walk];
      (destruct (Z.eqb_spec (Z.of_nat s) (t_len - 1)); [reflexivity|lia]).
  - destruct fuel as [|fuel]; [lia|]. cbn [chunk_walk].
    destruct (Z.eqb_spec (Z.of_nat s) (t_len - 1)); [lia|]. cbn [negb].
    set (nd := node assembly (Z.of_nat s)).
    assert (Hc : forall j, 0 <= count nd j < 2 ^ 16) by (intros j; apply Hcounts; lia).
    assert (Hp : forall j, 0 <= count nd j) by (intros j; apply Hc).
    pose proof (Hc 0). pose proof (Hc 1). pose proof (Hc 2). pose proof (Hc 3).
    pose proof (Hc 4). pose proof (Hc 5).
    set (d := count nd 0 + count nd 1 + count nd 2 + count nd 3 + count nd 4).
    pose proof (count_le_depth nd (getNuc sq (Z.of_nat s)) Hp (getNuc_range sq _)) as Hle.
    fold d in Hle.
    pose proof (Hp (getNuc sq (Z.of_nat s))) as Hge.
    assert (Ed : wrap32 d = d) by (unfold wrap32; apply Z.mod_small; lia).
    rewrite Ed.
    assert (Ew : wrap32 t_len = t_len) by (unfold wrap32; apply Z.mod_small; lia).
    rewrite Ew.
    destruct (Z.ltb_spec (Z.of_nat s) t_len); [|lia].
    assert (Em : wrap32 (d - count nd (getNuc sq (Z.of_nat s)))
                 = d - count nd (getNuc sq (Z.of_nat s)))
      by (unfold wrap32; apply Z.mod_small; lia).
    rewrite Em.
    assert (Es : wrap64 (l_snpSum l + (d - count nd (getNuc sq (Z.of_nat s))))
                 = l_snpSum l + (d - count nd (getNuc sq (Z.of_nat s))))
      by (unfold wrap64; apply Z.mod_small; lia).
    assert (Edl : wrap64 (l_deletionSum l + count nd 5) = l_deletionSum l + count nd 5)
      by (unfold wrap64; apply Z.mod_small; lia).
    rewrite Es, Edl.
    assert (En : next nd = Z.of_nat s + 1) by (apply Hnext; lia).
    rewrite En.
    destruct (Z.eqb_spec (Z.of_nat s + 1) 0); [lia|].
    replace (Z.of_nat s + 1) with (Z.of_nat (S s)) by lia.
    match goal with
    | |- exists l', chunk_walk _ _ _ _ _ _ _ ?L = _ /\ _ => set (l1 := L)
    end.
    assert (E1 : l_deletionSum l1 = l_deletionSum l + count nd 5).
    { unfold l1.
      repeat match goal with |- context [if ?c then _ else _] => destruct c end;
        reflexivity. }
    assert (E2 : l_snpSum l1 = l_snpSum l + (d - count nd (getNuc sq (Z.of_nat s)))).
    { unfold l1.
      repeat match goal with |- context [if ?c then _ else _] => destruct c end;
        reflexivity. }
    assert (E3 : l_insertSum l1 = l_insertSum l).
    { unfold l1.
      repeat match goal with |- context [if ?c then _ else _] => destruct c end;
        reflexivity. }
    clearbody l1.
    destruct (IH fuel (S s) l1) as (l' & El & Esum & Eins & Hb1 & Hb2); try lia.
    exists l'. split; [exact El|]. split; [|split; [congruence|split; assumption]].
    rewrite Esum, E1, E2. cbn [List.seq map fold_left fst snd]. reflexivity.
Qed.

End StatsWalk.

Section StatsResult.

Import Vectors.

(** X21 ([getExtendedFeatures]): on a matrix without insertion columns
    (column [i] links to [i + 1]) of at most 8112 template positions with
    16-bit tallies, a single worker returns, and the published
    [deletionSum] and [snpSum] are the sums of the gap votes and of the
    mismatches over the positions [0 .. t_len - 2]; [insertSum] is zero.
    The last template position is not part of the sums. *)
Theorem extended_features_linear (fuel : nat) (fix_var : Assem -> Assem)
    (above : Assem -> Z -> bool) (am : Assem) (matrix : AssemInfo) (sq : list Z)
    (t_len : Z) :
  1 <= t_len <= 8112 -> t_len <= Z.of_nat fuel ->
  (forall i, 0 <= i < t_len - 1 -> next (node (assmb matrix) i) = i + 1) ->
  (forall i k, 0 <= i < t_len - 1 -> 0 <= count (node (assmb matrix) i) k < 2 ^ 16) ->
  (forall a, snpSum (fix_var a) = snpSum a /\ insertSum (fix_var a) = insertSum a /\
             deletionSum (fix_var a) = deletionSum a) ->
  exists am',
    getExtendedFeatures fuel fix_var above am matrix sq t_len = Some am' /\
    (deletionSum am', snpSum am') = position_sums (assmb matrix) sq (t_len - 1) /\
    insertSum am' = 0.
Proof.
  intros Hlen Hfuel Hnext Hcounts Hfix. unfold getExtendedFeatures.
  set (am0 := fix_var _).
  destruct fuel as [|fuel]; [lia|]. cbn [chunk_loop].
  change (8112 =? 0) with false. cbn [negb].
  change (wrap32 0) with 0. change (sint32 (0 + 8112)) with 8112.
  change (8112 <? 0) with false. cbv iota.
  assert (Ew : wrap32 t_len = t_len) by (unfold wrap32; apply Z.mod_small; lia).
  assert (Ew1 : wrap32 (t_len - 1) = t_len - 1) by (unfold wrap32; apply Z.mod_small; lia).
  rewrite Ew, Ew1. change (wrap32 (0 + 8112)) with 8112.
  destruct (Z.ltb_spec 0 t_len); [|lia].
  destruct (Z.leb_spec t_len 8112); [|lia].
  destruct (chunk_walk_sums (assmb matrix) sq (above am0) t_len Hlen Hnext Hcounts
              (Z.to_nat (t_len - 1)) (S fuel) 0 (mkLocal 0 0 0 0 0))
    as (l' & El & Esum & Eins & Hb1 & Hb2);
    cbn [l_deletionSum l_snpSum l_insertSum]; try lia.
  change (Z.of_nat 0) with 0 in El. rewrite El.
  assert (Ez : chunk_loop fuel (assmb matrix) sq (above am0) t_len 8112 0 l' = Some l')
    by (destruct fuel; reflexivity).
  rewrite Ez. eexists. split; [reflexivity|]. cbn [deletionSum snpSum insertSum].
  destruct (Hfix (mkAssem (t am) (s am) (q am) (a_len am) (aln_len am) (cover am)
                    (depth am) (depthVar am) 0 0 0 0 0 (readCountAln am)
                    (if Z.shiftr (readCountAln am) 1 + Z.land (readCountAln am) 1
                        <=? fragmentCountAln am
                     then fragmentCountAln am
                     else Z.shiftr (readCountAln am) 1 + Z.land (readCountAln am) 1)))
    as (E1 & E2 & E3).
  cbn [snpSum insertSum deletionSum] in E1, E2, E3. fold am0 in E1, E2, E3.
  rewrite E1, E2, E3, Eins. cbn [l_insertSum Z.add].
  split; [|reflexivity].
  unfold position_sums, zrange.
  cbn [l_deletionSum l_snpSum] in Esum. rewrite <- Esum.
  unfold wrap64. rewrite !Z.mod_small by lia. reflexivity.
Qed.

Lemma extended_features_linear_witness :
  exists am',
    getExtendedFeatures 3 (fun a => a) (fun _ _ => false) stats_assem stats_matrix acg 3
    = Some am' /\
    (deletionSum am', snpSum am') = (3, 0) /\ insertSum am' = 0.
Proof.
  apply (extended_features_linear 3 (fun a => a) (fun _ _ => false) stats_assem
           stats_matrix acg 3).
  - lia.
  - simpl; lia.
  - intros i Hi. assert (i = 0 \/ i = 1) as [-> | ->] by lia; reflexivity.
  - intros i k Hi. unfold count, rd.
    assert (i = 0 \/ i = 1) as [-> | ->] by lia;
      (destruct (Z.ltb_spec k 0); [lia|]);
      (destruct (Z.to_nat k) as [|[|[|[|[|[|[|]]]]]]]; simpl; lia).
  - intros a. auto.
Defined.

End StatsResult.

(** ** The matrix rewriter on a consensus without gaps *)

Section GapFree.

Lemma follow_linear (a : list Assembly) (n : nat) :
  forall p,
    (forall i, p <= i < p + Z.of_nat n -> next (node a i) = i + 1) ->
    follow a n p = p + Z.of_nat n.
Proof.
  induction n as [|n IH]; intros p H; cbn [follow]; [lia|].
  rewrite (H p) by lia. rewrite IH; [lia|]. intros i Hi. apply H. lia.
Qed.

Lemma offset_loop_gap_free (a : list Assembly) (qs : list Z) (n : nat) :
  forall fuel ci pos,
    (n <= fuel)%nat ->
    (forall i, ci <= i < ci + Z.of_nat n -> rd qs i <> dash) ->
    offset_loop fuel a qs (Z.of_nat n) ci pos = Some (ci + Z.of_nat n, follow a n pos).
Proof.
  induction n as [|n IH]; intros fuel ci pos Hf Hq.
  - destruct fuel; cbn [offset_loop follow Z.of_nat Z.eqb]; do 2 f_equal; lia.
  - destruct fuel as [|fuel]; [lia|]. cbn [offset_loop follow].
    destruct (Z.eqb_spec (Z.of_nat (S n)) 0); [lia|].
    destruct (Z.eqb_spec (rd qs ci) dash) as [E|E]; [exfalso; apply (Hq ci); [lia|exact E]|].
    cbn [negb]. replace (Z.of_nat (S n) - 1) with (Z.of_nat n) by lia.
    rewrite IH; [do 2 f_equal; lia|lia|]. intros i Hi. apply Hq. lia.
Qed.

Lemma bias_scan_none (ts qs : list Z) (n : nat) :
  forall ci bias,
    (forall i, ci <= i < ci + Z.of_nat n -> rd ts i <> dash) ->
    bias_scan n ts qs ci bias = bias.
Proof.
  induction n as [|n IH]; intros ci bias H; cbn [bias_scan]; [reflexivity|].
  destruct (rd ts ci =? 0); [reflexivity|].
  destruct (Z.eqb_spec (rd ts ci) dash) as [E|E]; [exfalso; apply (H ci); [lia|exact E]|].
  cbn [andb]. apply IH. intros i Hi. apply H. lia.
Qed.

Lemma base_not_gap (tseq : list Z) (p : Z) : rd bases (getNuc tseq p) <> dash.
Proof.
  pose proof (getNuc_range tseq p) as H.
  assert (getNuc tseq p = 0 \/ getNuc tseq p = 1 \/ getNuc tseq p = 2 \/
          getNuc tseq p = 3) as [-> | [-> | [-> | ->]]] by lia;
    vm_compute; discriminate.
Qed.

Lemma node_set_next (a : list Assembly) (i j nx : Z) :
  0 <= i < Z.of_nat (length a) ->
  node (set_next a i nx) j
  = if j =? i then mkAssembly (counts (node a i)) nx else node a j.
Proof. intros H. unfold set_next. now apply node_set_node. Qed.

(** A shift by zero leaves every node as it is. *)
Lemma bias_loop_zero (n : nat) :
  forall a i,
    Z.of_nat n <= i <= Z.of_nat (length a) ->
    exists a',
      bias_loop n a i i 0 = Some a' /\ length a' = length a /\
      forall x, node a' x = node a x.
Proof.
  induction n as [|n IH]; intros a i Hi; cbn [bias_loop]; [now exists a|].
  destruct (Z.ltb_spec (i - 1) 0) as [Hlt|_]; [lia|].
  set (a1 := set_node a (i - 1) (node a (i - 1))).
  set (a2 := set_next a1 (i - 1) (next (node a1 (i - 1)) + 0)).
  assert (L1 : length a1 = length a) by apply length_set_node.
  assert (L2 : length a2 = length a) by (unfold a2; now rewrite length_set_next).
  assert (E2 : forall x, node a2 x = node a x).
  { intros x. unfold a2. rewrite node_set_next by lia.
    destruct (Z.eqb_spec x (i - 1)) as [->|Hne].
    - unfold a1. rewrite node_set_node_same by lia.
      destruct (node a (i - 1)) as [c nx]. cbn [counts next]. f_equal. lia.
    - unfold a1. apply node_set_node_other. congruence. }
  destruct (IH a2 (i - 1) ltac:(lia)) as (a' & Ea & L & E).
  exists a'. split; [exact Ea|]. split; [congruence|]. intros x. now rewrite E, E2.
Qed.

Variable tseq : list Z.
Variable a : list Assembly.
Variables t0 q0 : list Z.
Variables offset t_len : Z.
Hypothesis Hoff : 0 <= offset.
Hypothesis Hq : gap_free q0 (offset + t_len).
Hypothesis Ht : gap_free t0 (offset + t_len).
Hypothesis Hlin : linear a (offset + t_len - 1).
Hypothesis Hroom : t_len <= Z.of_nat (length a).
Hypothesis Htl : t_len <= Z.of_nat (length t0).
Hypothesis Hql : t_len <= Z.of_nat (length q0).

Lemma offset_main_anchored (n : nat) :
  forall fuel k st,
    k + Z.of_nat n = t_len -> (n <= fuel)%nat -> 0 <= k ->
    anchored a t0 q0 offset t_len k st ->
    exists st',
      offset_main fuel tseq t_len st = Some st' /\
      anchored a t0 q0 offset t_len t_len st' /\
      size (r_matrix st') = size (r_matrix st).
Proof.
  induction n as [|n IH]; intros fuel k st Hk Hf Hk0 HI.
  - assert (k = t_len) by lia. subst k. exists st.
    pose proof HI as (E & _).
    split; [|split; [exact HI|reflexivity]].
    destruct fuel; cbn [offset_main]; rewrite E, Z.eqb_refl; reflexivity.
  - destruct fuel as [|fuel]; [lia|].
    destruct HI as (Ealn & Eci & Easm & Eins & Eai & Eni & La & Lt & Lq & Hun & Hdone
                    & Hstr & Hqd).
    specialize (Eai ltac:(lia)).
    cbn [offset_main]. rewrite Ealn, Eci, Eai.
    destruct (Z.eqb_spec k t_len) as [|_]; [lia|]. cbn [negb].
    destruct (Hstr (offset + k) ltac:(lia)) as (Etk & Eqk). rewrite Eqk.
    destruct (Z.eqb_spec (rd q0 (offset + k)) dash) as [E|_];
      [exfalso; apply (Hq (offset + k)); [lia|exact E]|]. cbn [negb].
    set (ts := wr (r_t st) k (rd bases (getNuc tseq k))).
    assert (Ets : rd ts (offset + k) <> dash).
    { unfold ts. destruct (Z.eq_dec offset 0) as [->|Ho].
      - rewrite Z.add_0_l, rd_wr_same by lia. apply base_not_gap.
      - rewrite rd_wr_other by lia. rewrite Etk. apply Ht. lia. }
    destruct (Z.eqb_spec (rd ts (offset + k)) dash) as [E|_]; [contradiction|].
    set (a1 := match r_ni st with
               | Some ni => set_next (assmb (r_matrix st)) ni k
               | None => assmb (r_matrix st)
               end).
    set (a2 := set_node a1 k (node a1 (offset + k))).
    assert (L1 : length a1 = length a).
    { unfold a1. destruct (r_ni st); [rewrite length_set_next|]; exact La. }
    assert (L2 : length a2 = length a) by (unfold a2; now rewrite length_set_node).
    (* the nodes after linking the previous column *)
    assert (E1 : forall x, node a1 x
                           = if (0 <? k) && (x =? k - 1)
                             then mkAssembly (counts (node (assmb (r_matrix st)) (k - 1))) k
                             else node (assmb (r_matrix st)) x).
    { intros x. unfold a1. rewrite Eni.
      destruct (Z.eqb_spec k 0) as [->|Hk1]; [reflexivity|].
      rewrite node_set_next by lia.
      destruct (Z.ltb_spec 0 k); [|lia]. reflexivity. }
    assert (E1k : node a1 (offset + k) = node a (offset + k)).
    { rewrite E1. destruct (Z.eqb_spec (offset + k) (k - 1)); [lia|].
      rewrite andb_false_r. apply Hun. lia. }
    assert (E2 : forall x, node a2 x = if x =? k then node a (offset + k) else node a1 x).
    { intros x. unfold a2. rewrite node_set_node by lia. now rewrite E1k. }
    assert (Enext : k + 1 < t_len -> next (node a2 (offset + k)) = offset + (k + 1)).
    { intros Hlt. rewrite E2.
      destruct (Z.eqb_spec (offset + k) k); [|rewrite E1k]; rewrite Hlin; lia. }
    match goal with
    | |- exists st', offset_main fuel tseq t_len ?S1 = _ /\ _ => set (st1 := S1)
    end.
    destruct (IH fuel (k + 1) st1 ltac:(lia) ltac:(lia) ltac:(lia)) as (st' & E' & HI' & Hsz).
    { unfold anchored, st1. cbn [r_aln_len r_ci r_asm_len r_insertions r_ai r_ni
                                  r_matrix r_t r_q assmb].
      fold a1. fold a2.
      split; [reflexivity|]. split; [lia|]. split; [lia|]. split; [exact Eins|].
      split; [exact Enext|]. split.
      { destruct (Z.eqb_spec (k + 1) 0); [lia|]. f_equal. lia. }
      split; [exact L2|]. split; [unfold ts; now rewrite length_wr|].
      split; [now rewrite length_wr|]. split.
      { intros i Hi. rewrite E2, E1.
        destruct (Z.eqb_spec i k); [lia|].
        destruct (Z.eqb_spec i (k - 1)); [lia|]. rewrite andb_false_r. apply Hun. lia. }
      split.
      { intros i Hi. rewrite E2.
        destruct (Z.eqb_spec i k) as [->|Hik].
        - split; [f_equal; f_equal; lia|intros; lia].
        - rewrite E1. destruct (Z.ltb_spec 0 k); [|lia]. cbn [andb].
          destruct (Z.eqb_spec i (k - 1)) as [->|Hik1]; cbn [counts next].
          + split; [apply Hdone; lia|intros; lia].
          + destruct (Hdone i ltac:(lia)) as (Hc & Hn). split; [exact Hc|].
            intros _. apply Hn. lia. }
      split.
      { intros j Hj. unfold ts. rewrite !rd_wr_other by lia. apply Hstr. lia. }
      { intros j Hj. destruct (Z.eq_dec j k) as [->|Hjk].
        - rewrite rd_wr_same by lia. f_equal. lia.
        - rewrite rd_wr_other by lia. apply Hqd. lia. } }
    exists st'. split; [exact E'|]. split; [exact HI'|]. rewrite Hsz. reflexivity.
Qed.

End GapFree.

Section GapFreeResult.

Import Vectors.

(** A bias that is not positive leaves every node where it is. *)
Lemma matrix_bias_nonpositive (matrix : AssemInfo) (bias : Z) :
  bias <= 0 -> 0 <= len matrix <= size matrix ->
  Z.of_nat (length (assmb matrix)) = size matrix ->
  exists matrix1,
    reassign_matrix_bias matrix bias = Some (matrix1, 0) /\
    (length (assmb matrix) <= length (assmb matrix1))%nat /\
    forall x, node (assmb matrix1) x = node (assmb matrix) x.
Proof.
  intros Hb Hlen Hsz. unfold reassign_matrix_bias.
  destruct (Z.leb_spec (size matrix) (len matrix + bias)) as [Hre|Hre]; cbn [negb andb].
  - assert (bias = 0) by lia. subst bias.
    rewrite Z.add_0_r.
    pose proof (length_resize (assmb matrix) (len matrix + 1) ltac:(lia)) as Lr.
    destruct (bias_loop_zero (Z.to_nat (len matrix)) (resize (assmb matrix) (len matrix + 1))
                (len matrix) ltac:(lia)) as (a' & Ea & L & E).
    rewrite Ea. eexists. split; [reflexivity|]. cbn [assmb]. split; [lia|].
    intros x. rewrite E. apply node_resize. lia.
  - destruct (Z.leb_spec bias 0); [|lia]. exists matrix. auto.
Qed.

(** X22 ([reassign_matrix_offset]): for a consensus whose template and
    query streams have no gap in the columns [0 .. offset + t_len - 1],
    over a matrix whose columns are linked in order, the call returns; the
    matrix then has [t_len] columns in use, column [i] holds the tallies of
    the old column [offset + i], the columns are linked in order and the
    last one links to 0, the query stream is the old one moved by [offset]
    columns, and no node is left for reuse. *)
Theorem matrix_offset_gap_free (fuel : nat) (matrix : AssemInfo) (assem : Assem)
    (offset : Z) (tseq : list Z) (t_len : Z) :
  0 <= offset -> 1 <= t_len -> offset + t_len <= Z.of_nat fuel ->
  gap_free (q assem) (offset + t_len) -> gap_free (t assem) (offset + t_len) ->
  linear (assmb matrix) (offset + t_len - 1) ->
  0 <= len matrix <= size matrix ->
  Z.of_nat (length (assmb matrix)) = size matrix ->
  t_len <= size matrix ->
  t_len <= Z.of_nat (length (t assem)) ->
  t_len <= Z.of_nat (length (q assem)) ->
  exists mx am,
    reassign_matrix_offset fuel matrix assem offset tseq t_len = Some (mx, am, 0) /\
    len mx = t_len /\
    (forall i, 0 <= i < t_len ->
       counts (node (assmb mx) i) = counts (node (assmb matrix) (i + offset)) /\
       next (node (assmb mx) i) = if i =? t_len - 1 then 0 else i + 1) /\
    (forall i, 0 <= i < t_len -> rd (q am) i = rd (q assem) (i + offset)).
Proof.
  intros Hoff Ht1 Hfuel Hq Ht Hlin Hlen Hsz Hroom Htl Hql.
  unfold reassign_matrix_offset.
  assert (Eo : offset_loop fuel (assmb matrix) (q assem) offset 0 0
               = Some (offset, offset)).
  { pose proof (offset_loop_gap_free (assmb matrix) (q assem) (Z.to_nat offset) fuel 0 0
                  ltac:(lia) ltac:(intros i Hi; apply Hq; lia)) as E.
    rewrite follow_linear in E by (intros i Hi; apply Hlin; lia).
    rewrite Z2Nat.id, Z.add_0_l in E by lia. exact E. }
  rewrite Eo.
  rewrite bias_scan_none by (intros i Hi; apply Ht; lia).
  destruct (matrix_bias_nonpositive matrix (- offset) ltac:(lia) Hlen Hsz)
    as (matrix1 & Eb & Lb & Nb).
  rewrite Eb, Z.add_0_r.
  set (st0 := mkRState matrix1 (t assem) (s assem) (q assem) offset offset offset
                None 0 0 0 0 0 0).
  destruct (offset_main_anchored tseq (assmb matrix1) (t assem) (q assem) offset t_len
              Hoff Hq Ht
              ltac:(intros i Hi; rewrite Nb; apply Hlin; exact Hi)
              ltac:(lia) Htl Hql (Z.to_nat t_len) fuel 0 st0
              ltac:(lia) ltac:(lia) ltac:(lia))
    as (st' & E' & HI' & _).
  { unfold anchored, st0.
    cbn [r_aln_len r_ci r_asm_len r_insertions r_ai r_ni r_matrix r_t r_q].
    repeat split; auto; try lia; intros; lia. }
  rewrite E'.
  destruct HI' as (Ealn & _ & Easm & Eins & _ & Eni & La & _ & _ & _ & Hdone & _ & Hqd).
  destruct (Z.eqb_spec t_len 0); [lia|]. rewrite Eni, Ealn, Easm, Eins.
  eexists. eexists. split; [reflexivity|]. cbn [len assmb q].
  split; [reflexivity|]. split.
  - intros i Hi. rewrite node_set_next by lia.
    destruct (Hdone i Hi) as (Hc & Hn).
    destruct (Z.eqb_spec i (t_len - 1)) as [Ei|Ei]; cbn [counts next].
    + split; [|reflexivity]. rewrite <- Nb, <- Ei. exact Hc.
    + split; [rewrite <- Nb; exact Hc|apply Hn; lia].
  - intros i Hi. rewrite rd_wr_other by lia. apply Hqd. exact Hi.
Qed.

Lemma matrix_offset_gap_free_witness :
  gap_free (q cga_assem) (2 + 12) /\ gap_free (t cga_assem) (2 + 12) /\
  linear (assmb cga_matrix) (2 + 12 - 1) /\
  exists mx am,
    reassign_matrix_offset 14 cga_matrix cga_assem 2 [0; 0] 12 = Some (mx, am, 0) /\
    len mx = 12 /\
    (forall i, 0 <= i < 12 ->
       counts (node (assmb mx) i) = counts (node (assmb cga_matrix) (i + 2)) /\
       next (node (assmb mx) i) = if i =? 12 - 1 then 0 else i + 1) /\
    (forall i, 0 <= i < 12 -> rd (q am) i = rd (q cga_assem) (i + 2)).
Proof.
  assert (Hall : forall (P : Z -> Prop) n,
            Forall P (zrange n) -> forall i, 0 <= i < n -> P i).
  { intros P n H i Hi. rewrite Forall_forall in H. apply H, zrange_In, Hi. }
  assert (Hq : gap_free (q cga_assem) (2 + 12)).
  { refine (Hall (fun i => rd (q cga_assem) i <> dash) 14 _).
    repeat (constructor; [vm_compute; discriminate|]). constructor. }
  assert (Ht : gap_free (t cga_assem) (2 + 12)).
  { refine (Hall (fun i => rd (t cga_assem) i <> dash) 14 _).
    repeat (constructor; [vm_compute; discriminate|]). constructor. }
  assert (Hl : linear (assmb cga_matrix) (2 + 12 - 1)).
  { refine (Hall (fun i => next (node (assmb cga_matrix) i) = i + 1) 13 _).
    repeat (constructor; [vm_compute; reflexivity|]). constructor. }
  split; [exact Hq|]. split; [exact Ht|]. split; [exact Hl|].
  apply (matrix_offset_gap_free 14 cga_matrix cga_assem 2 [0; 0] 12); auto;
    try (simpl; lia); reflexivity.
Defined.

End GapFreeResult.

(** ** The matrix rewriter: the bias from insertions *)

Section BiasScan.

Import Vectors.

(** X23 ([reassign_matrix_offset], "get bias from insertions"): over the
    [k] columns that the scan visits, which are the columns before the NUL
    of the template stream and at most [t_len] of them, the scan adds one
    to the bias for each column that is a gap in the template and a base in
    the query. *)
Theorem bias_scan_counts_insertions (n : nat) (ts qs : list Z) (ci bias : Z) (k : nat) :
  (k <= n)%nat ->
  (forall j, ci <= j < ci + Z.of_nat k -> rd ts j <> 0) ->
  (k = n \/ rd ts (ci + Z.of_nat k) = 0) ->
  bias_scan n ts qs ci bias
  = bias + Z.of_nat (length (filter (insertion ts qs) (span ci k))).
Proof.
  revert ci bias k. induction n as [|n IH]; intros ci bias k Hk Hnz Hend.
  - assert (k = 0)%nat by lia. subst k. cbn. lia.
  - cbn [bias_scan]. destruct k as [|k].
    + destruct Hend as [Hend|Hend]; [discriminate|].
      replace (ci + Z.of_nat 0) with ci in Hend by lia. rewrite Hend.
      cbn. lia.
    + destruct (Z.eqb_spec (rd ts ci) 0) as [E|E]; [exfalso; apply (Hnz ci); [lia|exact E]|].
      rewrite span_S. cbn [filter].
      change ((rd ts ci =? dash) && negb (rd qs ci =? dash)) with (insertion ts qs ci).
      rewrite (IH (ci + 1) _ k).
      * destruct (insertion ts qs ci); cbn [length]; lia.
      * lia.
      * intros j Hj. apply Hnz. lia.
      * destruct Hend as [Hend|Hend]; [left; lia|right].
        replace (ci + 1 + Z.of_nat k) with (ci + Z.of_nat (S k)) by lia. exact Hend.
Qed.

Lemma bias_scan_counts_insertions_witness :
  (5 <= 7)%nat /\
  (forall j, 0 <= j < 0 + Z.of_nat 5 -> rd (t rw_assem) j <> 0) /\
  bias_scan 7 (t rw_assem) (q rw_assem) 0 0
  = 0 + Z.of_nat (length (filter (insertion (t rw_assem) (q rw_assem)) (span 0 5))).
Proof.
  assert (H1 : (5 <= 7)%nat) by lia.
  assert (H2 : forall j, 0 <= j < 0 + Z.of_nat 5 -> rd (t rw_assem) j <> 0).
  { intros j Hj.
    assert (j = 0 \/ j = 1 \/ j = 2 \/ j = 3 \/ j = 4) as [-> | [-> | [-> | [-> | ->]]]]
      by lia; vm_compute; discriminate. }
  split; [exact H1|]. split; [exact H2|].
  apply (bias_scan_counts_insertions 7 (t rw_assem) (q rw_assem) 0 0 5 H1 H2).
  right. reflexivity.
Defined.

End BiasScan.

(** ** The consensus printer: the alignment blocks *)

Section AlignmentBlocks.

Lemma blocks_map (line : Z -> list (list Z)) (n : nat) :
  forall i,
    blocks n i line
    = concat (map (fun b => line (i + 60 * Z.of_nat b)) (List.seq 0 n)).
Proof.
  induction n as [|n IH]; intros i; [reflexivity|].
  cbn [blocks List.seq map concat]. rewrite IH. f_equal.
  - f_equal. lia.
  - f_equal. rewrite <- seq_shift, map_map. apply map_ext. intros b. f_equal. lia.
Qed.

Lemma bytes_nonzero (str src : list Z) (K : list Z) (len : Z) :
  bytes str 0 (length K) = map (rd src) K ->
  (forall i, In i K -> 0 <= i < len) ->
  (forall i, 0 <= i < len -> rd src i <> 0) ->
  forall j, 0 <= j < Z.of_nat (length K) -> rd str j <> 0.
Proof.
  intros E HK Hnz j Hj.
  destruct (rd_of_bytes str src K j E Hj) as (-> & Hin).
  apply Hnz, HK, Hin.
Qed.

End AlignmentBlocks.

Section AlignmentBlocksResult.

Import Vectors.

(** X24 ([printConsensus], "print alignment"): when the three streams have
    no NUL within their [len] columns, the text written to [alignment_out]
    is the line [# header] followed, for each block [b] of 60 columns of
    the trimmed alignment, by the labelled template, match and query lines
    and an empty line; the three lines of a block carry the same columns
    [60 b .. 60 b + w - 1] of their streams, where [w] is 60 or what is
    left in the last block. *)
Theorem alignment_blocks_line_up (am : Assem) (header : list Z) (ref_fsa : Z) :
  0 <= a_len am ->
  a_len am < Z.of_nat (length (t am)) ->
  a_len am < Z.of_nat (length (s am)) ->
  a_len am < Z.of_nat (length (q am)) ->
  (forall i, 0 <= i < a_len am ->
             rd (t am) i <> 0 /\ rd (s am) i <> 0 /\ rd (q am) i <> 0) ->
  let am' := trim_alignment am in
  let n := Z.to_nat (a_len am') in
  snd (fst (printConsensus am header true ref_fsa))
  = Some (([35; 32] ++ header)
          :: concat
               (map (fun b =>
                       let w := Nat.min 60 (n - 60 * b) in
                       [pad10 label_template ++ [9] ++ bytes (t am') (60 * Z.of_nat b) w;
                        pad10 [] ++ [9] ++ bytes (s am') (60 * Z.of_nat b) w;
                        pad10 label_query ++ [9] ++ bytes (q am') (60 * Z.of_nat b) w;
                        []])
                  (List.seq 0 (block_count (a_len am'))))).
Proof.
  intros Hlen Ht Hs Hq Hnz. cbv zeta.
  pose proof (trim_alignment_columns am Hlen Ht Hs Hq) as H. cbv zeta in H.
  set (K := kept_columns (t am) (q am) 0 (Z.to_nat (a_len am))) in *.
  destruct H as (El & _ & _ & _ & Bt & Bs & Bq & Zt & Zs & Zq).
  assert (HK : forall i, In i K -> 0 <= i < a_len am).
  { intros i Hi. unfold K, kept_columns in Hi. apply filter_In in Hi.
    destruct Hi as (Hi & _). apply span_ge in Hi. lia. }
  pose proof (bytes_nonzero _ _ K _ Bt HK (fun i Hi => proj1 (Hnz i Hi))) as Nt.
  pose proof (bytes_nonzero _ _ K _ Bs HK (fun i Hi => proj1 (proj2 (Hnz i Hi)))) as Ns.
  pose proof (bytes_nonzero _ _ K _ Bq HK (fun i Hi => proj2 (proj2 (Hnz i Hi)))) as Nq.
  unfold printConsensus.
  destruct (prepare_consensus _ _ _) as [qs2 alen2]. cbn [fst snd].
  set (am' := trim_alignment am) in *.
  rewrite El, Nat2Z.id. do 2 f_equal.
  rewrite blocks_map. f_equal. apply map_ext_in. intros b Hb. apply in_seq in Hb.
  pose proof (block_count_bounds (length K)) as Hbc.
  assert (Hb60 : 60 * Z.of_nat b < Z.of_nat (length K)) by lia.
  unfold alignment_block. rewrite Z.add_0_l.
  assert (Hstr : forall str,
            (forall j, 0 <= j < Z.of_nat (length K) -> rd str j <> 0) ->
            rd str (Z.of_nat (length K)) = 0 ->
            str_prefix 60 str (60 * Z.of_nat b)
            = bytes str (60 * Z.of_nat b) (Nat.min 60 (length K - 60 * b))).
  { intros str Hn Hz.
    apply (str_prefix_bytes str 60 (60 * Z.of_nat b) (length K - 60 * b)).
    - intros j Hj. apply Hn. lia.
    - replace (60 * Z.of_nat b + Z.of_nat (length K - 60 * b))
        with (Z.of_nat (length K)) by lia.
      exact Hz. }
  rewrite (Hstr _ Nt Zt), (Hstr _ Ns Zs), (Hstr _ Nq Zq). reflexivity.
Qed.

Lemma alignment_blocks_line_up_witness :
  0 <= a_len cga_assem /\
  (forall i, 0 <= i < a_len cga_assem ->
             rd (t cga_assem) i <> 0 /\ rd (s cga_assem) i <> 0 /\ rd (q cga_assem) i <> 0) /\
  snd (fst (printConsensus cga_assem [120] true 0))
  = Some [[35; 32; 120];
          pad10 label_template ++ [9] ++ bytes (t cga_assem) 0 14;
          pad10 [] ++ [9] ++ bytes (s cga_assem) 0 14;
          pad10 label_query ++ [9] ++ bytes (q cga_assem) 0 14;
          []].
Proof.
  assert (H0 : 0 <= a_len cga_assem) by (simpl; lia).
  assert (H1 : a_len cga_assem < Z.of_nat (length (t cga_assem))) by (simpl; lia).
  assert (H2 : a_len cga_assem < Z.of_nat (length (s cga_assem))) by (simpl; lia).
  assert (H3 : a_len cga_assem < Z.of_nat (length (q cga_assem))) by (simpl; lia).
  assert (H4 : forall i, 0 <= i < a_len cga_assem ->
                 rd (t cga_assem) i <> 0 /\ rd (s cga_assem) i <> 0 /\
                 rd (q cga_assem) i <> 0).
  { intros i Hi. simpl in Hi.
    assert (Hin : In i (zrange 14)) by (apply zrange_In; lia).
    revert Hin. generalize i. apply Forall_forall.
    repeat (constructor; [vm_compute; repeat split; discriminate|]). constructor. }
  split; [exact H0|]. split; [exact H4|].
  rewrite (alignment_blocks_line_up cga_assem [120] 0 H0 H1 H2 H3 H4).
  vm_compute. reflexivity.
Defined.

End AlignmentBlocksResult.

(** ** The orchestrator: the scratch after a call *)

Section ScratchAfterCall.

(** [reassign_kmers] hands back a zeroed scratch. *)
Lemma kmers_scratch_zero (T : HashMapKMA) (M : Minimizer) (Score TL : list Z)
    (fw rc : CompDNA) :
  Forall (eq 0) Score ->
  ids_in_range T (length Score) ->
  Forall (eq 0) (snd (reassign_kmers T M Score TL fw rc)) /\
  length (snd (reassign_kmers T M Score TL fw rc)) = length Score.
Proof.
  intros Hz Hids. unfold reassign_kmers.
  destruct (negb (prefix_len T =? 0)).
  - pose proof (prefix_scan_good T M _ Hids Score fw rc Hz eq_refl) as Hg.
    destruct (prefix_scan T M Score fw rc) as [B Sc]. cbn [fst snd] in Hg.
    apply (sweep_good_zero _ _ Sc B Hg).
  - cbv zeta.
    pose proof (plain_scan_good T M _ Hids Score fw
                  (seqlen fw - kmersize T + 1) (0, 0, kmersize T) Hz eq_refl) as Hg.
    destruct (plain_scan T M Score fw _ _) as [ms [B Sc]]. cbn [fst snd] in Hg.
    pose proof (sweep_good_zero _ (fun t => rd TL t - kmersize T + 1) Sc B Hg)
      as (Hz1 & Hl1).
    destruct (sweep _ B Sc []) as [B_fw Sc1]. cbn [fst snd] in Hz1, Hl1.
    destruct (negb (prefix T =? 0)); [now split|].
    pose proof (plain_scan_good T M _ Hids Sc1 rc
                  (seqlen fw - kmersize T + 1) ms Hz1 Hl1) as Hg2.
    destruct (plain_scan T M Sc1 rc _ ms) as [ms2 [B2 Sc2]]. cbn [fst snd] in Hg2.
    pose proof (sweep_good_zero _ (fun t => rd TL t - kmersize T + 1) Sc2 B2 Hg2)
      as (Hz2 & Hl2).
    destruct (sweep _ B2 Sc2 []) as [B_rc Sc3]. now split.
Qed.

End ScratchAfterCall.

Section ScratchAfterCallResult.

Import Vectors.

(** X25 ([reassign_template]): when the [Score] scratch is all zero at
    entry and the value vectors only hold ids that index it, then, whatever
    the call returns, the scratch is all zero again and of the same size,
    ready for the next call. *)
Theorem reassign_template_keeps_scratch (fuel : nat) (T : HashMapKMA) (E : Externals)
    (template_lengths : list Z) (st st' : State) (r : Z) :
  Forall (eq 0) (st_Score st) ->
  ids_in_range T (length (st_Score st)) ->
  reassign_template fuel T E template_lengths st = Some (st', r) ->
  Forall (eq 0) (st_Score st') /\ length (st_Score st') = length (st_Score st).
Proof.
  intros Hz Hids. unfold reassign_template.
  destruct (consensus2qseq _ _ _ _) as [qseq n0].
  pose proof (kmers_scratch_zero T (minimizer E) (st_Score st) template_lengths
                (compDNA E (qs_seq qseq) (qs_len qseq))
                (rc_comp E (compDNA E (qs_seq qseq) (qs_len qseq))) Hz Hids) as Hk.
  destruct (reassign_kmers _ _ _ _ _ _) as [B Score]. cbn [snd] in Hk.
  intros H.
  destruct (reassign_buildheap _ _ _ _) as [[mem k]|]; [|discriminate].
  destruct (candidates_loop _ _ _ _ _ _ _ _ _ _ _ _) as [[[[mem1 tseq] t1] m1]|];
    [|discriminate].
  destruct (t1 =? 0).
  - injection H as <- <-. exact Hk.
  - destruct (t1 <? 0);
      destruct (reassign_matrix_offset _ _ _ _ _ _) as [[[mx am] ins]|];
      try discriminate;
      destruct (getExtendedFeatures _ _ _ _ _ _ _) as [am'|]; try discriminate;
      injection H as <- <-; exact Hk.
Qed.

Lemma reassign_template_keeps_scratch_witness :
  exists st' r,
    reassign_template 3 idx_plain env_t10 [0; 10] cga_state = Some (st', r) /\
    Forall (eq 0) (st_Score cga_state) /\
    Forall (eq 0) (st_Score st') /\ length (st_Score st') = length (st_Score cga_state).
Proof.
  destruct (reassign_template 3 idx_plain env_t10 [0; 10] cga_state)
    as [[st' r]|] eqn:E; [|vm_compute in E; discriminate E].
  exists st', r. split; [reflexivity|].
  assert (Hz : Forall (eq 0) (st_Score cga_state)) by (repeat constructor).
  split; [exact Hz|].
  exact (reassign_template_keeps_scratch 3 idx_plain env_t10 [0; 10] cga_state st' r
           Hz idx_plain_in_range E).
Defined.

End ScratchAfterCallResult.
